(** * ww4ff.data.transform.base: a shallow embedding and its properties

    The development follows [src/ww4ff/data/transform/base.py]: the pipeline
    composer ([Composition], [compose]), the windowing stage ([random_slice]),
    the batching stage ([batchify]), the streaming normaliser
    ([ZmuvTransform]) and the spectral feature extractor
    ([StandardAudioTransform]).

    Tensors are modelled by their shape and their row-major list of values.
    Sample values are exact rationals: the batching and windowing stages only
    move values around.  The normaliser is studied in exact arithmetic, and
    beside it under an arbitrary rounding of every operation, of which
    float32 (round to nearest, ties to even, 24 significant bits) is the
    instance that the buffers of the source have.  The division of
    [compute_lengths] is modelled in float32. *)

From Stdlib Require Import String.
From Stdlib Require Import List ZArith QArith Bool Lia Permutation Sorted.
From Stdlib Require Import Qround Qfield Lqa Qabs Qpower Qreduction.
Import ListNotations.

Set Implicit Arguments.

(** ** Failures

    Python exceptions that the modelled code can raise, one constructor per
    raising site of the library calls that are used. *)

Inductive error : Type :=
| IndexError_no_dimension      (* size(-1) or size()[-1] of a 0-dim tensor *)
| IndexError_tuple             (* args[0] of an empty argument tuple *)
| IndexError_dim_out_of_range  (* torch.stack(_, 1) of 0-dim tensors *)
| ValueError_max_empty         (* max() of an empty sequence *)
| ValueError_empty_range       (* random.randint(a, b) with b < a *)
| RuntimeError_cat_zero_dim    (* torch.cat of a zero-dimensional tensor *)
| RuntimeError_cat_sizes       (* torch.cat of tensors of unlike sizes *)
| RuntimeError_stack_empty     (* torch.stack of an empty list *)
| RuntimeError_stack_sizes     (* torch.stack of tensors of unlike sizes *)
| RuntimeError_zeros_negative  (* torch.zeros of a negative size *)
| RuntimeError_broadcast       (* elementwise product of unlike shapes *)
| RuntimeError_stft            (* torch.stft of a too short signal *)
| StageError (code : nat).     (* an exception raised by a pipeline stage *)

Inductive result (A : Type) : Type :=
| Ok (a : A)
| Err (e : error).

Arguments Ok {A} a.
Arguments Err {A} e.

Definition bind {A B : Type} (r : result A) (k : A -> result B) : result B :=
  match r with
  | Ok a => k a
  | Err e => Err e
  end.

Declare Scope result_scope.
Delimit Scope result_scope with result.
Notation "x <- e ;; k" := (bind e (fun x => k))
  (at level 61, e at next level, right associativity) : result_scope.
Open Scope result_scope.

(** A list comprehension whose body can raise: elements are evaluated left to
    right and the first failure is the comprehension's. *)
Fixpoint mapM {A B : Type} (f : A -> result B) (l : list A) : result (list B) :=
  match l with
  | [] => Ok []
  | x :: xs => y <- f x ;; ys <- mapM f xs ;; Ok (y :: ys)
  end.

(** ** Tensors *)

Record tensor (A : Type) : Type := mkTensor {
  shape : list nat;
  values : list A
}.

Arguments mkTensor {A} shape values.

Definition prod_dims (s : list nat) : nat := fold_right Nat.mul 1%nat s.

(** [t.numel()] *)
Definition numel {A} (t : tensor A) : nat := prod_dims (shape t).

(** A tensor holds as many values as its shape says. *)
Definition well_formed {A} (t : tensor A) : Prop :=
  length (values t) = numel t.

(** [t.size(-1)], also [t.size()[-1]]: the last dimension; a tensor without
    dimensions has none. *)
Definition size_last {A} (t : tensor A) : result Z :=
  match shape t with
  | [] => Err IndexError_no_dimension
  | d :: ds => Ok (Z.of_nat (last ds d))
  end.

(** [t.squeeze()]: every dimension of size one is dropped. *)
Definition squeeze {A} (t : tensor A) : tensor A :=
  mkTensor (filter (fun d => negb (d =? 1)%nat) (shape t)) (values t).

(** [torch.zeros(n)] for a Python integer [n]. *)
Definition zeros (n : Z) : result (tensor Q) :=
  if (n <? 0)%Z then Err RuntimeError_zeros_negative
  else Ok (mkTensor [Z.to_nat n] (repeat 0%Q (Z.to_nat n))).

(** [torch.tensor(l)] for a flat Python list. *)
Definition tensor_of_list {A} (l : list A) : tensor A :=
  mkTensor [length l] l.

(** The first [k] consecutive rows of [n] values each. *)
Fixpoint chunks {A} (n k : nat) (l : list A) : list (list A) :=
  match k with
  | O => []
  | S k' => firstn n l :: chunks n k' (skipn n l)
  end.

Fixpoint zip_with {A B C} (f : A -> B -> C) (l : list A) (m : list B) : list C :=
  match l, m with
  | x :: l', y :: m' => f x y :: zip_with f l' m'
  | _, _ => []
  end.

Definition shape_eqb (s1 s2 : list nat) : bool :=
  if list_eq_dec Nat.eq_dec s1 s2 then true else false.

(** [torch.cat((a, b), -1)].  A zero-dimensional argument is refused before
    anything else; a one-dimensional empty tensor is skipped; otherwise the
    leading dimensions must agree and the rows are joined pairwise. *)
Definition cat_last {A} (a b : tensor A) : result (tensor A) :=
  match shape a, shape b with
  | [], _ | _, [] => Err RuntimeError_cat_zero_dim
  | da :: sa, db :: sb =>
      if shape_eqb (shape a) [0%nat] then Ok b
      else if shape_eqb (shape b) [0%nat] then Ok a
      else if shape_eqb (removelast (shape a)) (removelast (shape b)) then
        let la := last sa da in
        let lb := last sb db in
        let k := prod_dims (removelast (shape a)) in
        Ok (mkTensor (removelast (shape a) ++ [(la + lb)%nat])
              (concat (zip_with (@app A) (chunks la k (values a))
                                         (chunks lb k (values b)))))
      else Err RuntimeError_cat_sizes
  end.

(** [torch.stack(ts)] along a new leading dimension. *)
Definition stack {A} (ts : list (tensor A)) : result (tensor A) :=
  match ts with
  | [] => Err RuntimeError_stack_empty
  | t :: rest =>
      if forallb (fun u => shape_eqb (shape u) (shape t)) rest
      then Ok (mkTensor (length ts :: shape t) (concat (map (@values A) ts)))
      else Err RuntimeError_stack_sizes
  end.

(** Row [i] of a tensor seen as a matrix whose rows are its last dimension. *)
Definition row {A} (t : tensor A) (i : nat) : list A :=
  match shape t with
  | [] => []
  | d :: ds => let n := last ds d in firstn n (skipn (i * n) (values t))
  end.

(** ** The data model

    Modelled from the spec: [WakeWordClipExample] and [ClassificationBatch]
    are declared in [ww4ff.data.dataset], which is not among the sources.  An
    example carries its waveform, its boolean label and metadata the
    transforms ignore; [emplaced_audio_data] returns a new example that shares
    every field but the waveform. *)

Record WakeWordClipExample : Type := mkExample {
  metadata : string;
  audio_data : tensor Q;
  contains_wake_word : bool
}.

Definition emplaced_audio_data (ex : WakeWordClipExample) (a : tensor Q)
  : WakeWordClipExample :=
  mkExample (metadata ex) a (contains_wake_word ex).

Record ClassificationBatch : Type := mkBatch {
  audio_tensor : tensor Q;
  labels_tensor : tensor Z;
  lengths_tensor : tensor Z
}.

(** The sample count of an example, [ex.audio_data.size(-1)]. *)
Definition sample_count (ex : WakeWordClipExample) : result Z :=
  size_last (audio_data ex).

(** ** [sorted(xs, key=..., reverse=True)]

    Python evaluates the key of every element first, then sorts by key.  The
    sort is stable, also with [reverse=True]: elements of equal key keep their
    input order.  It is modelled by insertion from the right, where a new
    element goes in front of the first element whose key is not larger. *)

Fixpoint insert_desc {A} (x : Z * A) (s : list (Z * A)) : list (Z * A) :=
  match s with
  | [] => [x]
  | y :: s' =>
      if (fst x <? fst y)%Z then y :: insert_desc x s' else x :: y :: s'
  end.

Fixpoint sort_desc {A} (l : list (Z * A)) : list (Z * A) :=
  match l with
  | [] => []
  | x :: l' => insert_desc x (sort_desc l')
  end.

Definition sorted_reverse {A} (key : A -> result Z) (l : list A)
  : result (list A) :=
  keys <- mapM key l ;;
  Ok (map snd (sort_desc (combine keys l))).

(** [max(xs)] of a Python iterable of integers. *)
Definition py_max (l : list Z) : result Z :=
  match l with
  | [] => Err ValueError_max_empty
  | x :: xs => Ok (fold_left Z.max xs x)
  end.

(** ** [batchify] *)

Definition pad_example (max_length : Z) (ex : WakeWordClipExample)
  : result (tensor Q) :=
  n <- size_last (audio_data ex) ;;
  z <- zeros (max_length - n) ;;
  cat_last (squeeze (audio_data ex)) z.

Definition batchify (examples : list WakeWordClipExample)
  : result ClassificationBatch :=
  examples <- sorted_reverse sample_count examples ;;
  lengths <- mapM sample_count examples ;;
  let lengths_t := tensor_of_list lengths in
  max_length <- py_max lengths ;;
  padded <- mapM (pad_example max_length) examples ;;
  audio <- stack padded ;;
  let labels_t :=
    tensor_of_list (map (fun ex => Z.b2z (contains_wake_word ex)) examples) in
  Ok (mkBatch audio labels_t lengths_t).

(** ** Slicing: [t[..., a:b]]

    Python slice bounds: a negative bound counts from the end, and both
    bounds are clamped to the dimension. *)

Definition clamp_index (n i : Z) : Z :=
  if (i <? 0)%Z then Z.max 0 (i + n) else Z.min i n.

Definition slice_list {A} (a b : Z) (l : list A) : list A :=
  let n := Z.of_nat (length l) in
  let start := clamp_index n a in
  let stop := clamp_index n b in
  firstn (Z.to_nat (stop - start)) (skipn (Z.to_nat start) l).

Definition slice_last {A} (a b : Z) (t : tensor A) : result (tensor A) :=
  match shape t with
  | [] => Err IndexError_no_dimension
  | d :: ds =>
      let n := last ds d in
      let lead := removelast (shape t) in
      let start := clamp_index (Z.of_nat n) a in
      let stop := clamp_index (Z.of_nat n) b in
      Ok (mkTensor (lead ++ [Z.to_nat (stop - start)])
            (concat (map (slice_list a b) (chunks n (prod_dims lead) (values t)))))
  end.

(** ** Randomised computations

    A computation that draws from the shared random source is modelled by its
    finite law: the list of its outcomes, each with its probability.  An
    outcome is a value or a raised exception. *)

Definition rand (A : Type) : Type := list (Q * result A).

Definition rret {A} (a : A) : rand A := [(1%Q, Ok a)].

Definition rlift {A} (r : result A) : rand A := [(1%Q, r)].

Definition rbind {A B} (m : rand A) (k : A -> rand B) : rand B :=
  flat_map (fun pr : Q * result A =>
              match snd pr with
              | Ok a => map (fun qr : Q * result B => (fst pr * fst qr, snd qr)%Q) (k a)
              | Err e => [(fst pr, Err e)]
              end) m.

(** The integers [lo, lo+1, ..., hi]. *)
Definition zrange (lo hi : Z) : list Z :=
  map (fun i => (lo + Z.of_nat i)%Z) (seq 0 (Z.to_nat (hi - lo + 1))).

(** [random.randint(lo, hi)]: every integer of [lo..hi] with the same
    probability; an empty range raises. *)
Definition randint (lo hi : Z) : rand Z :=
  if (hi <? lo)%Z then rlift (Err ValueError_empty_range)
  else map (fun a => (1 # Z.to_pos (hi - lo + 1), Ok a)) (zrange lo hi).

(** ** [random_slice] *)

Definition random_slice_step (max_window_size : Z)
    (new_examples : list WakeWordClipExample) (ex : WakeWordClipExample)
  : rand (list WakeWordClipExample) :=
  rbind (rlift (size_last (audio_data ex))) (fun n =>
  if (n <? max_window_size)%Z then rret (new_examples ++ [ex])
  else
    rbind (randint 0 (n - max_window_size)) (fun a =>
    rbind (rlift (slice_last a (a + max_window_size) (audio_data ex))) (fun sl =>
    rret (new_examples ++ [emplaced_audio_data ex sl])))).

Definition random_slice (examples : list WakeWordClipExample)
    (max_window_size : Z) : rand (list WakeWordClipExample) :=
  fold_left (fun acc ex =>
               rbind acc (fun new_examples =>
                 random_slice_step max_window_size new_examples ex))
            examples (rret []).

(** The windowing stage as the specification words it, one example at a time:
    a clip that is short enough passes through, a longer one is cut at a start
    offset drawn uniformly from [0 .. length - max_window_size]. *)
Definition window_one (max_window_size : Z) (ex : WakeWordClipExample)
  : rand WakeWordClipExample :=
  match size_last (audio_data ex) with
  | Err e => rlift (Err e)
  | Ok n =>
      if (n <=? max_window_size)%Z then rret ex
      else
        map (fun a =>
               (1 # Z.to_pos (n - max_window_size + 1),
                match slice_last a (a + max_window_size) (audio_data ex) with
                | Ok sl => Ok (emplaced_audio_data ex sl)
                | Err e => Err e
                end))
            (zrange 0 (n - max_window_size))
  end.

Fixpoint window_all (max_window_size : Z) (examples : list WakeWordClipExample)
  : rand (list WakeWordClipExample) :=
  match examples with
  | [] => rret []
  | ex :: rest =>
      rbind (window_one max_window_size ex) (fun ex' =>
      rbind (window_all max_window_size rest) (fun rest' =>
      rret (ex' :: rest')))
  end.

(** Two laws agree when they list the same outcomes in the same order with
    equal probabilities. *)
Definition law_eq {A} (m1 m2 : rand A) : Prop :=
  Forall2 (fun x y => fst x == fst y /\ snd x = snd y) m1 m2.

(** ** Float32

    A float32 is a rational [m * 2 ^ (e - 23)] with [|m| < 2 ^ 24] and
    [e >= -126].  An operation on float32 values returns the exact result
    rounded to the nearest such number, ties going to the even [m].  The
    overflow to infinity of results of magnitude [2 ^ 128] and more is
    outside the model: no value of that size arises from sample counts or
    from the element counts of the normaliser. *)

(** [floor (log2 x)] of a positive rational. *)
Definition floor_log2 (x : Q) : Z :=
  let e0 := (Z.log2 (Qnum x) - Z.log2 (Zpos (Qden x)))%Z in
  if Qle_bool (2 ^ e0) x then e0 else (e0 - 1)%Z.

(** The nearest integer, ties to even. *)
Definition round_half_even (x : Q) : Z :=
  let f := Qfloor x in
  match Qcompare (x - inject_Z f) (1 # 2) with
  | Lt => f
  | Gt => (f + 1)%Z
  | Eq => if Z.even f then f else (f + 1)%Z
  end.

(** The binary exponent of the float32 nearest to [x]: that of [x], and
    [-126] for the subnormal numbers. *)
Definition float32_exponent (x : Q) : Z :=
  Z.max (floor_log2 (Qabs x)) (-126).

Definition round_f32_canonical (x : Q) : Q :=
  if Qeq_bool x 0 then 0
  else
    let ulp := 2 ^ (float32_exponent x - 23) in
    Qred (inject_Z (round_half_even (x / ulp)) * ulp).

(** Rounding to float32.  The argument is reduced first, so that equal
    rationals have the same float32. *)
Definition round_f32 (x : Q) : Q := round_f32_canonical (Qred x).

(** The relative error of one rounding, [2 ^ -24]. *)
Definition eps32 : Q := 1 # 16777216.

(** An integer converted to float32, and the float32 sum and quotient. *)
Definition f32_of_int (z : Z) : Q := round_f32 (inject_Z z).
Definition f32_add (x y : Q) : Q := round_f32 (x + y).
Definition f32_div (x y : Q) : Q := round_f32 (x / y).

(** ** Exact arithmetic with division by zero

    The normaliser's buffers hold float32 numbers.  A finite value is a
    rational, and [None] stands for a value that is not finite (the NaN or
    infinity that a division by zero leaves behind).  A value that is not
    finite stays so through every operation of [update].  [update] below is
    the exact-arithmetic reading of the source, in which no operation
    rounds; [update_rounded] after it rounds every result. *)

Definition xnum : Type := option Q.

Definition xlift2 (f : Q -> Q -> Q) (x y : xnum) : xnum :=
  match x, y with
  | Some a, Some b => Some (f a b)
  | _, _ => None
  end.

Definition xadd : xnum -> xnum -> xnum := xlift2 Qplus.
Definition xsub : xnum -> xnum -> xnum := xlift2 Qminus.
Definition xmul : xnum -> xnum -> xnum := xlift2 Qmult.

Definition xdiv (x y : xnum) : xnum :=
  match x, y with
  | Some a, Some b => if Qeq_bool b 0 then None else Some (a / b)%Q
  | _, _ => None
  end.

(** Equality of values up to the equality of rationals. *)
Definition xeq (x y : xnum) : Prop :=
  match x, y with
  | Some a, Some b => a == b
  | None, None => True
  | _, _ => False
  end.

(** ** Elementwise tensor operations *)

(** [t.sum()] *)
Definition tsum (t : tensor Q) : Q := fold_right Qplus 0%Q (values t).

(** [t ** 2] *)
Definition tsquare (t : tensor Q) : tensor Q :=
  mkTensor (shape t) (map (fun x => x * x)%Q (values t)).

(** Broadcasting, as [torch] does it for [a * b]: shapes are aligned at their
    last dimension, a missing dimension counts as one, and a dimension of size
    one is repeated to match the other operand. *)
Fixpoint broadcast_dims_rev (r1 r2 : list nat) : option (list nat) :=
  match r1, r2 with
  | [], r | r, [] => Some r
  | d1 :: r1', d2 :: r2' =>
      match broadcast_dims_rev r1' r2' with
      | None => None
      | Some r =>
          if (d1 =? d2)%nat then Some (d1 :: r)
          else if (d1 =? 1)%nat then Some (d2 :: r)
          else if (d2 =? 1)%nat then Some (d1 :: r)
          else None
      end
  end.

Definition broadcast_shapes (s1 s2 : list nat) : option (list nat) :=
  option_map (@rev nat) (broadcast_dims_rev (rev s1) (rev s2)).

(** The values of a tensor of shape [s] expanded to shape [target], both of
    the same rank. *)
Fixpoint expand {A} (s target : list nat) (vals : list A) : list A :=
  match s, target with
  | d :: s', e :: target' =>
      let blocks := map (expand s' target') (chunks (prod_dims s') d vals) in
      if (d =? e)%nat then concat blocks
      else concat (repeat (hd [] blocks) e)
  | _, _ => vals
  end.

Definition expand_to {A} (target : list nat) (t : tensor A) : list A :=
  expand (repeat 1%nat (length target - length (shape t)) ++ shape t)
         target (values t).

(** [a * b] *)
Definition tmul (a b : tensor Q) : result (tensor Q) :=
  match broadcast_shapes (shape a) (shape b) with
  | None => Err RuntimeError_broadcast
  | Some s => Ok (mkTensor s (zip_with Qmult (expand_to s a) (expand_to s b)))
  end.

(** ** [ZmuvTransform] *)

Record ZmuvTransform : Type := mkZmuv {
  total : Q;
  mean : xnum;
  mean2 : xnum
}.

(** [__init__]: the three buffers start at zero. *)
Definition ZmuvTransform_init : ZmuvTransform :=
  mkZmuv 0 (Some 0%Q) (Some 0%Q).

(** [update], in exact arithmetic. *)
Definition update (self : ZmuvTransform) (data : tensor Q)
    (mask : option (tensor Q)) : result ZmuvTransform :=
  dm <- match mask with
        | Some m => d <- tmul data m ;; Ok (d, tsum m)
        | None => Ok (data, inject_Z (Z.of_nat (numel data)))
        end ;;
  let data := fst dm in
  let mask_size := snd dm in
  let new_mean :=
    xdiv (xadd (Some (tsum data)) (xmul (mean self) (Some (total self))))
         (Some (total self + mask_size)%Q) in
  let self1 := mkZmuv (total self) new_mean (mean2 self) in
  let new_mean2 :=
    xdiv (xadd (Some (tsum (tsquare data))) (xmul (mean2 self1) (Some (total self1))))
         (Some (total self1 + mask_size)%Q) in
  let self2 := mkZmuv (total self1) (mean self1) new_mean2 in
  Ok (mkZmuv (total self2 + mask_size)%Q (mean self2) (mean2 self2)).

(** [initialize]: one [update] per element, in order, without a mask. *)
Definition initialize (self : ZmuvTransform) (iterable : list (tensor Q))
  : result ZmuvTransform :=
  fold_left (fun acc ex => s <- acc ;; update s ex None) iterable (Ok self).

(** ** [update] under rounding

    The buffers of the source are float32 tensors, and every operation of
    [update] rounds its result.  [update_rounded] is [update] with the
    rounding [rnd] applied after every product, sum and quotient, and with
    [tensor.sum()] taken as the reduction [sum_of] of the number format,
    whose order of additions is the library's own.  A Python integer
    ([data.numel()]) is converted before it is added to a buffer.  Exact
    arithmetic is the instance without rounding; float32 is the instance
    [round_f32].  Values are finite rationals or not finite at all: a result
    too large for the number format is outside the model. *)

Section Rounded.

Variable rnd : Q -> Q.
Variable sum_of : list Q -> Q.

Definition radd : xnum -> xnum -> xnum := xlift2 (fun a b => rnd (a + b)).
Definition rmul : xnum -> xnum -> xnum := xlift2 (fun a b => rnd (a * b)).

Definition rdiv (x y : xnum) : xnum :=
  match x, y with
  | Some a, Some b => if Qeq_bool b 0 then None else Some (rnd (a / b))
  | _, _ => None
  end.

Definition update_rounded (self : ZmuvTransform) (data : tensor Q)
    (mask : option (tensor Q)) : result ZmuvTransform :=
  dm <- match mask with
        | Some m =>
            d <- tmul data m ;;
            Ok (mkTensor (shape d) (map rnd (values d)), sum_of (values m))
        | None => Ok (data, rnd (inject_Z (Z.of_nat (numel data))))
        end ;;
  let data := fst dm in
  let mask_size := snd dm in
  let new_mean :=
    rdiv (radd (Some (sum_of (values data)))
               (rmul (mean self) (Some (total self))))
         (Some (rnd (total self + mask_size))) in
  let self1 := mkZmuv (total self) new_mean (mean2 self) in
  let new_mean2 :=
    rdiv (radd (Some (sum_of (map (fun x => rnd (x * x)) (values data))))
               (rmul (mean2 self1) (Some (total self1))))
         (Some (rnd (total self1 + mask_size))) in
  let self2 := mkZmuv (total self1) (mean self1) new_mean2 in
  Ok (mkZmuv (rnd (total self2 + mask_size)) (mean self2) (mean2 self2)).

Definition initialize_rounded (self : ZmuvTransform)
    (iterable : list (tensor Q)) : result ZmuvTransform :=
  fold_left (fun acc ex => s <- acc ;; update_rounded s ex None)
            iterable (Ok self).

End Rounded.

(** The exact sum of a list, and no rounding. *)
Definition sum_exact (l : list Q) : Q := fold_right Qplus 0 l.
Definition no_rounding (q : Q) : Q := q.

(** The radicand of [std]: [mean2 - mean ** 2]. *)
Definition variance (self : ZmuvTransform) : xnum :=
  xsub (mean2 self) (xmul (mean self) (mean self)).

(** [std], for a given square root on the rationals. *)
Definition std (sqrt : Q -> Q) (self : ZmuvTransform) : xnum :=
  option_map sqrt (variance self).

(** The shape of a tensor of shape [s] combined with a buffer, which has
    shape [[1]]: broadcasting keeps [s], and turns a tensor without a
    dimension into one of shape [[1]]. *)
Definition broadcast_buffer (s : list nat) : list nat :=
  match broadcast_shapes s [1%nat] with
  | Some r => r
  | None => s
  end.

(** [forward]: [(x - mean) / std], value by value; the one-element buffers
    are broadcast to [x]. *)
Definition Zmuv_forward (sqrt : Q -> Q) (self : ZmuvTransform) (x : tensor Q)
  : tensor xnum :=
  mkTensor (broadcast_buffer (shape x))
    (map (fun v => xdiv (xsub (Some v) (mean self)) (std sqrt self)) (values x)).

(** ** [Composition] and [compose]

    A stage is a callable on an argument tuple.  It is either a plain function
    or an [nn.Module], which owns parameters. *)

Section Composer.

Variable V : Type.   (* Python values passed between stages *)
Variable P : Type.   (* parameters owned by modules *)

Inductive stage : Type :=
| PlainFunction (call : list V -> result V)
| Module (call : list V -> result V) (parameters : list P).

Definition call_stage (s : stage) (args : list V) : result V :=
  match s with
  | PlainFunction f => f args
  | Module f _ => f args
  end.

(** [isinstance(x, nn.Module)] *)
Definition is_nn_module (s : stage) : bool :=
  match s with
  | PlainFunction _ => false
  | Module _ _ => true
  end.

Definition stage_parameters (s : stage) : list P :=
  match s with
  | PlainFunction _ => []
  | Module _ ps => ps
  end.

Record Composition : Type := mkComposition {
  modules : list stage;
  _module_list : list stage
}.

Definition Composition_init (modules : list stage) : Composition :=
  mkComposition modules (filter is_nn_module modules).

(** [forward], called on an argument tuple: the loop rebinds [args] to the one-element tuple of the
    stage's result; the call returns [args[0]]. *)
Definition Composition_forward (self : Composition) (args : list V)
  : result V :=
  args <- fold_left (fun acc module =>
                       args <- acc ;;
                       args <- call_stage module args ;;
                       Ok [args])
                    (modules self) (Ok args) ;;
  match args with
  | [] => Err IndexError_tuple
  | x :: _ => Ok x
  end.

Definition compose (collate_modules : list stage) : Composition :=
  Composition_init collate_modules.

(** The parameters that [nn.Module.parameters()] finds from the composition:
    those of its registered sub-modules. *)
Definition Composition_parameters (self : Composition) : list P :=
  flat_map stage_parameters (_module_list self).

(** The pipeline as the specification words it: the first stage receives the
    initial arguments, every later stage receives the previous output as its
    sole argument, and the last output is returned. *)
Fixpoint thread (stages : list stage) (v : V) : result V :=
  match stages with
  | [] => Ok v
  | s :: rest => w <- call_stage s [v] ;; thread rest w
  end.

Definition pipeline (first : stage) (rest : list stage) (args : list V)
  : result V :=
  v <- call_stage first args ;; thread rest v.

(** A stage as it is written in a call of [compose]: the function that a
    call of the stage runs, and, for an [nn.Module], the parameters it
    owns. *)
Definition stage_spec : Type := ((list V -> result V) * option (list P))%type.

Definition as_stage (spec : stage_spec) : stage :=
  match snd spec with
  | None => PlainFunction (fst spec)
  | Some ps => Module (fst spec) ps
  end.

Definition registered (spec : stage_spec) : bool :=
  match snd spec with
  | None => false
  | Some _ => true
  end.

Definition declared_parameters (spec : stage_spec) : list P :=
  match snd spec with
  | None => []
  | Some ps => ps
  end.

(** A value passed through functions in list order, each function called
    on the one value that the function before it returned. *)
Fixpoint thread_functions (fs : list (list V -> result V)) (v : V)
  : result V :=
  match fs with
  | [] => Ok v
  | f :: rest => w <- f [v] ;; thread_functions rest w
  end.

End Composer.

(** ** [StandardAudioTransform]

    [torchaudio.transforms.MelSpectrogram] is configured at construction.  Of
    its attributes the model keeps those that decide the shape of its output:
    [win_length] defaults to [n_fft], [hop_length] to [win_length // 2], and
    the short-time Fourier transform underneath is centred unless told
    otherwise. *)

Record MelSpectrogram : Type := mkMelSpectrogram {
  sample_rate : Z;
  n_fft : Z;
  win_length : Z;
  hop_length : Z;
  pad : Z;
  n_mels : Z;
  center : bool
}.

(** The named options that [**mel_kwargs] may carry. *)
Record mel_kwargs : Type := mkMelKwargs {
  kw_n_fft : option Z;
  kw_win_length : option Z;
  kw_hop_length : option Z;
  kw_pad : option Z;
  kw_center : option bool
}.

Definition no_kwargs : mel_kwargs := mkMelKwargs None None None None None.

Definition or_default {A} (o : option A) (d : A) : A :=
  match o with
  | Some a => a
  | None => d
  end.

Definition MelSpectrogram_init (n_mels sample_rate : Z) (kw : mel_kwargs)
  : MelSpectrogram :=
  let n_fft := or_default (kw_n_fft kw) 400%Z in
  let win_length := or_default (kw_win_length kw) n_fft in
  let hop_length := or_default (kw_hop_length kw) (win_length / 2)%Z in
  mkMelSpectrogram sample_rate n_fft win_length hop_length
    (or_default (kw_pad kw) 0%Z) n_mels (or_default (kw_center kw) true).

Record StandardAudioTransform : Type := mkStandardAudioTransform {
  spec_transform : MelSpectrogram
}.

Definition StandardAudioTransform_init (sample_rate : Z) (kw : mel_kwargs)
  : StandardAudioTransform :=
  mkStandardAudioTransform (MelSpectrogram_init 80 sample_rate kw).

(** [/] between an integer tensor and a Python integer: true division in
    current [torch], where both operands are converted to float32 and the
    quotient is the float32 division of the two, as the CPU kernel computes
    it; C-style truncating integer division in the releases that preceded
    it. *)
Inductive tensor_division : Type :=
| TrueDivision
| TruncatingDivision.

(** [.long()] of a real number: the fractional part is dropped. *)
Definition Qtruncate (q : Q) : Z := Z.quot (Qnum q) (Zpos (Qden q)).

(** [compute_lengths] on one sample count (a non-zero [hop_length] is
    assumed).  Under true division the difference and the hop are converted
    to float32, divided in float32, one is added in float32, and [.long()]
    truncates; under integer division every step is exact. *)
Definition compute_length (div : tensor_division)
    (self : StandardAudioTransform) (length : Z) : Z :=
  let win := win_length (spec_transform self) in
  let hop := hop_length (spec_transform self) in
  match div with
  | TrueDivision =>
      Qtruncate (f32_add (f32_div (f32_of_int (length - win)) (f32_of_int hop)) 1)
  | TruncatingDivision =>
      (Z.quot (length - win) hop + 1)%Z
  end.

(** Sample counts on which the float32 quotient is provably the exact one:
    all of them under integer division, and those with
    [2 * (length - win_length) + 4 * hop_length < 2 ^ 24] under true
    division. *)
Definition float32_exact (div : tensor_division)
    (self : StandardAudioTransform) (length : Z) : Prop :=
  match div with
  | TrueDivision =>
      (2 * (length - win_length (spec_transform self))
       + 4 * hop_length (spec_transform self) < 16777216)%Z
  | TruncatingDivision => True
  end.

(** [compute_lengths], elementwise on the tensor of sample counts. *)
Definition compute_lengths (div : tensor_division)
    (self : StandardAudioTransform) (length : tensor Z) : tensor Z :=
  mkTensor (shape length) (map (compute_length div self) (values length)).

(** The formula of the specification: [floor((length - win_length) /
    hop_length) + 1]. *)
Definition floor_formula (self : StandardAudioTransform) (length : Z) : Z :=
  (Qfloor (inject_Z (length - win_length (spec_transform self))
           / inject_Z (hop_length (spec_transform self))) + 1)%Z.

(** The number of frames of the short-time Fourier transform of a signal of
    [n] samples: the signal is padded by [pad] zeros on both sides, a centred
    transform reflects [n_fft // 2] more samples on both sides (which the
    signal must have), and a frame starts every [hop_length] samples as long
    as [n_fft] samples remain. *)
Definition stft_frames (m : MelSpectrogram) (n : Z) : result Z :=
  let len := (n + 2 * pad m)%Z in
  let half := (n_fft m / 2)%Z in
  let padded := if center m then (len + 2 * half)%Z else len in
  if ((n_fft m <=? 0) || (hop_length m <=? 0) || (win_length m <=? 0)
      || (n_fft m <? win_length m)
      || (center m && (len <=? half))
      || (padded <? n_fft m))%Z%bool
  then Err RuntimeError_stft
  else Ok (1 + (padded - n_fft m) / hop_length m)%Z.

(** The frames of a waveform tensor, by its shape. *)
Definition stft_frames_of_shape (m : MelSpectrogram) (s : list nat) : result Z :=
  match s with
  | [] => Err IndexError_no_dimension
  | d :: ds => stft_frames m (Z.of_nat (last ds d))
  end.

(** [torch.stack(ts, 1)]: the new dimension comes second. *)
Definition stack_at_1 {A} (ts : list (tensor A)) : result (tensor A) :=
  match ts with
  | [] => Err RuntimeError_stack_empty
  | t :: rest =>
      match shape t with
      | [] => Err IndexError_dim_out_of_range
      | d0 :: s' =>
          if forallb (fun u => shape_eqb (shape u) (shape t)) rest
          then
            let block u i := nth i (chunks (prod_dims s') d0 (values u)) [] in
            Ok (mkTensor (d0 :: length ts :: s')
                  (concat (map (fun i => flat_map (fun u => block u i) ts)
                               (seq 0 d0))))
          else Err RuntimeError_stack_sizes
      end
  end.

(** Channel [c] of a tensor whose second dimension is the channel: the
    tensor [t[:, c]]. *)
Definition channel {A} (t : tensor A) (c : nat) : tensor A :=
  match shape t with
  | d0 :: nc :: s' =>
      let inner := prod_dims s' in
      mkTensor (d0 :: s')
        (flat_map (fun blk => firstn inner (skipn (c * inner) blk))
                  (chunks (nc * inner) d0 (values t)))
  | _ => t
  end.

Section SpectralExtractor.

(** The numeric kernels of the library transforms are parameters: the mel
    spectrogram of one waveform (its [n_mels] rows of frames, row-major), the
    natural logarithm, and the delta filter along one row of frames. *)
Variable mel_kernel : MelSpectrogram -> list Q -> list Q.
Variable ln : Q -> Q.
Variable delta_kernel : list Q -> list Q.

(** [MelSpectrogram.forward]: [(..., time)] to [(..., n_mels, frames)]. *)
Definition MelSpectrogram_forward (m : MelSpectrogram) (waveform : tensor Q)
  : result (tensor Q) :=
  match shape waveform with
  | [] => Err IndexError_no_dimension
  | d :: ds =>
      let n := last ds d in
      let lead := removelast (shape waveform) in
      frames <- stft_frames m (Z.of_nat n) ;;
      Ok (mkTensor (lead ++ [Z.to_nat (n_mels m); Z.to_nat frames])
            (concat (map (mel_kernel m)
                         (chunks n (prod_dims lead) (values waveform)))))
  end.

(** [ComputeDeltas.forward]: the shape is kept, every row of frames is
    filtered. *)
Definition ComputeDeltas_forward (specgram : tensor Q) : tensor Q :=
  match shape specgram with
  | [] => specgram
  | d :: ds =>
      let n := last ds d in
      mkTensor (shape specgram)
        (concat (map delta_kernel
                     (chunks n (prod_dims (removelast (shape specgram)))
                             (values specgram))))
  end.

(** [t.add_(1e-7).log_()] *)
Definition add_log (t : tensor Q) : tensor Q :=
  mkTensor (shape t) (map (fun x => ln (x + (1 # 10000000))) (values t)).

Definition forward (self : StandardAudioTransform) (audio : tensor Q)
  : result (tensor Q) :=
  mels <- MelSpectrogram_forward (spec_transform self) audio ;;
  let log_mels := add_log mels in
  let deltas := ComputeDeltas_forward log_mels in
  let accels := ComputeDeltas_forward deltas in
  stack_at_1 [log_mels; deltas; accels].

(** The number of time frames of an output of [forward]. *)
Definition time_frames (out : tensor Q) : result Z := size_last out.

End SpectralExtractor.

(** Kernels that keep every shape and compute nothing, to run the model:
    [n_mels * frames] zeros for a spectrogram, the identity elsewhere. *)
Definition shape_only_mel (m : MelSpectrogram) (w : list Q) : list Q :=
  match stft_frames m (Z.of_nat (length w)) with
  | Ok f => repeat 0%Q (Z.to_nat (n_mels m) * Z.to_nat f)
  | Err _ => []
  end.

Definition shape_only_ln (x : Q) : Q := x.

Definition shape_only_delta (r : list Q) : list Q := r.

(** ** Predicates and sample data of the properties *)

(** Pairs of a key and an element, by descending key. *)
Definition key_ge {A} (p q : Z * A) : Prop := (fst q <= fst p)%Z.

(** The pair has key [k]. *)
Definition key_is {A} (k : Z) (p : Z * A) : bool := (fst p =? k)%Z.

(** The element has key [k]. *)
Definition has_key {A} (key : A -> result Z) (k : Z) (x : A) : bool :=
  match key x with
  | Ok m => (m =? k)%Z
  | Err _ => false
  end.

(** The pair holds an element with its key. *)
Definition keyed {A} (key : A -> result Z) (p : Z * A) : Prop :=
  key (snd p) = Ok (fst p).

(** A waveform of [n] samples: a tensor of shape [[n]] or [[1, n]]. *)
Definition waveform (n : nat) (t : tensor Q) : Prop :=
  (shape t = [n] \/ shape t = [1%nat; n]) /\ length (values t) = n.

(** The data model's example: a waveform of at least one sample. *)
Definition data_model (ex : WakeWordClipExample) : Prop :=
  exists n, (1 <= n)%nat /\ waveform n (audio_data ex).

(** An example whose waveform [squeeze] flattens to one dimension: it has at
    least two samples. *)
Definition flattens (ex : WakeWordClipExample) : Prop :=
  exists n, (2 <= n)%nat /\ waveform n (audio_data ex).

(** The padded row of a flattened clip. *)
Definition padded_row (m : Z) (ex : WakeWordClipExample) : tensor Q :=
  mkTensor [Z.to_nat m]
    (values (audio_data ex)
     ++ repeat 0%Q (Z.to_nat m - length (values (audio_data ex)))).

(** Sample clips and the batch of three of them. *)
Definition clip_one : WakeWordClipExample :=
  mkExample "one" (mkTensor [1%nat] [1 # 2]) true.

Definition clip_two : WakeWordClipExample :=
  mkExample "two" (mkTensor [2%nat] [1 # 2; 1 # 3]) false.

Definition clip_three : WakeWordClipExample :=
  mkExample "three" (mkTensor [1%nat; 3%nat] [1; 2; 3]) false.

Definition clip_three_b : WakeWordClipExample :=
  mkExample "three_b" (mkTensor [3%nat] [4; 5; 6]) true.

Definition clip_five : WakeWordClipExample :=
  mkExample "five" (mkTensor [1%nat; 5%nat] [7; 8; 9; 10; 11]) false.

Definition batch_of_three : ClassificationBatch :=
  mkBatch
    (mkTensor [3%nat; 5%nat]
       [7; 8; 9; 10; 11;  1; 2; 3; 0; 0;  4; 5; 6; 0; 0])
    (mkTensor [3%nat] [0; 0; 1]%Z)
    (mkTensor [3%nat] [5; 3; 3]%Z).

(** The batch [b] holds the examples [exs] by descending sample count, clips
    of equal sample count in their input order: the sorted sequence [s] is a
    permutation of the input, its sample counts [lens] descend, for every
    sample count the clips of that count are those of the input in the same
    order, and the three tensors of the batch list the lengths, the labels
    and the padded waveforms of [s] in this order. *)
Definition ordered_batch (exs : list WakeWordClipExample)
    (b : ClassificationBatch) : Prop :=
  exists (s : list WakeWordClipExample) (lens : list Z) (m : Z)
         (padded : list (tensor Q)),
    Permutation exs s
    /\ mapM sample_count s = Ok lens
    /\ StronglySorted (fun a c => (c <= a)%Z) lens
    /\ (forall k, filter (has_key sample_count k) s
                  = filter (has_key sample_count k) exs)
    /\ lengths_tensor b = tensor_of_list lens
    /\ labels_tensor b
       = tensor_of_list (map (fun ex => Z.b2z (contains_wake_word ex)) s)
    /\ py_max lens = Ok m
    /\ mapM (pad_example m) s = Ok padded
    /\ stack padded = Ok (audio_tensor b).

(** [torch.cat((a, b), 0)]: the chunks are joined along their first
    dimension; in row-major order the values of the second follow those of
    the first. *)
Definition cat_first {A} (a b : tensor A) : result (tensor A) :=
  match shape a, shape b with
  | [], _ | _, [] => Err RuntimeError_cat_zero_dim
  | da :: sa, db :: sb =>
      if shape_eqb (shape a) [0%nat] then Ok b
      else if shape_eqb (shape b) [0%nat] then Ok a
      else if shape_eqb sa sb
      then Ok (mkTensor ((da + db)%nat :: sa) (values a ++ values b))
      else Err RuntimeError_cat_sizes
  end.

(** Two states of the normaliser hold the same numbers. *)
Definition same_moments (s t : ZmuvTransform) : Prop :=
  total s == total t /\ xeq (mean s) (mean t) /\ xeq (mean2 s) (mean2 t).

(** The moments are finite numbers. *)
Definition finite_moments (s : ZmuvTransform) : Prop :=
  exists mu mu2, mean s = Some mu /\ mean2 s = Some mu2.

(** Sample chunks of a dataset, and a masked row. *)
Definition chunk_a : tensor Q := mkTensor [2%nat] [1; 2].
Definition chunk_b : tensor Q := mkTensor [1%nat] [6].
Definition chunk_ab : tensor Q := mkTensor [3%nat] [1; 2; 6].
Definition chunk_empty : tensor Q := mkTensor [0%nat] [].

Definition data_row : tensor Q := mkTensor [3%nat] [1; 2; 3].
Definition mask_row : tensor Q := mkTensor [3%nat] [1; 1; 0].

(** The transform with every option at its default: [n_fft = 400],
    [win_length = 400], [hop_length = 200], centred. *)
Definition default_transform : StandardAudioTransform :=
  StandardAudioTransform_init 16000 no_kwargs.

(** The same with an uncentred spectrogram. *)
Definition uncentred_transform : StandardAudioTransform :=
  StandardAudioTransform_init 16000
    (mkMelKwargs None None None None (Some false)).

(** Silent waveforms of 400 samples, batched and unbatched, and the shape
    of the spectrograms of the batch. *)
Definition two_waveforms : tensor Q := mkTensor [2%nat; 400%nat] (repeat 0 800).

Definition one_waveform : tensor Q := mkTensor [400%nat] (repeat 0 400).

(** One second of silence at 16 kHz, unbatched and as a batch of one. *)
Definition one_second : tensor Q :=
  mkTensor [Z.to_nat 16000] (repeat 0 (Z.to_nat 16000)).

Definition one_second_batch : tensor Q :=
  mkTensor [1%nat; Z.to_nat 16000] (repeat 0 (Z.to_nat 16000)).

Definition two_spectrograms : tensor Q :=
  mkTensor [2%nat; 80%nat; 3%nat] (repeat 0 480).

(** The outcomes of [m], each weighted by [p]. *)
Definition scale {B} (p : Q) (m : rand B) : rand B :=
  map (fun qr : Q * result B => (p * fst qr, snd qr)) m.

(** [ex'] is the clip [ex] after windowing to [w] samples: label and
    metadata are kept; a clip of at most [w] samples is unchanged; a longer
    clip holds the [w] consecutive samples that start at some offset [a] of
    [0 .. n - w]. *)
Definition windowed (w : Z) (ex ex' : WakeWordClipExample) : Prop :=
  metadata ex' = metadata ex
  /\ contains_wake_word ex' = contains_wake_word ex
  /\ exists n,
       sample_count ex = Ok n
       /\ ((n <= w)%Z -> ex' = ex)
       /\ ((w < n)%Z ->
           exists a,
             (0 <= a <= n - w)%Z
             /\ slice_last a (a + w) (audio_data ex) = Ok (audio_data ex')
             /\ sample_count ex' = Ok w
             /\ (forall k, waveform k (audio_data ex) ->
                   waveform (Z.to_nat w) (audio_data ex')
                   /\ values (audio_data ex')
                      = firstn (Z.to_nat w)
                          (skipn (Z.to_nat a) (values (audio_data ex))))).

(** ** The remaining stages: [identity], [IdentityTransform], a composition
    used as a stage *)

(** A call with a wrong number of arguments raises [TypeError]; it is
    recorded as a stage error. *)
Definition TypeError_arguments : error := StageError 0.

(** [identity(x)], and [IdentityTransform.forward(x)]: one argument, returned
    as it is. *)
Definition identity {V} (args : list V) : result V :=
  match args with
  | [x] => Ok x
  | _ => Err TypeError_arguments
  end.

(** The function [identity] as a stage. *)
Definition identity_stage (V P : Type) : stage V P :=
  @PlainFunction V P identity.

(** An [IdentityTransform()] as a stage: a module without parameters. *)
Definition IdentityTransform (V P : Type) : stage V P :=
  @Module V P identity [].

(** A [Composition] is an [nn.Module] itself: called, it runs [forward], and
    its parameters are those of its registered sub-modules. *)
Definition Composition_stage {V P} (c : Composition V P) : stage V P :=
  @Module V P (Composition_forward c) (Composition_parameters c).

(** ** Sample stages *)

Definition stage_double : stage Z nat :=
  @PlainFunction Z nat
    (fun args => match args with
                 | [x] => Ok (2 * x)%Z
                 | _ => Err TypeError_arguments
                 end).

Definition double (args : list Z) : result Z :=
  match args with
  | [x] => Ok (2 * x)%Z
  | _ => Err TypeError_arguments
  end.

Definition increment (args : list Z) : result Z :=
  match args with
  | [x] => Ok (x + 1)%Z
  | _ => Err TypeError_arguments
  end.

Definition stage_failing : stage Z nat :=
  @PlainFunction Z nat (fun _ => Err (StageError 7)).

(** ** Sums over the data seen by the normaliser *)

Definition sum_list (l : list Q) : Q := fold_right Qplus 0 l.

Definition squares (l : list Q) : list Q := map (fun x => x * x) l.

(** The values of all the chunks, in order. *)
Definition all_values (chunks : list (tensor Q)) : list Q :=
  flat_map (@values Q) chunks.

(** The number of values of a list, as the normaliser counts them. *)
Definition count_of (l : list Q) : Q := inject_Z (Z.of_nat (length l)).

(** The sum of [numel] over the chunks. *)
Definition total_count (chunks : list (tensor Q)) : Q :=
  fold_right (fun c acc => inject_Z (Z.of_nat (numel c)) + acc) 0 chunks.



(** A square root on the rationals to run [std] with: the root of the reduced
    fraction [n / d], taken as [floor (sqrt (n * d)) / d]. *)
Definition sqrt_floor (q : Q) : Q :=
  Z.sqrt (Qnum (Qred q) * Zpos (Qden (Qred q))) # Qden (Qred q).

(** The moments a stream of chunks should leave: a chunk is usable when it
    is well formed and not empty. *)
Definition usable_chunk (c : tensor Q) : Prop :=
  well_formed c /\ numel c <> 0%nat.

(** A state of the normaliser with mean 2 and variance 1. *)
Definition sample_state : ZmuvTransform := mkZmuv 2 (Some 2) (Some 5).


(** Four samples of the same value. *)
Definition constant_row : tensor Q := mkTensor [4%nat] [3; 3; 3; 3].

(** A clip whose waveform has no dimension, as a scalar tensor has. *)
Definition clip_scalar : WakeWordClipExample :=
  mkExample "scalar" (mkTensor [] [1]) true.

(** The sample count of an example, or zero when it has none. *)
Definition count_or_zero (ex : WakeWordClipExample) : Z :=
  match sample_count ex with
  | Ok n => n
  | Err _ => 0%Z
  end.

(** The total probability of a law. *)
Definition mass {A} (m : rand A) : Q := sum_list (map fst m).

(** Every outcome of the law has a positive probability. *)
Definition positive_law {A} (m : rand A) : Prop :=
  Forall (fun pr => 0 < fst pr) m.

(** * Properties *)

(** ** The pipeline composer *)

Section ComposerFacts.

Variable V : Type.
Variable P : Type.

(** The loop of [forward], started on a failure, stays failed. *)
Lemma forward_loop_err (stages : list (stage V P)) (e : error) :
  fold_left (fun acc module =>
               args <- acc ;; args <- call_stage module args ;; Ok [args])
            stages (Err e) = Err e.
Proof.
  induction stages as [|s stages IH]; simpl; auto.
Qed.

(** After one stage the loop carries a one-element tuple, and the rest of the
    loop threads its element through the remaining stages. *)
Lemma forward_loop_thread (stages : list (stage V P)) (v : V) :
  fold_left (fun acc module =>
               args <- acc ;; args <- call_stage module args ;; Ok [args])
            stages (Ok [v])
  = (w <- thread stages v ;; Ok [w]).
Proof.
  revert v; induction stages as [|s stages IH]; intros v; simpl.
  - reflexivity.
  - destruct (call_stage s [v]) as [w|e]; simpl.
    + apply IH.
    + apply forward_loop_err.
Qed.

Lemma thread_app (xs ys : list (stage V P)) (v : V) :
  thread (xs ++ ys) v = (w <- thread xs v ;; thread ys w).
Proof.
  revert v; induction xs as [|s xs IH]; intros v; simpl; auto.
  destruct (call_stage s [v]); simpl; auto.
Qed.

Lemma flat_map_filter_modules (stages : list (stage V P)) :
  flat_map (@stage_parameters V P) (filter (@is_nn_module V P) stages)
  = flat_map (@stage_parameters V P) stages.
Proof.
  induction stages as [|s stages IH]; simpl; auto.
  destruct s as [f|f ps]; simpl; [assumption | now rewrite IH].
Qed.

Lemma call_as_stage (spec : stage_spec V P) (args : list V) :
  call_stage (as_stage spec) args = fst spec args.
Proof. destruct spec as [f [ps|]]; reflexivity. Qed.

Lemma thread_as_stages (specs : list (stage_spec V P)) (v : V) :
  thread (map (@as_stage V P) specs) v = thread_functions (map fst specs) v.
Proof.
  revert v. induction specs as [|spec specs IH]; intros v; [reflexivity|].
  cbn [map thread thread_functions]. rewrite call_as_stage.
  destruct (fst spec [v]) as [w|e]; [apply IH | reflexivity].
Qed.

Lemma filter_as_stage (specs : list (stage_spec V P)) :
  filter (@is_nn_module V P) (map (@as_stage V P) specs)
  = map (@as_stage V P) (filter (@registered V P) specs).
Proof.
  induction specs as [|[f [ps|]] specs IH]; cbn; [reflexivity | |exact IH].
  now rewrite IH.
Qed.

Lemma stage_is_as_stage (s : stage V P) :
  exists spec, s = as_stage spec.
Proof.
  destruct s as [f|f ps].
  - now exists (f, None).
  - now exists (f, Some ps).
Qed.

(** C8. The callable made by [compose] runs the stages in list order.  For
    stages written with the functions [f1, ..., fk] that their calls run, a
    call on [args] returns [fk([... f2([f1(args)]) ...])]: the first
    function gets the initial arguments, each later function gets the
    result of the function before it as its sole argument, the result of
    the last function is returned, and the first exception ends the call
    (after a prefix of the stages, the last function is called on the one
    value the prefix produced).  With no stage at all the call returns its
    first argument.  The registered sub-modules are the stages given as
    [nn.Module]s, and only those, in list order, so the parameters found
    from the composition are those that the modules own.  Every stage is
    written in one of the two ways. *)
Theorem compose_threads_stages :
  (forall (first : stage_spec V P) (rest : list (stage_spec V P))
          (args : list V),
      Composition_forward (compose (map (@as_stage V P) (first :: rest))) args
      = (v <- fst first args ;; thread_functions (map fst rest) v))
  /\ (forall (first : stage_spec V P) (front : list (stage_spec V P))
             (last : stage_spec V P) (args : list V),
      Composition_forward
        (compose (map (@as_stage V P) (first :: front ++ [last]))) args
      = (v <- Composition_forward
                (compose (map (@as_stage V P) (first :: front))) args ;;
         fst last [v]))
  /\ (forall args : list V,
      Composition_forward (compose (@nil (stage V P))) args
      = match args with [] => Err IndexError_tuple | x :: _ => Ok x end)
  /\ (forall specs : list (stage_spec V P),
      modules (compose (map (@as_stage V P) specs))
      = map (@as_stage V P) specs
      /\ _module_list (compose (map (@as_stage V P) specs))
         = map (@as_stage V P) (filter (@registered V P) specs)
      /\ (forall f ps, In (@Module V P f ps)
                          (_module_list (compose (map (@as_stage V P) specs)))
                       <-> In (f, Some ps) specs)
      /\ (forall f, ~ In (@PlainFunction V P f)
                         (_module_list (compose (map (@as_stage V P) specs))))
      /\ Composition_parameters (compose (map (@as_stage V P) specs))
         = flat_map (@declared_parameters V P) specs)
  /\ (forall stages : list (stage V P),
      exists specs, stages = map (@as_stage V P) specs).
Proof.
  assert (Hhead : forall (first : stage V P) rest args,
             Composition_forward (compose (first :: rest)) args
             = pipeline first rest args).
  { intros first rest args.
    unfold Composition_forward, compose, Composition_init, pipeline; simpl.
    destruct (call_stage first args) as [v|e]; simpl.
    - rewrite forward_loop_thread.
      destruct (thread rest v); reflexivity.
    - now rewrite forward_loop_err. }
  assert (Hfun : forall (first : stage_spec V P) rest args,
             Composition_forward
               (compose (map (@as_stage V P) (first :: rest))) args
             = (v <- fst first args ;; thread_functions (map fst rest) v)).
  { intros first rest args. cbn [map]. rewrite Hhead. unfold pipeline.
    rewrite call_as_stage.
    destruct (fst first args) as [v|e]; [|reflexivity].
    apply thread_as_stages. }
  assert (Hthread : forall (fs gs : list (list V -> result V)) (v : V),
             thread_functions (fs ++ gs) v
             = (w <- thread_functions fs v ;; thread_functions gs w)).
  { induction fs as [|f fs IH]; intros gs v; [reflexivity|].
    cbn [app thread_functions].
    destruct (f [v]) as [w|e]; [apply IH | reflexivity]. }
  split; [exact Hfun|].
  split.
  { intros first front last args. rewrite !Hfun.
    destruct (fst first args) as [v|e]; [|reflexivity]. cbn [bind].
    rewrite map_app, Hthread.
    assert (Hlast : forall r : result V,
               (w <- r ;; thread_functions (map fst [last]) w)
               = (w <- r ;; fst last [w])).
    { intros [w|e]; [|reflexivity]. cbn [bind map thread_functions].
      destruct (fst last [w]); reflexivity. }
    apply Hlast. }
  split.
  { intros args. reflexivity. }
  split.
  { intros specs.
    assert (Hlist : _module_list (compose (map (@as_stage V P) specs))
                    = map (@as_stage V P) (filter (@registered V P) specs))
      by apply filter_as_stage.
    split; [reflexivity|]. split; [exact Hlist|].
    split; [|split].
    - intros f ps. rewrite Hlist, in_map_iff. split.
      + intros [[g [qs|]] [Heq Hin]]; [|discriminate].
        apply filter_In in Hin. destruct Hin as [Hin _].
        unfold as_stage in Heq. cbn in Heq. injection Heq as <- <-.
        exact Hin.
      + intros Hin. exists (f, Some ps). split; [reflexivity|].
        apply filter_In. split; [exact Hin | reflexivity].
    - intros f. rewrite Hlist, in_map_iff.
      intros [[g [qs|]] [Heq Hin]]; [discriminate|].
      apply filter_In in Hin. destruct Hin as [_ Hreg]. discriminate.
    - unfold Composition_parameters, compose, Composition_init; simpl.
      rewrite flat_map_filter_modules. clear Hlist.
      induction specs as [|[f [ps|]] specs IH]; cbn; [reflexivity | |exact IH].
      now rewrite IH. }
  intros stages. induction stages as [|s stages [specs ->]].
  - now exists [].
  - destruct (stage_is_as_stage s) as [spec ->]. now exists (spec :: specs).
Qed.

End ComposerFacts.

Lemma compose_threads_stages_witness :
  Composition_forward
    (compose (map (@as_stage Z nat)
                  [(double, None); (increment, Some [5%nat])])) [3%Z]
  = Ok 7%Z
  /\ Composition_forward
       (compose (map (@as_stage Z nat)
                     [(increment, Some [5%nat]); (double, None)])) [3%Z]
     = Ok 8%Z
  /\ Composition_forward
       (compose (map (@as_stage Z nat)
                     [(double, None); (increment, None)])) [3%Z; 4%Z]
     = Err TypeError_arguments
  /\ Composition_parameters
       (compose (map (@as_stage Z nat)
                     [(double, None); (increment, Some [5%nat])]))
     = [5%nat].
Proof.
  split; [|split; [|split]].
  - exact (eq_trans
             (proj1 (compose_threads_stages Z nat)
                (double, None) [(increment, Some [5%nat])] [3%Z])
             eq_refl).
  - exact (eq_trans
             (proj1 (compose_threads_stages Z nat)
                (increment, Some [5%nat]) [(double, None)] [3%Z])
             eq_refl).
  - exact (eq_trans
             (proj1 (compose_threads_stages Z nat)
                (double, None) [(increment, None)] [3%Z; 4%Z])
             eq_refl).
  - exact (eq_trans
             (proj2 (proj2 (proj2 (proj2
                (proj1 (proj2 (proj2 (proj2 (compose_threads_stages Z nat))))
                   [(double, None); (increment, Some [5%nat])])))))
             eq_refl).
Defined.

(** ** Failing comprehensions *)

Lemma mapM_Ok_Forall2 {A B} (f : A -> result B) (l : list A) (ys : list B) :
  mapM f l = Ok ys <-> Forall2 (fun x y => f x = Ok y) l ys.
Proof.
  revert ys; induction l as [|x l IH]; intros ys; simpl.
  - split; intros H.
    + injection H as <-. constructor.
    + inversion H. reflexivity.
  - split; intros H.
    + destruct (f x) as [y|e] eqn:Hx; simpl in H; [|discriminate].
      destruct (mapM f l) as [zs|e] eqn:Hl; simpl in H; [|discriminate].
      injection H as <-. constructor; [assumption|]. now apply IH.
    + inversion H as [|x' y l' zs Hx Hl]; subst.
      rewrite Hx; simpl. apply IH in Hl. now rewrite Hl.
Qed.

Lemma mapM_length {A B} (f : A -> result B) (l : list A) (ys : list B) :
  mapM f l = Ok ys -> length ys = length l.
Proof.
  intros H. apply mapM_Ok_Forall2 in H.
  symmetry. eapply Forall2_length; eassumption.
Qed.

Lemma mapM_Err_In {A B} (f : A -> result B) (l : list A) (e : error) :
  mapM f l = Err e -> exists x, In x l /\ f x = Err e.
Proof.
  induction l as [|x l IH]; simpl; [discriminate|].
  destruct (f x) as [y|e'] eqn:Hx; simpl.
  - destruct (mapM f l) as [ys|e'']; simpl; [discriminate|].
    intros H; injection H as ->.
    destruct IH as [z [Hz Hfz]]; [reflexivity|]. exists z; auto.
  - intros H; injection H as ->. exists x; auto.
Qed.

Lemma mapM_all_Ok {A B} (f : A -> result B) (g : A -> B) (l : list A) :
  Forall (fun x => f x = Ok (g x)) l -> mapM f l = Ok (map g l).
Proof.
  induction 1 as [|x l Hx _ IH]; simpl; [reflexivity|].
  now rewrite Hx, IH.
Qed.

(** When every element either succeeds or fails with [e], and one of them
    fails, the comprehension fails with [e]. *)
Lemma mapM_one_Err {A B} (f : A -> result B) (l : list A) (e : error) :
  Forall (fun x => (exists y, f x = Ok y) \/ f x = Err e) l ->
  Exists (fun x => f x = Err e) l ->
  mapM f l = Err e.
Proof.
  induction 1 as [|x l Hx Hl IH]; intros Hex.
  - inversion Hex.
  - simpl. destruct Hx as [[y Hy]|Hx].
    + rewrite Hy; simpl.
      inversion Hex as [? ? Hbad|? ? Hrest]; subst.
      * congruence.
      * now rewrite (IH Hrest).
    + now rewrite Hx.
Qed.

(** ** The stable descending sort *)

Section SortFacts.

Variable A : Type.

Lemma insert_desc_perm (x : Z * A) (s : list (Z * A)) :
  Permutation (x :: s) (insert_desc x s).
Proof.
  induction s as [|y s IH]; simpl; [apply Permutation_refl|].
  destruct (fst x <? fst y)%Z.
  - eapply perm_trans; [apply perm_swap|]. now apply perm_skip.
  - apply Permutation_refl.
Qed.

Lemma sort_desc_perm (l : list (Z * A)) : Permutation l (sort_desc l).
Proof.
  induction l as [|x l IH]; simpl; [constructor|].
  eapply perm_trans; [apply perm_skip, IH | apply insert_desc_perm].
Qed.

Lemma insert_desc_sorted (x : Z * A) (s : list (Z * A)) :
  StronglySorted key_ge s -> StronglySorted key_ge (insert_desc x s).
Proof.
  induction 1 as [|y s Hs IH Hy]; simpl.
  - constructor; constructor.
  - destruct (fst x <? fst y)%Z eqn:Hxy.
    + constructor; [assumption|].
      apply Z.ltb_lt in Hxy.
      eapply Permutation_Forall; [apply insert_desc_perm|].
      constructor; [unfold key_ge; lia | assumption].
    + apply Z.ltb_ge in Hxy.
      constructor; [constructor; assumption|].
      constructor; [exact Hxy|].
      eapply Forall_impl; [|exact Hy].
      intros z Hz; unfold key_ge in *; lia.
Qed.

Lemma sort_desc_sorted (l : list (Z * A)) : StronglySorted key_ge (sort_desc l).
Proof.
  induction l as [|x l IH]; simpl; [constructor|].
  now apply insert_desc_sorted.
Qed.

(** Stability: among the elements of any one key, insertion puts the new
    element first and leaves the others in place. *)
Lemma insert_desc_stable (k : Z) (x : Z * A) (s : list (Z * A)) :
  filter (key_is k) (insert_desc x s) = filter (key_is k) (x :: s).
Proof.
  induction s as [|y s IH]; [reflexivity|].
  simpl insert_desc.
  destruct (fst x <? fst y)%Z eqn:Hxy; [|reflexivity].
  apply Z.ltb_lt in Hxy.
  simpl filter in *. rewrite IH.
  unfold key_is.
  destruct (fst y =? k)%Z eqn:Hy, (fst x =? k)%Z eqn:Hx; try reflexivity.
  apply Z.eqb_eq in Hy, Hx. lia.
Qed.

Lemma sort_desc_stable (k : Z) (l : list (Z * A)) :
  filter (key_is k) (sort_desc l) = filter (key_is k) l.
Proof.
  induction l as [|x l IH]; [reflexivity|].
  simpl sort_desc. rewrite insert_desc_stable. simpl. now rewrite IH.
Qed.

End SortFacts.

(** ** [sorted(..., key=..., reverse=True)] on elements with a partial key *)

Section SortedReverse.

Variable A : Type.
Variable key : A -> result Z.

Lemma combine_keyed (l : list A) (ks : list Z) :
  Forall2 (fun x k => key x = Ok k) l ks ->
  Forall (keyed key) (combine ks l) /\ map snd (combine ks l) = l.
Proof.
  induction 1 as [|x k l ks Hx _ [IH1 IH2]]; simpl.
  - split; constructor.
  - split; [constructor; assumption | now rewrite IH2].
Qed.

Lemma keyed_mapM (ps : list (Z * A)) :
  Forall (keyed key) ps -> mapM key (map snd ps) = Ok (map fst ps).
Proof.
  induction 1 as [|p ps Hp _ IH]; simpl; [reflexivity|].
  unfold keyed in Hp. now rewrite Hp, IH.
Qed.

Lemma keyed_filter (k : Z) (ps : list (Z * A)) :
  Forall (keyed key) ps ->
  filter (has_key key k) (map snd ps) = map snd (filter (key_is k) ps).
Proof.
  induction 1 as [|p ps Hp _ IH]; simpl; [reflexivity|].
  unfold has_key at 1, key_is at 1. unfold keyed in Hp. rewrite Hp.
  destruct (fst p =? k)%Z; simpl; now rewrite IH.
Qed.

Lemma sorted_keys (ps : list (Z * A)) :
  StronglySorted (@key_ge A) ps ->
  StronglySorted (fun a b => (b <= a)%Z) (map fst ps).
Proof.
  induction 1 as [|p ps _ IH Hp]; simpl; constructor; [assumption|].
  rewrite Forall_map. exact Hp.
Qed.

(** What [sorted] returns: a permutation of its input, by descending key,
    where the elements of any one key stand in their input order. *)
Lemma sorted_reverse_spec (l s : list A) :
  sorted_reverse key l = Ok s ->
  Permutation l s
  /\ (exists ks, mapM key s = Ok ks
                 /\ StronglySorted (fun a b => (b <= a)%Z) ks)
  /\ (forall k, filter (has_key key k) s = filter (has_key key k) l).
Proof.
  unfold sorted_reverse.
  destruct (mapM key l) as [ks|e] eqn:Hks; simpl; [|discriminate].
  intros H; injection H as <-.
  apply mapM_Ok_Forall2 in Hks.
  destruct (combine_keyed Hks) as [Hkeyed Hsnd].
  assert (Hsorted : Forall (keyed key) (sort_desc (combine ks l))).
  { eapply Permutation_Forall; [apply sort_desc_perm | exact Hkeyed]. }
  split.
  - rewrite <- Hsnd at 1. apply Permutation_map, sort_desc_perm.
  - split.
    + exists (map fst (sort_desc (combine ks l))). split.
      * now apply keyed_mapM.
      * apply sorted_keys, sort_desc_sorted.
    + intros k. rewrite (keyed_filter k Hsorted), sort_desc_stable.
      rewrite <- (keyed_filter k Hkeyed). now rewrite Hsnd.
Qed.

(** [sorted] returns whenever every key can be computed. *)
Lemma sorted_reverse_total (l : list A) (ks : list Z) :
  mapM key l = Ok ks -> exists s, sorted_reverse key l = Ok s.
Proof.
  intros H. unfold sorted_reverse. rewrite H. simpl. eauto.
Qed.

Lemma sorted_reverse_Err (l : list A) (e : error) :
  sorted_reverse key l = Err e -> exists x, In x l /\ key x = Err e.
Proof.
  unfold sorted_reverse.
  destruct (mapM key l) as [ks|e'] eqn:Hks; simpl; [discriminate|].
  intros H; injection H as ->. now apply mapM_Err_In.
Qed.

End SortedReverse.

(** ** Which exceptions the tensor operations raise *)

Lemma size_last_Err {A} (t : tensor A) (e : error) :
  size_last t = Err e -> e = IndexError_no_dimension.
Proof.
  unfold size_last. destruct (shape t); [|discriminate].
  intros H; now injection H.
Qed.

Lemma zeros_Err (n : Z) (e : error) :
  zeros n = Err e -> e = RuntimeError_zeros_negative.
Proof.
  unfold zeros. destruct (n <? 0)%Z; [|discriminate].
  intros H; now injection H.
Qed.

Lemma cat_last_Err {A} (a b : tensor A) (e : error) :
  cat_last a b = Err e ->
  e = RuntimeError_cat_zero_dim \/ e = RuntimeError_cat_sizes.
Proof.
  unfold cat_last.
  destruct (shape a) as [|da sa]; [intros H; injection H; auto|].
  destruct (shape b) as [|db sb]; [intros H; injection H; auto|].
  destruct (shape_eqb (da :: sa) [0%nat]); [discriminate|].
  destruct (shape_eqb (db :: sb) [0%nat]); [discriminate|].
  destruct (shape_eqb _ _); [discriminate|].
  intros H; injection H; auto.
Qed.

Lemma stack_Err {A} (ts : list (tensor A)) (e : error) :
  stack ts = Err e ->
  e = RuntimeError_stack_empty \/ e = RuntimeError_stack_sizes.
Proof.
  unfold stack. destruct ts as [|t rest]; [intros H; injection H; auto|].
  destruct (forallb _ _); [discriminate|].
  intros H; injection H; auto.
Qed.

Lemma pad_example_Err (m : Z) (ex : WakeWordClipExample) (e : error) :
  pad_example m ex = Err e ->
  e = IndexError_no_dimension \/ e = RuntimeError_zeros_negative
  \/ e = RuntimeError_cat_zero_dim \/ e = RuntimeError_cat_sizes.
Proof.
  unfold pad_example.
  destruct (size_last (audio_data ex)) as [n|e1] eqn:Hn; simpl.
  - destruct (zeros (m - n)) as [z|e2] eqn:Hz; simpl.
    + intros H. apply cat_last_Err in H. tauto.
    + intros H; injection H as ->. apply zeros_Err in Hz. tauto.
  - intros H; injection H as ->. apply size_last_Err in Hn. tauto.
Qed.

(** ** [max] *)

Lemma fold_max_ge (xs : list Z) (x : Z) :
  (x <= fold_left Z.max xs x)%Z
  /\ Forall (fun y => (y <= fold_left Z.max xs x)%Z) xs.
Proof.
  revert x; induction xs as [|y xs IH]; intros x; simpl.
  - split; [lia | constructor].
  - destruct (IH (Z.max x y)) as [H1 H2].
    split; [lia|]. constructor; [lia | assumption].
Qed.

Lemma fold_max_In (xs : list Z) (x : Z) : In (fold_left Z.max xs x) (x :: xs).
Proof.
  revert x; induction xs as [|y xs IH]; intros x; simpl; [auto|].
  destruct (IH (Z.max x y)) as [H|H].
  - rewrite <- H.
    destruct (Z.max_spec x y) as [[_ Hm]|[_ Hm]]; rewrite Hm; auto.
  - auto.
Qed.

(** [max] returns the largest element of a non-empty list, which is one of
    its elements. *)
Lemma py_max_spec (l : list Z) (m : Z) :
  py_max l = Ok m -> Forall (fun y => (y <= m)%Z) l /\ In m l.
Proof.
  destruct l as [|x xs]; simpl; [discriminate|].
  intros H; injection H as <-.
  destruct (fold_max_ge xs x) as [H1 H2].
  split; [constructor; assumption | apply fold_max_In].
Qed.

Lemma py_max_total (l : list Z) : l <> [] -> exists m, py_max l = Ok m.
Proof.
  destruct l as [|x xs]; [congruence|]. simpl; eauto.
Qed.

(** ** The steps of [batchify] *)

Lemma batchify_Ok_inv (exs : list WakeWordClipExample) (b : ClassificationBatch) :
  batchify exs = Ok b ->
  exists s lens m padded,
    sorted_reverse sample_count exs = Ok s
    /\ mapM sample_count s = Ok lens
    /\ py_max lens = Ok m
    /\ mapM (pad_example m) s = Ok padded
    /\ stack padded = Ok (audio_tensor b)
    /\ labels_tensor b
       = tensor_of_list (map (fun ex => Z.b2z (contains_wake_word ex)) s)
    /\ lengths_tensor b = tensor_of_list lens.
Proof.
  unfold batchify.
  destruct (sorted_reverse sample_count exs) as [s|e] eqn:Hs; simpl; [|discriminate].
  destruct (mapM sample_count s) as [lens|e] eqn:Hl; simpl; [|discriminate].
  destruct (py_max lens) as [m|e] eqn:Hm; simpl; [|discriminate].
  destruct (mapM (pad_example m) s) as [padded|e] eqn:Hp; simpl; [|discriminate].
  destruct (stack padded) as [audio|e] eqn:Ha; simpl; [|discriminate].
  intros H; injection H as <-. simpl.
  exists s, lens, m, padded. repeat split; assumption.
Qed.

Lemma batchify_steps (exs s : list WakeWordClipExample) (lens : list Z)
    (m : Z) (padded : list (tensor Q)) (audio : tensor Q) :
  sorted_reverse sample_count exs = Ok s ->
  mapM sample_count s = Ok lens ->
  py_max lens = Ok m ->
  mapM (pad_example m) s = Ok padded ->
  stack padded = Ok audio ->
  batchify exs
  = Ok (mkBatch audio
          (tensor_of_list (map (fun ex => Z.b2z (contains_wake_word ex)) s))
          (tensor_of_list lens)).
Proof.
  intros Hs Hl Hm Hp Ha. unfold batchify.
  rewrite Hs; simpl. rewrite Hl; simpl. rewrite Hm; simpl.
  rewrite Hp; simpl. now rewrite Ha.
Qed.

(** C9. [batchify] of an empty sequence raises the [ValueError] of [max] on
    an empty sequence; on a non-empty sequence it never raises that error. *)
Theorem batchify_empty_fails :
  batchify [] = Err ValueError_max_empty
  /\ forall (ex : WakeWordClipExample) (exs : list WakeWordClipExample),
       batchify (ex :: exs) <> Err ValueError_max_empty.
Proof.
  split; [reflexivity|].
  intros ex exs. unfold batchify.
  destruct (sorted_reverse sample_count (ex :: exs)) as [s|e] eqn:Hs; simpl.
  2:{ apply sorted_reverse_Err in Hs. destruct Hs as [x [_ Hx]].
      apply size_last_Err in Hx. congruence. }
  destruct (mapM sample_count s) as [lens|e] eqn:Hl; simpl.
  2:{ apply mapM_Err_In in Hl. destruct Hl as [x [_ Hx]].
      apply size_last_Err in Hx. congruence. }
  assert (Hne : lens <> []).
  { apply sorted_reverse_spec in Hs. destruct Hs as [Hperm _].
    apply Permutation_length in Hperm. apply mapM_length in Hl.
    destruct lens; simpl in *; [lia | discriminate]. }
  destruct (py_max_total Hne) as [m Hm]. rewrite Hm; simpl.
  destruct (mapM (pad_example m) s) as [padded|e] eqn:Hp; simpl.
  2:{ apply mapM_Err_In in Hp. destruct Hp as [x [_ Hx]].
      apply pad_example_Err in Hx.
      destruct Hx as [->|[->|[->| ->]]]; discriminate. }
  destruct (stack padded) as [audio|e] eqn:Ha; simpl; [discriminate|].
  apply stack_Err in Ha. destruct Ha as [->| ->]; discriminate.
Qed.

(** ** Waveforms of the data model *)

Lemma shape_eqb_eq (s1 s2 : list nat) : shape_eqb s1 s2 = true <-> s1 = s2.
Proof.
  unfold shape_eqb. destruct (list_eq_dec Nat.eq_dec s1 s2); split; congruence.
Qed.

Lemma shape_eqb_refl (s : list nat) : shape_eqb s s = true.
Proof. now apply shape_eqb_eq. Qed.

Lemma shape_eqb_neq (s1 s2 : list nat) : s1 <> s2 -> shape_eqb s1 s2 = false.
Proof.
  intros H. destruct (shape_eqb s1 s2) eqn:E; [|reflexivity].
  apply shape_eqb_eq in E. contradiction.
Qed.

Lemma waveform_count (n : nat) (ex : WakeWordClipExample) :
  waveform n (audio_data ex) -> sample_count ex = Ok (Z.of_nat n).
Proof.
  intros [[H|H] _]; unfold sample_count, size_last; now rewrite H.
Qed.

Lemma waveform_squeeze (n : nat) (t : tensor Q) :
  waveform n t -> n <> 1%nat -> squeeze t = mkTensor [n] (values t).
Proof.
  intros [Hs _] Hn. unfold squeeze.
  apply Nat.eqb_neq in Hn.
  destruct Hs as [-> | ->]; simpl; now rewrite Hn.
Qed.

Lemma waveform_squeeze_single (t : tensor Q) :
  waveform 1 t -> shape (squeeze t) = [].
Proof.
  intros [[H|H] _]; unfold squeeze; rewrite H; reflexivity.
Qed.

Lemma zeros_Ok (n : Z) :
  (0 <= n)%Z -> zeros n = Ok (mkTensor [Z.to_nat n] (repeat 0%Q (Z.to_nat n))).
Proof.
  intros H. unfold zeros. destruct (Z.ltb_spec n 0); [lia | reflexivity].
Qed.

(** A clip of one sample cannot be padded: its squeezed waveform has no
    dimension left, and [torch.cat] refuses it. *)
Lemma pad_example_single (m : Z) (ex : WakeWordClipExample) :
  waveform 1 (audio_data ex) -> (1 <= m)%Z ->
  pad_example m ex = Err RuntimeError_cat_zero_dim.
Proof.
  intros Hw Hm. unfold pad_example.
  rewrite (waveform_count ex Hw : size_last (audio_data ex) = _).
  unfold bind at 1. rewrite zeros_Ok by lia.
  unfold bind, cat_last. now rewrite (waveform_squeeze_single Hw).
Qed.

(** A clip of two samples or more is flattened and padded with zeros up to
    the common length. *)
Lemma pad_example_flat (m : Z) (n : nat) (ex : WakeWordClipExample) :
  waveform n (audio_data ex) -> (2 <= n)%nat -> (Z.of_nat n <= m)%Z ->
  pad_example m ex
  = Ok (mkTensor [Z.to_nat m]
          (values (audio_data ex) ++ repeat 0%Q (Z.to_nat m - n))).
Proof.
  intros Hw Hn Hm. unfold pad_example.
  rewrite (waveform_count ex Hw : size_last (audio_data ex) = _).
  unfold bind at 1. rewrite zeros_Ok by lia.
  unfold bind. rewrite (waveform_squeeze Hw) by lia.
  replace (Z.to_nat (m - Z.of_nat n)) with (Z.to_nat m - n)%nat by lia.
  destruct Hw as [_ Hlen].
  remember (Z.to_nat m - n)%nat as k eqn:Hk.
  unfold cat_last; simpl shape.
  rewrite (shape_eqb_neq (s1 := [n]) (s2 := [0%nat])) by (intros H; injection H; lia).
  destruct (shape_eqb [k] [0%nat]) eqn:Hk0.
  - apply shape_eqb_eq in Hk0. injection Hk0 as ->.
    simpl. rewrite app_nil_r. f_equal. f_equal. f_equal. lia.
  - simpl. rewrite app_nil_r. f_equal. f_equal.
    + f_equal. lia.
    + rewrite <- Hlen at 1. rewrite firstn_all.
      f_equal. rewrite <- (repeat_length 0%Q k) at 1. apply firstn_all.
Qed.

(** ** Stacking rows *)

Lemma stack_rows {A} (m : nat) (ts : list (tensor A)) :
  ts <> [] -> Forall (fun t => shape t = [m]) ts ->
  stack ts = Ok (mkTensor [length ts; m] (concat (map (@values A) ts))).
Proof.
  intros Hne Hall. destruct ts as [|t rest]; [congruence|].
  unfold stack. inversion Hall as [|? ? Ht Hrest]; subst.
  replace (forallb (fun u => shape_eqb (shape u) (shape t)) rest) with true.
  - now rewrite Ht.
  - symmetry. apply forallb_forall. intros u Hu.
    rewrite Forall_forall in Hrest. rewrite (Hrest u Hu), Ht.
    apply shape_eqb_refl.
Qed.

Lemma row_of_concat {A} (m : nat) (rows : list (list A)) (i : nat) (r : list A) :
  Forall (fun r => length r = m) rows ->
  nth_error rows i = Some r ->
  firstn m (skipn (i * m) (concat rows)) = r.
Proof.
  intros Hall. revert i.
  induction Hall as [|r0 rows Hr0 _ IH]; intros i Hi.
  - destruct i; discriminate.
  - destruct i as [|i]; simpl in *.
    + injection Hi as <-. rewrite <- Hr0.
      rewrite firstn_app, firstn_all, Nat.sub_diag. simpl. apply app_nil_r.
    + rewrite skipn_app.
      rewrite (skipn_all2 (n := (m + i * m)%nat) r0) by lia.
      rewrite Hr0. replace (m + i * m - m)%nat with (i * m)%nat by lia.
      simpl. now apply IH.
Qed.

(** ** [batchify] on the data model *)

Lemma data_model_count (ex : WakeWordClipExample) :
  data_model ex ->
  exists n, (1 <= n)%nat /\ waveform n (audio_data ex)
            /\ sample_count ex = Ok (Z.of_nat n).
Proof.
  intros [n [Hn Hw]]. exists n. repeat split; try assumption; try apply Hw.
  now apply waveform_count.
Qed.

Lemma counts_total (exs : list WakeWordClipExample) :
  Forall data_model exs -> exists lens, mapM sample_count exs = Ok lens.
Proof.
  induction 1 as [|ex exs Hex _ [lens IH]]; simpl.
  - eauto.
  - destruct (data_model_count Hex) as [n [_ [_ Hc]]].
    rewrite Hc, IH. simpl. eauto.
Qed.

(** The first steps of [batchify] succeed on a non-empty batch of the data
    model: the sort, the lengths and their maximum. *)
Lemma batchify_prefix (exs : list WakeWordClipExample) :
  exs <> [] -> Forall data_model exs ->
  exists s lens m,
    sorted_reverse sample_count exs = Ok s
    /\ Permutation exs s
    /\ Forall2 (fun ex k => sample_count ex = Ok k) s lens
    /\ py_max lens = Ok m
    /\ Forall (fun k => (k <= m)%Z) lens.
Proof.
  intros Hne Hall.
  destruct (counts_total Hall) as [ks Hks].
  destruct (sorted_reverse_total _ _ Hks) as [s Hs].
  destruct (sorted_reverse_spec _ _ Hs) as [Hperm _].
  assert (Hall' : Forall data_model s)
    by (eapply Permutation_Forall; eassumption).
  destruct (counts_total Hall') as [lens Hlens].
  assert (Hlne : lens <> []).
  { apply Permutation_length in Hperm. apply mapM_length in Hlens.
    destruct lens; [|discriminate]. destruct exs; [congruence|].
    simpl in *. lia. }
  destruct (py_max_total Hlne) as [m Hm].
  exists s, lens, m. repeat split; try assumption.
  - now apply mapM_Ok_Forall2.
  - now apply py_max_spec.
Qed.

Lemma Forall2_nth_error_left {A B} (R : A -> B -> Prop) (l : list A)
    (l' : list B) :
  Forall2 R l l' ->
  forall i x, nth_error l i = Some x ->
  exists y, nth_error l' i = Some y /\ R x y.
Proof.
  induction 1 as [|a b l l' Hab _ IH]; intros i x Hi.
  - destruct i; discriminate.
  - destruct i as [|i]; simpl in *.
    + injection Hi as <-. eauto.
    + now apply IH.
Qed.

Lemma Forall2_bound (s : list WakeWordClipExample) (lens : list Z) (m : Z) :
  Forall2 (fun ex k => sample_count ex = Ok k) s lens ->
  Forall (fun k => (k <= m)%Z) lens ->
  Forall (fun ex => forall k, sample_count ex = Ok k -> (k <= m)%Z) s.
Proof.
  induction 1 as [|ex k s lens Hk _ IH]; intros Hb; constructor.
  - inversion Hb; subst. intros k' Hk'. congruence.
  - apply IH. now inversion Hb.
Qed.

(** C10. On a batch of the data model (every waveform of shape [[n]] or
    [[1, n]] with [n >= 1]) that holds a clip of exactly one sample,
    [batchify] raises instead of returning a batch: [squeeze] leaves that
    clip without a dimension and [torch.cat] refuses it.  Such batches exist
    with a maximum above one, such as a clip of three samples beside a clip
    of one. *)
Theorem batchify_single_sample_fails (exs : list WakeWordClipExample) :
  Forall data_model exs ->
  Exists (fun ex => sample_count ex = Ok 1%Z) exs ->
  batchify exs = Err RuntimeError_cat_zero_dim.
Proof.
  intros Hall Hone.
  assert (Hne : exs <> []) by (intros ->; inversion Hone).
  destruct (batchify_prefix Hne Hall) as [s [lens [m [Hs [Hperm [Hl [Hm Hb]]]]]]].
  assert (Hbound := Forall2_bound Hl Hb).
  assert (Hall' : Forall data_model s)
    by (eapply Permutation_Forall; eassumption).
  unfold batchify. rewrite Hs; simpl.
  apply mapM_Ok_Forall2 in Hl. rewrite Hl; simpl. rewrite Hm; simpl.
  rewrite (@mapM_one_Err _ _ (pad_example m) s RuntimeError_cat_zero_dim);
    [reflexivity | |].
  - rewrite Forall_forall in *. intros ex Hin.
    destruct (data_model_count (Hall' ex Hin)) as [n [Hn [Hw Hc]]].
    specialize (Hbound ex Hin _ Hc).
    destruct (Nat.eq_dec n 1) as [->|Hn1].
    + right. apply pad_example_single; [assumption | simpl in Hbound; lia].
    + left. eexists. apply (@pad_example_flat m n); [assumption | lia | lia].
  - apply Exists_exists in Hone. destruct Hone as [ex [Hin Hc]].
    apply Exists_exists. exists ex. split.
    + eapply Permutation_in; eassumption.
    + rewrite Forall_forall in Hall', Hbound.
      destruct (data_model_count (Hall' ex (Permutation_in _ Hperm Hin)))
        as [n [Hn [Hw Hc']]].
      assert (n = 1%nat) by (rewrite Hc in Hc'; injection Hc'; lia). subst n.
      apply pad_example_single; [assumption|].
      apply (Hbound ex (Permutation_in _ Hperm Hin) _ Hc).
Qed.

(** On a non-empty batch whose clips all have two samples or more,
    [batchify] returns a batch: one row per clip, as long as the longest
    clip, each row the flattened waveform followed by zeros, and every length
    at most the row length. *)
Lemma batchify_pads (exs : list WakeWordClipExample) :
  exs <> [] -> Forall flattens exs ->
  exists b s lens m,
    batchify exs = Ok b
    /\ sorted_reverse sample_count exs = Ok s
    /\ mapM sample_count s = Ok lens
    /\ py_max lens = Ok m
    /\ shape (audio_tensor b) = [length exs; Z.to_nat m]
    /\ lengths_tensor b = tensor_of_list lens
    /\ (forall i ex, nth_error s i = Some ex ->
          row (audio_tensor b) i
          = values (audio_data ex)
            ++ repeat 0%Q (Z.to_nat m - length (values (audio_data ex)))
          /\ nth_error lens i
             = Some (Z.of_nat (length (values (audio_data ex))))
          /\ (Z.of_nat (length (values (audio_data ex))) <= m)%Z).
Proof.
  intros Hne Hflat.
  assert (Hall : Forall data_model exs).
  { eapply Forall_impl; [|exact Hflat].
    intros ex [n [Hn Hw]]. exists n. split; [lia | assumption]. }
  destruct (batchify_prefix Hne Hall) as [s [lens [m [Hs [Hperm [Hl [Hm Hb]]]]]]].
  assert (Hbound := Forall2_bound Hl Hb).
  assert (Hflat' : Forall flattens s)
    by (eapply Permutation_Forall; eassumption).
  assert (Hpad : mapM (pad_example m) s = Ok (map (padded_row m) s)).
  { apply mapM_all_Ok. rewrite Forall_forall in *. intros ex Hin.
    destruct (Hflat' ex Hin) as [n [Hn Hw]].
    unfold padded_row. rewrite (proj2 Hw).
    apply pad_example_flat; [assumption | assumption |].
    apply (Hbound ex Hin). now apply waveform_count. }
  assert (Hsne : s <> []).
  { apply Permutation_length in Hperm. destruct s; [|discriminate].
    destruct exs; [congruence | discriminate]. }
  assert (Hstack := @stack_rows Q (Z.to_nat m) (map (padded_row m) s)).
  rewrite length_map in Hstack.
  specialize (Hstack ltac:(destruct s; [congruence | discriminate])
                     ltac:(rewrite Forall_map; apply Forall_forall; reflexivity)).
  assert (Hl' := Hl). apply mapM_Ok_Forall2 in Hl'.
  eexists. exists s, lens, m.
  split; [eapply batchify_steps; eassumption|].
  split; [assumption|]. split; [assumption|]. split; [assumption|].
  simpl. split; [now rewrite (Permutation_length Hperm)|].
  split; [reflexivity|].
  intros i ex Hi.
  assert (Hin : In ex s) by (eapply nth_error_In; eassumption).
  rewrite Forall_forall in Hflat', Hbound.
  destruct (Hflat' ex Hin) as [k [Hk Hw]].
  rewrite (proj2 Hw).
  assert (Hc := waveform_count ex Hw).
  assert (Hkm := Hbound ex Hin _ Hc).
  split; [|split].
  - unfold row; simpl.
    apply row_of_concat.
    + rewrite !Forall_map. apply Forall_forall. intros x Hx.
      destruct (Hflat' x Hx) as [j [Hj Hwj]].
      assert (Hcj := waveform_count x Hwj).
      assert (Hjm := Hbound x Hx _ Hcj).
      unfold padded_row; simpl.
      rewrite length_app, repeat_length, (proj2 Hwj). lia.
    + rewrite !nth_error_map, Hi. simpl. now rewrite (proj2 Hw).
  - destruct (Forall2_nth_error_left Hl i Hi) as [z [Hz1 Hz2]].
    rewrite Hz1. congruence.
  - exact Hkm.
Qed.

Lemma batchify_single_sample_fails_witness :
  Forall data_model [clip_three; clip_one]
  /\ Exists (fun ex => sample_count ex = Ok 1%Z) [clip_three; clip_one]
  /\ batchify [clip_three; clip_one] = Err RuntimeError_cat_zero_dim.
Proof.
  assert (H3 : data_model clip_three).
  { exists 3%nat. split; [lia|]. split; [right; reflexivity | reflexivity]. }
  assert (H1 : data_model clip_one).
  { exists 1%nat. split; [lia|]. split; [left; reflexivity | reflexivity]. }
  assert (Hall : Forall data_model [clip_three; clip_one])
    by (repeat constructor; assumption).
  assert (Hone : Exists (fun ex => sample_count ex = Ok 1%Z)
                        [clip_three; clip_one])
    by (right; left; reflexivity).
  split; [exact Hall|]. split; [exact Hone|].
  exact (batchify_single_sample_fails Hall Hone).
Defined.

(** C5. For a non-empty input, the batch that [batchify] returns lists the
    examples by descending sample count, and examples of equal sample count
    keep their input order; [batchify] is a function of its input sequence,
    so the batch is determined by it.  It does return a batch when every clip
    flattens to one dimension. *)
Theorem batchify_sorted_stable (exs : list WakeWordClipExample) :
  exs <> [] ->
  (Forall flattens exs -> exists b, batchify exs = Ok b)
  /\ (forall b, batchify exs = Ok b -> ordered_batch exs b).
Proof.
  intros Hne. split.
  - intros Hflat.
    destruct (batchify_pads Hne Hflat) as [b [_ [_ [_ [Hb _]]]]]. eauto.
  - intros b Hb.
    destruct (batchify_Ok_inv _ Hb)
      as [s [lens [m [padded [Hs [Hl [Hm [Hp [Ha [Hlab Hlen]]]]]]]]]].
    destruct (sorted_reverse_spec _ _ Hs) as [Hperm [[ks [Hks Hsorted]] Hstable]].
    assert (ks = lens) by congruence. subst ks.
    exists s, lens, m, padded. repeat split; assumption.
Qed.

Lemma batchify_sorted_stable_witness :
  [clip_three; clip_five; clip_three_b] <> []
  /\ batchify [clip_three; clip_five; clip_three_b] = Ok batch_of_three
  /\ ordered_batch [clip_three; clip_five; clip_three_b] batch_of_three.
Proof.
  assert (Hne : [clip_three; clip_five; clip_three_b] <> []) by discriminate.
  split; [exact Hne|]. split; [reflexivity|].
  exact (proj2 (batchify_sorted_stable Hne) batch_of_three eq_refl).
Defined.

(** On a non-empty batch whose clips all have two samples or more,
    [batchify] returns a batch with one row per clip, as long as the longest
    clip; row [i] is the flattened waveform of the [i]-th clip of the sorted
    sequence followed by zeros, and its recorded length is at most the row
    length.  The sorted sequence is the input by descending sample count,
    clips of equal sample count in their input order. *)
Theorem batchify_flat_clips (exs : list WakeWordClipExample) :
  exs <> [] -> Forall flattens exs ->
  exists b s lens m,
    batchify exs = Ok b
    /\ Permutation exs s
    /\ mapM sample_count s = Ok lens
    /\ StronglySorted (fun a c => (c <= a)%Z) lens
    /\ (forall k, filter (has_key sample_count k) s
                  = filter (has_key sample_count k) exs)
    /\ py_max lens = Ok m
    /\ shape (audio_tensor b) = [length exs; Z.to_nat m]
    /\ values (lengths_tensor b) = lens
    /\ (forall i ex, nth_error s i = Some ex ->
          row (audio_tensor b) i
          = values (audio_data ex)
            ++ repeat 0%Q (Z.to_nat m - length (values (audio_data ex)))
          /\ nth_error lens i
             = Some (Z.of_nat (length (values (audio_data ex))))
          /\ (Z.of_nat (length (values (audio_data ex))) <= m)%Z).
Proof.
  intros Hne Hflat.
  destruct (batchify_pads Hne Hflat)
    as [b [s [lens [m [Hb [Hs [Hl [Hm [Hshape [Hlen Hrows]]]]]]]]]].
  destruct (sorted_reverse_spec _ _ Hs) as [Hperm [[ks [Hks Hsorted]] Hstable]].
  assert (ks = lens) by congruence. subst ks.
  exists b, s, lens, m.
  split; [exact Hb|]. split; [exact Hperm|]. split; [exact Hl|].
  split; [exact Hsorted|]. split; [exact Hstable|].
  split; [exact Hm|]. split; [exact Hshape|].
  split; [now rewrite Hlen | exact Hrows].
Qed.

Lemma batchify_flat_clips_witness :
  [clip_three; clip_five; clip_three_b] <> []
  /\ Forall flattens [clip_three; clip_five; clip_three_b]
  /\ batchify [clip_three; clip_five; clip_three_b] = Ok batch_of_three
  /\ exists s lens m,
       Permutation [clip_three; clip_five; clip_three_b] s
       /\ mapM sample_count s = Ok lens
       /\ StronglySorted (fun a c => (c <= a)%Z) lens
       /\ (forall k, filter (has_key sample_count k) s
                     = filter (has_key sample_count k)
                         [clip_three; clip_five; clip_three_b])
       /\ py_max lens = Ok m
       /\ shape (audio_tensor batch_of_three) = [3%nat; Z.to_nat m]
       /\ values (lengths_tensor batch_of_three) = lens.
Proof.
  assert (Hne : [clip_three; clip_five; clip_three_b] <> []) by discriminate.
  assert (Hflat : Forall flattens [clip_three; clip_five; clip_three_b]).
  { repeat constructor.
    - exists 3%nat. split; [lia|]. split; [right; reflexivity | reflexivity].
    - exists 5%nat. split; [lia|]. split; [right; reflexivity | reflexivity].
    - exists 3%nat. split; [lia|]. split; [left; reflexivity | reflexivity]. }
  split; [exact Hne|]. split; [exact Hflat|]. split; [reflexivity|].
  destruct (batchify_flat_clips Hne Hflat)
    as [b [s [lens [m [H1 [H2 [H3 [H4 [H5 [H6 [H7 [H8 _]]]]]]]]]]]].
  assert (Hb : b = batch_of_three)
    by (assert (E : batchify [clip_three; clip_five; clip_three_b]
                    = Ok batch_of_three) by reflexivity;
        rewrite E in H1; now injection H1).
  subst b. exists s, lens, m.
  exact (conj H2 (conj H3 (conj H4 (conj H5 (conj H6 (conj H7 H8)))))).
Defined.

(** C2, at a batch of the data model: a clip of one sample beside a clip of
    two.  [batchify] raises where the claim promises a padded batch. *)
Lemma batchify_one_sample_clip_raises :
  data_model clip_one /\ data_model clip_two
  /\ batchify [clip_one; clip_two] = Err RuntimeError_cat_zero_dim.
Proof.
  split; [|split].
  - exists 1%nat. split; [lia|]. split; [left; reflexivity | reflexivity].
  - exists 2%nat. split; [lia|]. split; [left; reflexivity | reflexivity].
  - reflexivity.
Qed.

(** ** Rows and blocks of values *)

Lemma chunks_length {A} (n k : nat) (l : list A) : length (chunks n k l) = k.
Proof.
  revert l; induction k as [|k IH]; intros l; simpl; [reflexivity|].
  now rewrite IH.
Qed.

Lemma chunks_Forall_length {A} (n k : nat) (l : list A) :
  (k * n <= length l)%nat -> Forall (fun c => length c = n) (chunks n k l).
Proof.
  revert l; induction k as [|k IH]; intros l Hl; simpl; constructor.
  - rewrite length_firstn. simpl in Hl. lia.
  - apply IH. rewrite length_skipn. simpl in Hl. lia.
Qed.

Lemma concat_chunks {A} (n k : nat) (l : list A) :
  length l = (k * n)%nat -> concat (chunks n k l) = l.
Proof.
  revert l; induction k as [|k IH]; intros l Hl; simpl.
  - destruct l; [reflexivity | discriminate].
  - rewrite IH.
    + apply firstn_skipn.
    + rewrite length_skipn. simpl in Hl. lia.
Qed.

Lemma chunks_concat {A} (n : nat) (ls : list (list A)) :
  Forall (fun c => length c = n) ls ->
  chunks n (length ls) (concat ls) = ls.
Proof.
  induction 1 as [|c ls Hc _ IH]; simpl; [reflexivity|].
  subst n.
  rewrite firstn_app, skipn_app, firstn_all, skipn_all, Nat.sub_diag.
  simpl. rewrite app_nil_r. now rewrite IH.
Qed.

Lemma map_id_on {A} (f : A -> A) (l : list A) :
  Forall (fun x => f x = x) l -> map f l = l.
Proof.
  induction 1 as [|x l Hx _ IH]; simpl; [reflexivity|]. now rewrite Hx, IH.
Qed.

(** ** Broadcasting a shape against itself *)

Lemma broadcast_dims_rev_same (r : list nat) : broadcast_dims_rev r r = Some r.
Proof.
  induction r as [|d r IH]; simpl; [reflexivity|].
  now rewrite IH, Nat.eqb_refl.
Qed.

Lemma broadcast_shapes_same (s : list nat) : broadcast_shapes s s = Some s.
Proof.
  unfold broadcast_shapes. rewrite broadcast_dims_rev_same. simpl.
  now rewrite rev_involutive.
Qed.

Lemma expand_same {A} (s : list nat) (vals : list A) :
  length vals = prod_dims s -> expand s s vals = vals.
Proof.
  revert vals; induction s as [|d s IH]; intros vals Hlen; simpl.
  - reflexivity.
  - rewrite Nat.eqb_refl. simpl in Hlen.
    rewrite map_id_on.
    + now apply concat_chunks.
    + eapply Forall_impl; [|apply chunks_Forall_length; lia].
      intros c Hc. now apply IH.
Qed.

Lemma expand_to_same {A} (t : tensor A) :
  well_formed t -> expand_to (shape t) t = values t.
Proof.
  intros Hwf. unfold expand_to. rewrite Nat.sub_diag. simpl.
  now apply expand_same.
Qed.

(** On operands of one shape the product is taken value by value. *)
Lemma tmul_same_shape (a b : tensor Q) :
  well_formed a -> well_formed b -> shape a = shape b ->
  tmul a b = Ok (mkTensor (shape a) (zip_with Qmult (values a) (values b))).
Proof.
  intros Ha Hb Hs. unfold tmul. rewrite <- Hs, broadcast_shapes_same.
  rewrite expand_to_same by assumption.
  rewrite Hs at 2. now rewrite expand_to_same.
Qed.

(** ** The streaming normaliser *)

(** One merge step of [update] in exact arithmetic: the formula when the
    old moment is finite and the new total is not zero, and a value that is
    not finite otherwise. *)
Lemma merge_formula (s t n : Q) (m : xnum) :
  let r := xdiv (xadd (Some s) (xmul m (Some t))) (Some (t + n)) in
  (forall a, m = Some a -> ~ t + n == 0 -> r = Some ((s + a * t) / (t + n)))
  /\ (t + n == 0 -> r = None)
  /\ (m = None -> r = None).
Proof.
  cbv zeta. split; [|split].
  - intros a -> Hnz. cbn. destruct (Qeq_bool (t + n) 0) eqn:E; [|reflexivity].
    apply Qeq_bool_iff in E. contradiction.
  - intros Hz. destruct m as [a|]; cbn; [|reflexivity].
    apply Qeq_bool_iff in Hz. now rewrite Hz.
  - intros ->. reflexivity.
Qed.

(** Exact arithmetic is [update_rounded] without rounding. *)
Lemma update_rounded_exact (self : ZmuvTransform) (data : tensor Q)
    (mask : option (tensor Q)) :
  update_rounded no_rounding sum_exact self data mask = update self data mask.
Proof.
  unfold update_rounded, update. destruct mask as [m|].
  - destruct (tmul data m) as [d|e]; [|reflexivity].
    cbn [bind fst snd values shape]. unfold tsum, tsquare, sum_exact.
    cbn [values]. fold no_rounding. unfold no_rounding at 1 3.
    rewrite !map_id. reflexivity.
  - reflexivity.
Qed.

(** C1, as amended.  In exact arithmetic [update] merges a batch into the
    running moments.  Without a mask the batch is [data] and
    [n = data.numel()]; with a mask the batch is the product [data * mask]
    and [n = mask.sum()].  In both cases [new_total = total + n], and, read
    on the state before the call,
    [new_mean = (sum(batch) + mean * total) / (total + n)] and
    [new_mean2 = (sum(batch ** 2) + mean2 * total) / (total + n)] whenever
    the old moment is finite and [total + n] is not zero; a moment that was
    not finite, or a zero [total + n], leaves a moment that is not finite.
    The product is taken value by value when data and mask have one shape,
    and a call whose product cannot be formed raises and leaves no new
    state.  The buffers of the source are float32: there the same steps run
    with every result rounded ([update_rounded], of which exact arithmetic
    is the instance without rounding), and the new total is the rounded
    sum. *)
Theorem update_rule :
  (forall (self : ZmuvTransform) (data : tensor Q),
      let n := inject_Z (Z.of_nat (numel data)) in
      exists self',
        update self data None = Ok self'
        /\ total self' = total self + n
        /\ (forall m, mean self = Some m -> ~ total self + n == 0 ->
              mean self'
              = Some ((tsum data + m * total self) / (total self + n)))
        /\ (forall m2, mean2 self = Some m2 -> ~ total self + n == 0 ->
              mean2 self'
              = Some ((tsum (tsquare data) + m2 * total self)
                      / (total self + n)))
        /\ (total self + n == 0 -> mean self' = None /\ mean2 self' = None)
        /\ (mean self = None -> mean self' = None)
        /\ (mean2 self = None -> mean2 self' = None))
  /\ (forall (self : ZmuvTransform) (data mask masked : tensor Q),
      tmul data mask = Ok masked ->
      let n := tsum mask in
      exists self',
        update self data (Some mask) = Ok self'
        /\ total self' = total self + n
        /\ (forall m, mean self = Some m -> ~ total self + n == 0 ->
              mean self'
              = Some ((tsum masked + m * total self) / (total self + n)))
        /\ (forall m2, mean2 self = Some m2 -> ~ total self + n == 0 ->
              mean2 self'
              = Some ((tsum (tsquare masked) + m2 * total self)
                      / (total self + n)))
        /\ (total self + n == 0 -> mean self' = None /\ mean2 self' = None)
        /\ (mean self = None -> mean self' = None)
        /\ (mean2 self = None -> mean2 self' = None))
  /\ (forall data mask : tensor Q,
      well_formed data -> well_formed mask -> shape data = shape mask ->
      tmul data mask
      = Ok (mkTensor (shape data) (zip_with Qmult (values data) (values mask))))
  /\ (forall (self : ZmuvTransform) (data mask : tensor Q) (e : error),
      tmul data mask = Err e -> update self data (Some mask) = Err e)
  /\ (forall (self : ZmuvTransform) (data : tensor Q)
             (mask : option (tensor Q)),
      update_rounded no_rounding sum_exact self data mask
      = update self data mask)
  /\ (forall (rnd : Q -> Q) (sum_of : list Q -> Q) (self : ZmuvTransform)
             (data : tensor Q),
      exists self',
        update_rounded rnd sum_of self data None = Ok self'
        /\ total self'
           = rnd (total self + rnd (inject_Z (Z.of_nat (numel data))))).
Proof.
  assert (Hstep : forall (self : ZmuvTransform) (batch : tensor Q) (n : Q),
             let self' :=
               mkZmuv (total self + n)
                 (xdiv (xadd (Some (tsum batch))
                             (xmul (mean self) (Some (total self))))
                       (Some (total self + n)))
                 (xdiv (xadd (Some (tsum (tsquare batch)))
                             (xmul (mean2 self) (Some (total self))))
                       (Some (total self + n))) in
             total self' = total self + n
             /\ (forall m, mean self = Some m -> ~ total self + n == 0 ->
                   mean self'
                   = Some ((tsum batch + m * total self) / (total self + n)))
             /\ (forall m2, mean2 self = Some m2 -> ~ total self + n == 0 ->
                   mean2 self'
                   = Some ((tsum (tsquare batch) + m2 * total self)
                           / (total self + n)))
             /\ (total self + n == 0 ->
                 mean self' = None /\ mean2 self' = None)
             /\ (mean self = None -> mean self' = None)
             /\ (mean2 self = None -> mean2 self' = None)).
  { intros self batch n. cbv zeta. cbn [total mean mean2].
    destruct (merge_formula (tsum batch) (total self) n (mean self))
      as [M1 [M2 M3]].
    destruct (merge_formula (tsum (tsquare batch)) (total self) n (mean2 self))
      as [S1 [S2 S3]].
    split; [reflexivity|]. split; [exact M1|]. split; [exact S1|].
    split; [intros Hz; split; [exact (M2 Hz) | exact (S2 Hz)]|].
    split; [exact M3 | exact S3]. }
  split; [|split; [|split; [|split; [|split]]]].
  - intros self data n. eexists. split; [reflexivity|].
    exact (Hstep self data n).
  - intros self data mask masked Hmul n. unfold update. rewrite Hmul.
    eexists. split; [reflexivity|].
    exact (Hstep self masked n).
  - intros data mask. apply tmul_same_shape.
  - intros self data mask e Hmul. unfold update. now rewrite Hmul.
  - exact update_rounded_exact.
  - intros rnd sum_of self data. eexists. split; reflexivity.
Qed.

Lemma update_rule_witness :
  tmul data_row mask_row = Ok (mkTensor [3%nat] [1; 2; 0])
  /\ mean sample_state = Some 2 /\ mean2 sample_state = Some 5
  /\ ~ total sample_state + tsum mask_row == 0
  /\ exists self',
       update sample_state data_row (Some mask_row) = Ok self'
       /\ total self' == 4
       /\ xeq (mean self') (Some (7 # 4))
       /\ xeq (mean2 self') (Some (15 # 4)).
Proof.
  assert (Hmul : tmul data_row mask_row = Ok (mkTensor [3%nat] [1; 2; 0]))
    by reflexivity.
  assert (Hnz : ~ total sample_state + tsum mask_row == 0) by discriminate.
  split; [exact Hmul|]. split; [reflexivity|]. split; [reflexivity|].
  split; [exact Hnz|].
  destruct (proj1 (proj2 update_rule) sample_state data_row mask_row
              (mkTensor [3%nat] [1; 2; 0]) Hmul)
    as [self' [Hu [Ht [Hm [Hm2 _]]]]].
  exists self'. split; [exact Hu|].
  rewrite Ht, (Hm 2 eq_refl Hnz), (Hm2 5 eq_refl Hnz).
  repeat split; reflexivity.
Defined.

(** C1 as stated fails in the float32 of the buffers.  From a total of
    [2 ^ 24] an [update] on one element leaves the total at [2 ^ 24]: the
    sum [2 ^ 24 + 1] is not a float32 and rounds back, whatever the data
    and whatever the order of the additions of [sum()]. *)
Lemma update_total_float32 :
  (exists self',
      update_rounded round_f32 sum_exact (mkZmuv 16777216 (Some 1) (Some 1))
        (tensor_of_list [1]) None = Ok self'
      /\ total self' == 16777216
      /\ ~ total self' == 16777216 + 1)
  /\ (forall (sum_of : list Q -> Q) (x : Q) (mu mu2 : xnum),
      exists self',
        update_rounded round_f32 sum_of (mkZmuv 16777216 mu mu2)
          (tensor_of_list [x]) None = Ok self'
        /\ total self' == 16777216
        /\ ~ total self'
             == 16777216 + inject_Z (Z.of_nat (numel (tensor_of_list [x])))).
Proof.
  assert (Hall : forall (sum_of : list Q -> Q) (x : Q) (mu mu2 : xnum),
             exists self',
               update_rounded round_f32 sum_of (mkZmuv 16777216 mu mu2)
                 (tensor_of_list [x]) None = Ok self'
               /\ total self' == 16777216
               /\ ~ total self'
                    == 16777216
                       + inject_Z (Z.of_nat (numel (tensor_of_list [x])))).
  { intros sum_of x mu mu2. eexists. split; [reflexivity|].
    cbn [total]. split.
    - vm_compute. reflexivity.
    - intros H. vm_compute in H. discriminate. }
  split; [|exact Hall].
  destruct (Hall sum_exact 1 (Some 1) (Some 1)) as [self' [H1 [H2 H3]]].
  exists self'. split; [exact H1|]. split; [exact H2 | exact H3].
Qed.

(** In finite terms: from finite moments and a non-zero new count, the new
    moments are the rationals the update rule names. *)
Lemma update_finite (self : ZmuvTransform) (data : tensor Q) (mu mu2 : Q) :
  mean self = Some mu -> mean2 self = Some mu2 ->
  ~ total self + inject_Z (Z.of_nat (numel data)) == 0 ->
  update self data None
  = Ok (mkZmuv (total self + inject_Z (Z.of_nat (numel data)))
          (Some ((tsum data + mu * total self)
                 / (total self + inject_Z (Z.of_nat (numel data)))))
          (Some ((tsum (tsquare data) + mu2 * total self)
                 / (total self + inject_Z (Z.of_nat (numel data)))))).
Proof.
  intros Hmu Hmu2 Hnz. unfold update. simpl. rewrite Hmu, Hmu2. simpl.
  destruct (Qeq_bool (total self + inject_Z (Z.of_nat (numel data))) 0) eqn:E.
  - apply Qeq_bool_iff in E. contradiction.
  - reflexivity.
Qed.

Lemma fold_sum_app (l1 l2 : list Q) :
  fold_right Qplus 0 (l1 ++ l2)
  == fold_right Qplus 0 l1 + fold_right Qplus 0 l2.
Proof.
  induction l1 as [|x l1 IH]; simpl; [ring | rewrite IH; ring].
Qed.

Lemma cat_first_values {A} (a b c : tensor A) :
  well_formed a -> well_formed b ->
  numel a <> 0%nat -> numel b <> 0%nat ->
  cat_first a b = Ok c ->
  values c = values a ++ values b /\ numel c = (numel a + numel b)%nat.
Proof.
  unfold well_formed, numel, cat_first. intros Ha Hb Hna Hnb.
  destruct (shape a) as [|da sa] eqn:Hsa; [discriminate|].
  destruct (shape b) as [|db sb] eqn:Hsb; [discriminate|].
  destruct (shape_eqb (da :: sa) [0%nat]) eqn:Ea.
  { apply shape_eqb_eq in Ea. rewrite Ea in Hna. simpl in Hna. lia. }
  destruct (shape_eqb (db :: sb) [0%nat]) eqn:Eb.
  { apply shape_eqb_eq in Eb. rewrite Eb in Hnb. simpl in Hnb. lia. }
  destruct (shape_eqb sa sb) eqn:Es; [|discriminate].
  apply shape_eqb_eq in Es. subst sb.
  intros H; injection H as <-. simpl. split; [reflexivity | lia].
Qed.

Lemma count_positive (n : nat) : n <> 0%nat -> 0 < inject_Z (Z.of_nat n).
Proof.
  intros H. change 0 with (inject_Z 0). rewrite <- Zlt_Qlt. lia.
Qed.

Lemma xdiv_Some (x y : Q) : ~ y == 0 -> xdiv (Some x) (Some y) = Some (x / y).
Proof.
  intros H. simpl. destruct (Qeq_bool y 0) eqn:E; [|reflexivity].
  apply Qeq_bool_iff in E. contradiction.
Qed.

(** One [update] from the zero state, on a chunk that is not empty. *)
Lemma update_once (c : tensor Q) :
  numel c <> 0%nat ->
  update ZmuvTransform_init c None
  = Ok (mkZmuv (0 + inject_Z (Z.of_nat (numel c)))
          (Some ((tsum c + 0 * 0) / (0 + inject_Z (Z.of_nat (numel c)))))
          (Some ((tsum (tsquare c) + 0 * 0)
                 / (0 + inject_Z (Z.of_nat (numel c)))))).
Proof.
  intros Hc. apply (@update_finite ZmuvTransform_init c 0 0); try reflexivity.
  simpl. assert (H := count_positive Hc). lra.
Qed.

(** Two [update]s from the zero state, when the first chunk is not empty. *)
Lemma update_twice (a b : tensor Q) :
  numel a <> 0%nat ->
  (s <- update ZmuvTransform_init a None ;; update s b None)
  = Ok (mkZmuv
          (0 + inject_Z (Z.of_nat (numel a)) + inject_Z (Z.of_nat (numel b)))
          (Some ((tsum b
                  + (tsum a + 0 * 0) / (0 + inject_Z (Z.of_nat (numel a)))
                    * (0 + inject_Z (Z.of_nat (numel a))))
                 / (0 + inject_Z (Z.of_nat (numel a))
                    + inject_Z (Z.of_nat (numel b)))))
          (Some ((tsum (tsquare b)
                  + (tsum (tsquare a) + 0 * 0)
                    / (0 + inject_Z (Z.of_nat (numel a)))
                    * (0 + inject_Z (Z.of_nat (numel a))))
                 / (0 + inject_Z (Z.of_nat (numel a))
                    + inject_Z (Z.of_nat (numel b)))))).
Proof.
  intros Ha. rewrite (update_once a Ha). unfold bind.
  apply update_finite; try reflexivity.
  simpl. assert (H := count_positive Ha).
  assert (0 <= inject_Z (Z.of_nat (numel b))).
  { change 0 with (inject_Z 0). rewrite <- Zle_Qle. lia. }
  lra.
Qed.

Lemma xeq_variance (s t : ZmuvTransform) :
  xeq (mean s) (mean t) -> xeq (mean2 s) (mean2 t) ->
  xeq (variance s) (variance t).
Proof.
  unfold variance.
  destruct (mean s), (mean t), (mean2 s), (mean2 t); simpl; try tauto.
  intros H1 H2. now rewrite H1, H2.
Qed.

Lemma xeq_std (sqrt : Q -> Q) (s t : ZmuvTransform) :
  (forall x y, x == y -> sqrt x == sqrt y) ->
  xeq (variance s) (variance t) -> xeq (std sqrt s) (std sqrt t).
Proof.
  intros Hsqrt. unfold std.
  destruct (variance s), (variance t); simpl; auto.
Qed.

(** The moments after the two chunks, in either order, against those after
    the joined data. *)
Lemma merged_moments (sa sb sc qa qb qc na nb nc : Q) :
  sc == sa + sb -> qc == qa + qb -> nc == na + nb -> 0 < na -> 0 < nb ->
  0 + na + nb == 0 + nc
  /\ (sb + (sa + 0 * 0) / (0 + na) * (0 + na)) / (0 + na + nb)
     == (sc + 0 * 0) / (0 + nc)
  /\ (qb + (qa + 0 * 0) / (0 + na) * (0 + na)) / (0 + na + nb)
     == (qc + 0 * 0) / (0 + nc).
Proof.
  intros Hs Hq Hn Ha Hb. rewrite Hs, Hq, Hn.
  repeat split; try ring; field; split; lra.
Qed.

Lemma tsum_cat (a b c : tensor Q) :
  values c = values a ++ values b ->
  tsum c == tsum a + tsum b
  /\ tsum (tsquare c) == tsum (tsquare a) + tsum (tsquare b).
Proof.
  intros Hv. unfold tsum, tsquare; simpl. rewrite Hv. split.
  - apply fold_sum_app.
  - rewrite map_app. apply fold_sum_app.
Qed.

(** C7, as amended.  In exact arithmetic, for a dataset split into two
    chunks neither of which is empty, one [update] per chunk from the zero
    state, in either order, leaves the same total, mean and mean of squares
    as a single [update] on the joined data; all three are finite numbers,
    and so the variance and the standard deviation derived from them agree
    too (for any square root that respects equality of rationals). *)
Theorem zmuv_merge (a b c : tensor Q) :
  well_formed a -> well_formed b ->
  numel a <> 0%nat -> numel b <> 0%nat ->
  cat_first a b = Ok c ->
  exists s_ab s_ba s_c,
    (s <- update ZmuvTransform_init a None ;; update s b None) = Ok s_ab
    /\ (s <- update ZmuvTransform_init b None ;; update s a None) = Ok s_ba
    /\ update ZmuvTransform_init c None = Ok s_c
    /\ finite_moments s_c
    /\ same_moments s_ab s_c /\ same_moments s_ba s_c
    /\ xeq (variance s_ab) (variance s_c) /\ xeq (variance s_ba) (variance s_c)
    /\ (forall sqrt : Q -> Q,
          (forall x y, x == y -> sqrt x == sqrt y) ->
          xeq (std sqrt s_ab) (std sqrt s_c)
          /\ xeq (std sqrt s_ba) (std sqrt s_c)).
Proof.
  intros Hwa Hwb Hna Hnb Hcat.
  destruct (cat_first_values Hwa Hwb Hna Hnb Hcat) as [Hv Hn].
  destruct (tsum_cat a b c Hv) as [Hs Hq].
  assert (Hnc : numel c <> 0%nat) by lia.
  assert (Hcount : inject_Z (Z.of_nat (numel c))
                   == inject_Z (Z.of_nat (numel a))
                      + inject_Z (Z.of_nat (numel b))).
  { rewrite Hn, Nat2Z.inj_add, inject_Z_plus. reflexivity. }
  assert (Hpa := count_positive Hna). assert (Hpb := count_positive Hnb).
  destruct (merged_moments Hs Hq Hcount Hpa Hpb) as [Hab1 [Hab2 Hab3]].
  assert (Hs' : tsum c == tsum b + tsum a) by (rewrite Hs; ring).
  assert (Hq' : tsum (tsquare c) == tsum (tsquare b) + tsum (tsquare a))
    by (rewrite Hq; ring).
  assert (Hcount' : inject_Z (Z.of_nat (numel c))
                    == inject_Z (Z.of_nat (numel b))
                       + inject_Z (Z.of_nat (numel a)))
    by (rewrite Hcount; ring).
  destruct (merged_moments Hs' Hq' Hcount' Hpb Hpa) as [Hba1 [Hba2 Hba3]].
  do 3 eexists.
  split; [apply (update_twice a b Hna)|].
  split; [apply (update_twice b a Hnb)|].
  split; [apply (update_once c Hnc)|].
  assert (Hsame_ab : same_moments
            (mkZmuv _ (Some _) (Some _)) (mkZmuv _ (Some _) (Some _)))
    by (split; [exact Hab1 | split; [exact Hab2 | exact Hab3]]).
  assert (Hsame_ba : same_moments
            (mkZmuv _ (Some _) (Some _)) (mkZmuv _ (Some _) (Some _)))
    by (split; [exact Hba1 | split; [exact Hba2 | exact Hba3]]).
  split; [do 2 eexists; split; reflexivity|].
  split; [exact Hsame_ab|]. split; [exact Hsame_ba|].
  assert (Hv_ab := xeq_variance _ _ (proj1 (proj2 Hsame_ab)) (proj2 (proj2 Hsame_ab))).
  assert (Hv_ba := xeq_variance _ _ (proj1 (proj2 Hsame_ba)) (proj2 (proj2 Hsame_ba))).
  split; [exact Hv_ab|]. split; [exact Hv_ba|].
  intros sqrt Hsqrt. split; apply xeq_std; assumption.
Qed.

Lemma zmuv_merge_witness :
  cat_first chunk_a chunk_b = Ok chunk_ab
  /\ exists s_ab s_ba s_c,
       (s <- update ZmuvTransform_init chunk_a None ;; update s chunk_b None)
       = Ok s_ab
       /\ (s <- update ZmuvTransform_init chunk_b None ;; update s chunk_a None)
          = Ok s_ba
       /\ update ZmuvTransform_init chunk_ab None = Ok s_c
       /\ finite_moments s_c
       /\ same_moments s_ab s_c /\ same_moments s_ba s_c.
Proof.
  split; [reflexivity|].
  destruct (@zmuv_merge chunk_a chunk_b chunk_ab
              eq_refl eq_refl
              ltac:(discriminate) ltac:(discriminate) eq_refl)
    as [s_ab [s_ba [s_c [H1 [H2 [H3 [H4 [H5 [H6 _]]]]]]]]].
  exists s_ab, s_ba, s_c.
  exact (conj H1 (conj H2 (conj H3 (conj H4 (conj H5 H6))))).
Defined.

(** C7 as stated fails when the first chunk is empty: its [update] divides
    zero by zero, and the mean is not a number from then on, whereas one
    [update] on the joined data gives the mean of the data. *)
Lemma zmuv_merge_empty_chunk :
  cat_first chunk_empty chunk_b = Ok chunk_b
  /\ exists s_two s_one,
       (s <- update ZmuvTransform_init chunk_empty None ;; update s chunk_b None)
       = Ok s_two
       /\ update ZmuvTransform_init chunk_b None = Ok s_one
       /\ mean s_two = None /\ mean2 s_two = None
       /\ xeq (mean s_one) (Some 6) /\ xeq (mean2 s_one) (Some 36)
       /\ ~ xeq (mean s_two) (mean s_one).
Proof.
  split; [reflexivity|].
  do 2 eexists.
  split; [reflexivity|]. split; [reflexivity|].
  simpl. repeat split; try reflexivity. tauto.
Qed.


(** ** Lengths in frames *)

Lemma Qfloor_unique (q : Q) (z : Z) :
  inject_Z z <= q -> q < inject_Z (z + 1) -> Qfloor q = z.
Proof.
  intros Hlo Hhi.
  assert (H1 : (z <= Qfloor q)%Z).
  { rewrite <- (Qfloor_Z z). now apply Qfloor_resp_le. }
  assert (H2 : (Qfloor q < z + 1)%Z).
  { rewrite Zlt_Qlt. eapply Qle_lt_trans; [apply Qfloor_le | exact Hhi]. }
  lia.
Qed.

Lemma Qfloor_succ (q : Q) : Qfloor (q + 1) = (Qfloor q + 1)%Z.
Proof.
  apply Qfloor_unique.
  - rewrite inject_Z_plus. assert (H := Qfloor_le q).
    change (inject_Z 1) with 1. lra.
  - assert (H := Qlt_floor q). rewrite !inject_Z_plus in *.
    change (inject_Z 1) with 1 in *. lra.
Qed.

(** Dropping the fractional part of a number that is not negative rounds it
    down. *)
Lemma Qtruncate_nonneg (q : Q) : 0 <= q -> Qtruncate q = Qfloor q.
Proof.
  destruct q as [n d]. unfold Qle, Qtruncate, Qfloor; simpl. intros H.
  apply Z.quot_div_nonneg; lia.
Qed.

Lemma quotient_nonneg (a h : Z) :
  (0 <= a)%Z -> (0 < h)%Z -> 0 <= inject_Z a / inject_Z h.
Proof.
  intros Ha Hh. apply Qle_shift_div_l.
  - change 0 with (inject_Z 0). rewrite <- Zlt_Qlt. exact Hh.
  - rewrite Qmult_0_l. change 0 with (inject_Z 0). rewrite <- Zle_Qle. exact Ha.
Qed.

(** ** Float32 rounding

    Powers of two. *)

Lemma pow2_pos (e : Z) : 0 < 2 ^ e.
Proof. apply Qpower_0_lt. reflexivity. Qed.

Lemma pow2_Z (k : Z) : (0 <= k)%Z -> 2 ^ k == inject_Z (2 ^ k).
Proof. intros Hk. symmetry. exact (Zpower_Qpower 2 k Hk). Qed.

Lemma pow2_add (a b : Z) : 2 ^ (a + b) == 2 ^ a * 2 ^ b.
Proof. apply Qpower_plus. discriminate. Qed.

Lemma pow2_sub (a b : Z) : 2 ^ (a - b) == 2 ^ a / 2 ^ b.
Proof. apply Qpower_minus. discriminate. Qed.

Lemma pow2_le (a b : Z) : (a <= b)%Z -> 2 ^ a <= 2 ^ b.
Proof. intros H. apply Qpower_le_compat_l; [exact H | discriminate]. Qed.

Lemma frac_lt (n a : Z) (d b : positive) :
  (n * Zpos b < a * Zpos d)%Z -> n # d < inject_Z a / inject_Z (Zpos b).
Proof.
  intros H. unfold Qlt, Qdiv, Qmult, Qinv, inject_Z. simpl. lia.
Qed.

Lemma frac_le (n a : Z) (d b : positive) :
  (a * Zpos d <= n * Zpos b)%Z -> inject_Z a / inject_Z (Zpos b) <= n # d.
Proof.
  intros H. unfold Qle, Qdiv, Qmult, Qinv, inject_Z. simpl. lia.
Qed.

Lemma pow2_sub_lt (n : Z) (d : positive) (a b : Z) :
  (0 <= a)%Z -> (0 <= b)%Z -> (n * 2 ^ b < 2 ^ a * Zpos d)%Z ->
  n # d < 2 ^ (a - b).
Proof.
  intros Ha Hb H. rewrite pow2_sub, !pow2_Z by assumption.
  assert (Hp : (0 < 2 ^ b)%Z) by (apply Z.pow_pos_nonneg; lia).
  destruct (2 ^ b)%Z as [|p|p] eqn:E; try lia.
  now apply frac_lt.
Qed.

Lemma pow2_sub_le (n : Z) (d : positive) (a b : Z) :
  (0 <= a)%Z -> (0 <= b)%Z -> (2 ^ a * Zpos d <= n * 2 ^ b)%Z ->
  2 ^ (a - b) <= n # d.
Proof.
  intros Ha Hb H. rewrite pow2_sub, !pow2_Z by assumption.
  assert (Hp : (0 < 2 ^ b)%Z) by (apply Z.pow_pos_nonneg; lia).
  destruct (2 ^ b)%Z as [|p|p] eqn:E; try lia.
  now apply frac_le.
Qed.

Lemma floor_log2_spec (x : Q) :
  0 < x -> 2 ^ floor_log2 x <= x /\ x < 2 ^ (floor_log2 x + 1).
Proof.
  destruct x as [n d]. intros Hx.
  assert (Hn : (0 < n)%Z) by (unfold Qlt in Hx; simpl in Hx; lia).
  unfold floor_log2. cbn [Qnum Qden].
  set (ln := Z.log2 n). set (ld := Z.log2 (Zpos d)).
  assert (Hln := Z.log2_spec n Hn). assert (Hld := Z.log2_spec (Zpos d) eq_refl).
  fold ln in Hln. fold ld in Hld.
  assert (H0n : (0 <= ln)%Z) by apply Z.log2_nonneg.
  assert (H0d : (0 <= ld)%Z) by apply Z.log2_nonneg.
  destruct (Qle_bool (2 ^ (ln - ld)) (n # d)) eqn:E.
  - apply Qle_bool_iff in E. split; [exact E|].
    replace (ln - ld + 1)%Z with (Z.succ ln - ld)%Z by lia.
    apply pow2_sub_lt; [lia | lia | nia].
  - assert (Hlt : n # d < 2 ^ (ln - ld)).
    { apply Qnot_le_lt. intros H. apply Qle_bool_iff in H. congruence. }
    split.
    + replace (ln - ld - 1)%Z with (ln - Z.succ ld)%Z by lia.
      apply pow2_sub_le; [lia | lia | nia].
    + replace (ln - ld - 1 + 1)%Z with (ln - ld)%Z by lia. exact Hlt.
Qed.

(** Rounding to the nearest integer. *)

Lemma round_half_even_near (x : Q) :
  inject_Z (round_half_even x) - x <= 1 # 2
  /\ x - inject_Z (round_half_even x) <= 1 # 2.
Proof.
  unfold round_half_even.
  assert (Hlo := Qfloor_le x). assert (Hhi := Qlt_floor x).
  rewrite inject_Z_plus in Hhi. change (inject_Z 1) with 1 in Hhi.
  destruct (Qcompare_spec (x - inject_Z (Qfloor x)) (1 # 2)) as [H|H|H].
  - destruct (Z.even (Qfloor x)); [|rewrite inject_Z_plus; change (inject_Z 1) with 1];
      split; lra.
  - split; lra.
  - rewrite inject_Z_plus. change (inject_Z 1) with 1. split; lra.
Qed.

Lemma round_half_even_lower (m : Z) (x : Q) :
  inject_Z m <= x -> (m <= round_half_even x)%Z.
Proof.
  intros H. assert (Hf : (m <= Qfloor x)%Z).
  { rewrite <- (Qfloor_Z m). now apply Qfloor_resp_le. }
  unfold round_half_even.
  destruct (Qcompare (x - inject_Z (Qfloor x)) (1 # 2)); [|lia|lia].
  destruct (Z.even (Qfloor x)); lia.
Qed.

Lemma round_half_even_upper (m : Z) (x : Q) :
  x <= inject_Z m -> (round_half_even x <= m)%Z.
Proof.
  intros H.
  assert (Hf : (Qfloor x <= m)%Z).
  { rewrite <- (Qfloor_Z m). now apply Qfloor_resp_le. }
  unfold round_half_even.
  destruct (Z.eq_dec (Qfloor x) m) as [E|E].
  - assert (Hx : x - inject_Z (Qfloor x) < 1 # 2).
    { rewrite E. lra. }
    destruct (Qcompare_spec (x - inject_Z (Qfloor x)) (1 # 2)) as [H1|H1|H1];
      [lra | lia | lra].
  - destruct (Qcompare (x - inject_Z (Qfloor x)) (1 # 2)); [|lia|lia].
    destruct (Z.even (Qfloor x)); lia.
Qed.

(** Rounding to a float32: its value, its error, and its order against the
    integers below [2 ^ 24], which are float32 numbers themselves. *)

Lemma round_f32_canonical_zero (x : Q) : x == 0 -> round_f32_canonical x = 0.
Proof.
  intros H. unfold round_f32_canonical.
  apply Qeq_bool_iff in H. now rewrite H.
Qed.

Lemma round_f32_canonical_value (x : Q) :
  ~ x == 0 ->
  round_f32_canonical x
  == inject_Z (round_half_even (x / 2 ^ (float32_exponent x - 23)))
     * 2 ^ (float32_exponent x - 23).
Proof.
  intros H. unfold round_f32_canonical.
  destruct (Qeq_bool x 0) eqn:E; [apply Qeq_bool_iff in E; contradiction|].
  apply Qred_correct.
Qed.

Lemma float32_exponent_bound (x B : Q) :
  ~ x == 0 -> Qabs x <= B -> 2 ^ (-126) <= B ->
  2 ^ float32_exponent x <= B.
Proof.
  intros H HB Hmin. unfold float32_exponent.
  assert (Hpos : 0 < Qabs x).
  { destruct (Qlt_le_dec 0 (Qabs x)) as [H1|H1]; [exact H1|].
    exfalso. apply H. assert (H2 := Qabs_nonneg x).
    assert (H3 : Qabs x == 0) by lra.
    revert H3. apply Qabs_case; intros; lra. }
  destruct (floor_log2_spec Hpos) as [Hlo _].
  destruct (Z.max_spec (floor_log2 (Qabs x)) (-126)) as [[_ ->]|[_ ->]].
  - exact Hmin.
  - eapply Qle_trans; [exact Hlo | exact HB].
Qed.

Lemma round_f32_canonical_error (x B : Q) :
  Qabs x <= B -> 2 ^ (-126) <= B ->
  Qabs (round_f32_canonical x - x) <= B * eps32.
Proof.
  intros HB Hmin.
  assert (HB0 : 0 <= B).
  { eapply Qle_trans; [|exact Hmin]. apply Qlt_le_weak, pow2_pos. }
  destruct (Qeq_dec x 0) as [H0|H0].
  - rewrite (round_f32_canonical_zero H0), H0.
    change (Qabs (0 - 0)) with 0. unfold eps32. lra.
  - rewrite (round_f32_canonical_value H0).
    set (e := float32_exponent x).
    assert (Hu := pow2_pos (e - 23)).
    assert (He := float32_exponent_bound H0 HB Hmin). fold e in He.
    destruct (round_half_even_near (x / 2 ^ (e - 23))) as [H1 H2].
    set (m := inject_Z (round_half_even (x / 2 ^ (e - 23)))) in *.
    assert (Hx : x == (x / 2 ^ (e - 23)) * 2 ^ (e - 23)) by (field; lra).
    set (y := x / 2 ^ (e - 23)) in *.
    assert (Hsplit : 2 ^ e == 2 ^ (e - 23) * 8388608).
    { replace e with ((e - 23) + 23)%Z at 1 by lia. rewrite pow2_add.
      reflexivity. }
    set (u := 2 ^ (e - 23)) in *.
    rewrite Hsplit in He.
    assert (Hd : m * u - x == (m - y) * u) by (rewrite Hx at 1; ring).
    rewrite Hd. unfold eps32.
    apply Qabs_Qle_condition. split; nra.
Qed.

Lemma round_f32_error (x B : Q) :
  Qabs x <= B -> 2 ^ (-126) <= B -> Qabs (round_f32 x - x) <= B * eps32.
Proof.
  intros HB Hmin. unfold round_f32.
  assert (Hr := Qred_correct x).
  assert (HB' : Qabs (Qred x) <= B) by (rewrite (Qabs_wd _ _ Hr); exact HB).
  assert (H := @round_f32_canonical_error (Qred x) B HB' Hmin).
  assert (Hd : round_f32_canonical (Qred x) - x
               == round_f32_canonical (Qred x) - Qred x).
  { apply Qplus_comp; [reflexivity | apply Qopp_comp; symmetry; exact Hr]. }
  rewrite (Qabs_wd _ _ Hd). exact H.
Qed.

Lemma round_f32_eq (x y : Q) : x == y -> round_f32 x = round_f32 y.
Proof. intros H. unfold round_f32. now rewrite (Qred_complete _ _ H). Qed.

Lemma Qabs_pos_of_nonzero (x : Q) : ~ x == 0 -> 0 < Qabs x.
Proof.
  intros H. destruct (Qlt_le_dec 0 (Qabs x)) as [H1|H1]; [exact H1|].
  exfalso. apply H. assert (H2 := Qabs_nonneg x).
  assert (H3 : Qabs x == 0) by lra.
  revert H3. apply Qabs_case; intros; lra.
Qed.

Lemma float32_exponent_small (x : Q) :
  ~ x == 0 -> Qabs x < 16777216 -> (float32_exponent x <= 23)%Z.
Proof.
  intros H0 Hx. unfold float32_exponent.
  destruct (floor_log2_spec (Qabs_pos_of_nonzero H0)) as [Hlo _].
  assert (Hlt : 2 ^ floor_log2 (Qabs x) < 2 ^ 24).
  { eapply Qle_lt_trans; [exact Hlo|]. exact Hx. }
  apply Qpower_lt_compat_l_inv in Hlt; [lia | reflexivity].
Qed.

Lemma float32_exponent_large (x : Q) :
  ~ x == 0 -> (23 < float32_exponent x)%Z ->
  16777216 <= 2 ^ float32_exponent x /\ 2 ^ float32_exponent x <= Qabs x.
Proof.
  intros H0 He. split.
  - change 16777216 with (2 ^ 24). apply pow2_le. lia.
  - unfold float32_exponent in *.
    destruct (floor_log2_spec (Qabs_pos_of_nonzero H0)) as [Hlo _].
    destruct (Z.max_spec (floor_log2 (Qabs x)) (-126)) as [[_ E]|[_ E]];
      rewrite E in *; [lia | exact Hlo].
Qed.

Lemma ulp_scale (e : Z) :
  (e <= 23)%Z -> 2 ^ (e - 23) * inject_Z (2 ^ (23 - e)) == 1.
Proof.
  intros He. rewrite <- pow2_Z by lia. rewrite <- pow2_add.
  replace (e - 23 + (23 - e))%Z with 0%Z by lia. reflexivity.
Qed.

Lemma ulp_split (e : Z) : 2 ^ e == 2 ^ (e - 23) * 8388608.
Proof.
  replace e with ((e - 23) + 23)%Z at 1 by lia. rewrite pow2_add. reflexivity.
Qed.

Lemma round_f32_canonical_lower (z : Z) (x : Q) :
  (Z.abs z < 16777216)%Z -> inject_Z z <= x ->
  inject_Z z <= round_f32_canonical x.
Proof.
  intros Hz Hx. destruct (Qeq_dec x 0) as [H0|H0].
  - rewrite (round_f32_canonical_zero H0). now rewrite <- H0.
  - rewrite (round_f32_canonical_value H0).
    set (e := float32_exponent x).
    assert (Hu := pow2_pos (e - 23)).
    assert (Hxy : x == (x / 2 ^ (e - 23)) * 2 ^ (e - 23)) by (field; lra).
    destruct (Z_le_gt_dec e 23) as [He|He].
    + assert (Hs := ulp_scale He).
      assert (Hm : (z * 2 ^ (23 - e) <= round_half_even (x / 2 ^ (e - 23)))%Z).
      { apply round_half_even_lower. rewrite inject_Z_mult.
        set (y := x / 2 ^ (e - 23)) in *. set (u := 2 ^ (e - 23)) in *.
        set (k := inject_Z (2 ^ (23 - e))) in *.
        assert (Hk : 0 < k).
        { destruct (Qlt_le_dec 0 k) as [H|H]; [exact H | nra]. }
        assert (Hy : y == x * k).
        { rewrite Hxy. setoid_replace (y * u * k) with (y * (u * k)) by ring.
          rewrite Hs. ring. }
        rewrite Hy. nra. }
      rewrite Zle_Qle, inject_Z_mult in Hm.
      set (m := inject_Z (round_half_even (x / 2 ^ (e - 23)))) in *.
      set (u := 2 ^ (e - 23)) in *. set (k := inject_Z (2 ^ (23 - e))) in *.
      assert (Hzu : inject_Z z == inject_Z z * k * u).
      { setoid_replace (inject_Z z * k * u) with (inject_Z z * (u * k)) by ring.
        rewrite Hs. ring. }
      rewrite Hzu. nra.
    + destruct (@float32_exponent_large x H0 ltac:(fold e; lia)) as [Hbig Hle].
      fold e in Hbig, Hle.
      assert (Hzq : - 16777216 < inject_Z z /\ inject_Z z < 16777216).
      { split; [change (-16777216) with (inject_Z (-16777216))
               | change 16777216 with (inject_Z 16777216)];
          rewrite <- Zlt_Qlt; lia. }
      assert (Hpos : 2 ^ e <= x).
      { revert Hle. apply Qabs_case; intros; lra. }
      assert (Hm : (8388608 <= round_half_even (x / 2 ^ (e - 23)))%Z).
      { apply round_half_even_lower.
        apply Qle_shift_div_l; [exact Hu|].
        rewrite (ulp_split e) in Hpos.
        change (inject_Z 8388608) with 8388608. lra. }
      rewrite Zle_Qle in Hm. change (inject_Z 8388608) with 8388608 in Hm.
      rewrite (ulp_split e) in Hbig.
      set (m := inject_Z (round_half_even (x / 2 ^ (e - 23)))) in *.
      set (u := 2 ^ (e - 23)) in *. nra.
Qed.

Lemma round_f32_canonical_upper (z : Z) (x : Q) :
  (Z.abs z < 16777216)%Z -> x <= inject_Z z ->
  round_f32_canonical x <= inject_Z z.
Proof.
  intros Hz Hx. destruct (Qeq_dec x 0) as [H0|H0].
  - rewrite (round_f32_canonical_zero H0). now rewrite <- H0.
  - rewrite (round_f32_canonical_value H0).
    set (e := float32_exponent x).
    assert (Hu := pow2_pos (e - 23)).
    assert (Hxy : x == (x / 2 ^ (e - 23)) * 2 ^ (e - 23)) by (field; lra).
    destruct (Z_le_gt_dec e 23) as [He|He].
    + assert (Hs := ulp_scale He).
      assert (Hm : (round_half_even (x / 2 ^ (e - 23)) <= z * 2 ^ (23 - e))%Z).
      { apply round_half_even_upper. rewrite inject_Z_mult.
        set (y := x / 2 ^ (e - 23)) in *. set (u := 2 ^ (e - 23)) in *.
        set (k := inject_Z (2 ^ (23 - e))) in *.
        assert (Hk : 0 < k).
        { destruct (Qlt_le_dec 0 k) as [H|H]; [exact H | nra]. }
        assert (Hy : y == x * k).
        { rewrite Hxy. setoid_replace (y * u * k) with (y * (u * k)) by ring.
          rewrite Hs. ring. }
        rewrite Hy. nra. }
      rewrite Zle_Qle, inject_Z_mult in Hm.
      set (m := inject_Z (round_half_even (x / 2 ^ (e - 23)))) in *.
      set (u := 2 ^ (e - 23)) in *. set (k := inject_Z (2 ^ (23 - e))) in *.
      assert (Hzu : inject_Z z == inject_Z z * k * u).
      { setoid_replace (inject_Z z * k * u) with (inject_Z z * (u * k)) by ring.
        rewrite Hs. ring. }
      rewrite Hzu. nra.
    + destruct (@float32_exponent_large x H0 ltac:(fold e; lia)) as [Hbig Hle].
      fold e in Hbig, Hle.
      assert (Hzq : - 16777216 < inject_Z z /\ inject_Z z < 16777216).
      { split; [change (-16777216) with (inject_Z (-16777216))
               | change 16777216 with (inject_Z 16777216)];
          rewrite <- Zlt_Qlt; lia. }
      assert (Hneg : x <= - 2 ^ e).
      { revert Hle. apply Qabs_case; intros; lra. }
      assert (Hm : (round_half_even (x / 2 ^ (e - 23)) <= - 8388608)%Z).
      { apply round_half_even_upper.
        apply Qle_shift_div_r; [exact Hu|].
        rewrite (ulp_split e) in Hneg.
        change (inject_Z (- 8388608)) with (- 8388608). lra. }
      rewrite Zle_Qle in Hm. change (inject_Z (- 8388608)) with (- 8388608) in Hm.
      rewrite (ulp_split e) in Hbig.
      set (m := inject_Z (round_half_even (x / 2 ^ (e - 23)))) in *.
      set (u := 2 ^ (e - 23)) in *. nra.
Qed.

Lemma round_f32_lower (z : Z) (x : Q) :
  (Z.abs z < 16777216)%Z -> inject_Z z <= x -> inject_Z z <= round_f32 x.
Proof.
  intros Hz Hx. apply round_f32_canonical_lower; [exact Hz|].
  now rewrite Qred_correct.
Qed.

Lemma round_f32_upper (z : Z) (x : Q) :
  (Z.abs z < 16777216)%Z -> x <= inject_Z z -> round_f32 x <= inject_Z z.
Proof.
  intros Hz Hx. apply round_f32_canonical_upper; [exact Hz|].
  now rewrite Qred_correct.
Qed.

Lemma round_f32_exact (z : Z) :
  (Z.abs z < 16777216)%Z -> round_f32 (inject_Z z) == inject_Z z.
Proof.
  intros Hz. apply Qle_antisym.
  - apply round_f32_upper; [exact Hz | apply Qle_refl].
  - apply round_f32_lower; [exact Hz | apply Qle_refl].
Qed.

Lemma smallest_normal_le_one : 2 ^ (-126) <= 1.
Proof. apply (@pow2_le (-126) 0). lia. Qed.

Lemma f32_quotient (a h : Z) :
  (Z.abs a < 16777216)%Z -> (Z.abs h < 16777216)%Z ->
  f32_div (f32_of_int a) (f32_of_int h) = round_f32 (inject_Z a / inject_Z h).
Proof.
  intros Ha Hh. unfold f32_div, f32_of_int. apply round_f32_eq.
  now rewrite !round_f32_exact.
Qed.

Lemma round_f32_above (x B : Q) :
  Qabs x <= B -> 1 <= B -> round_f32 x <= x + B * eps32.
Proof.
  intros HB H1.
  assert (H := @round_f32_error x B HB
                 (Qle_trans _ _ _ smallest_normal_le_one H1)).
  apply Qabs_Qle_condition in H. lra.
Qed.

Lemma quotient_bounds (a h : Z) :
  (0 < h)%Z ->
  inject_Z (a / h) <= inject_Z a / inject_Z h
  /\ inject_Z a / inject_Z h <= inject_Z (a / h) + 1 - / inject_Z h.
Proof.
  intros Hh.
  assert (HH : 0 < inject_Z h).
  { change 0 with (inject_Z 0). now rewrite <- Zlt_Qlt. }
  assert (Hd : 0 < / inject_Z h) by now apply Qinv_lt_0_compat.
  split.
  - rewrite Zdiv_Qdiv. apply Qfloor_le.
  - assert (Hz : (a <= (a / h + 1) * h - 1)%Z).
    { assert (H1 := Z.mul_div_le a h Hh).
      assert (H2 := Z.mod_pos_bound a h Hh).
      assert (H3 := Z.div_mod a h ltac:(lia)). lia. }
    rewrite Zle_Qle in Hz.
    unfold Zminus in Hz. rewrite inject_Z_plus, inject_Z_mult, inject_Z_plus in Hz.
    change (inject_Z (- (1))) with (- 1) in Hz. change (inject_Z 1) with 1 in Hz.
    unfold Qdiv.
    set (A := inject_Z a) in *. set (K := inject_Z (a / h)) in *.
    set (H := inject_Z h) in *. set (d := / H) in *.
    assert (Hone : H * d == 1) by (unfold d; field; lra).
    assert (Hle : A * d <= ((K + 1) * H + - 1) * d)
      by (apply Qmult_le_compat_r; [exact Hz | lra]).
    setoid_replace (((K + 1) * H + - 1) * d) with ((K + 1) * (H * d) - d)
      in Hle by ring.
    rewrite Hone in Hle. lra.
Qed.

(** The float32 quotient plus one lies between the exact count and the
    next integer as long as [2 * a + 4 * h] stays below [2 ^ 24]. *)
Lemma f32_frames_sandwich (a h : Z) :
  (0 <= a)%Z -> (0 < h)%Z -> (2 * a + 4 * h < 16777216)%Z ->
  inject_Z (a / h + 1) <= f32_add (f32_div (f32_of_int a) (f32_of_int h)) 1
  /\ f32_add (f32_div (f32_of_int a) (f32_of_int h)) 1
     < inject_Z (a / h + 1 + 1).
Proof.
  intros Ha Hh Hb.
  rewrite f32_quotient by lia.
  destruct (quotient_bounds a Hh) as [Hlo Hhi].
  assert (Hk0 : (0 <= a / h)%Z) by (apply Z.div_pos; lia).
  assert (Hka : (a / h * h <= a)%Z).
  { rewrite Z.mul_comm. apply Z.mul_div_le. exact Hh. }
  assert (HH : 0 < inject_Z h).
  { change 0 with (inject_Z 0). now rewrite <- Zlt_Qlt. }
  assert (Hd : 0 < / inject_Z h) by now apply Qinv_lt_0_compat.
  assert (HK0 : 0 <= inject_Z (a / h)).
  { change 0 with (inject_Z 0). now rewrite <- Zle_Qle. }
  assert (Hsmall : (2 * inject_Z (a / h) + 4) * eps32 < / inject_Z h).
  { assert (Hz : (2 * (a / h * h) + 4 * h < 16777216)%Z) by lia.
    rewrite Zlt_Qlt in Hz.
    rewrite inject_Z_plus, !inject_Z_mult in Hz.
    change (inject_Z 2) with 2 in Hz. change (inject_Z 4) with 4 in Hz.
    change (inject_Z 16777216) with 16777216 in Hz.
    set (K := inject_Z (a / h)) in *. set (H := inject_Z h) in *.
    assert (Hone : H * / H == 1) by (field; lra).
    assert (Hm : (2 * (K * H) + 4 * H) * / H < 16777216 * / H)
      by (apply Qmult_lt_compat_r; assumption).
    setoid_replace ((2 * (K * H) + 4 * H) * / H)
      with ((2 * K + 4) * (H * / H)) in Hm by ring.
    rewrite Hone in Hm. unfold eps32. lra. }
  set (q := inject_Z a / inject_Z h) in *.
  set (K := inject_Z (a / h)) in *.
  set (d := / inject_Z h) in *.
  assert (Hq0 : 0 <= q) by lra.
  assert (Hx1lo : K <= round_f32 q).
  { apply round_f32_lower; [lia | exact Hlo]. }
  assert (Hx1hi : round_f32 q <= q + (K + 1) * eps32).
  { apply round_f32_above; [|lra]. rewrite Qabs_pos by exact Hq0. lra. }
  assert (Heps : (K + 1) * eps32 <= 1).
  { unfold eps32 in *. lra. }
  unfold f32_add.
  set (x1 := round_f32 q) in *.
  rewrite !inject_Z_plus. change (inject_Z 1) with 1. fold K.
  split.
  - assert (H1 : inject_Z (a / h + 1) <= round_f32 (x1 + 1)).
    { apply round_f32_lower; [lia|].
      rewrite inject_Z_plus. change (inject_Z 1) with 1. fold K. lra. }
    rewrite inject_Z_plus in H1. exact H1.
  - assert (H2 : round_f32 (x1 + 1) <= x1 + 1 + (K + 3) * eps32).
    { apply round_f32_above; [|lra]. rewrite Qabs_pos by lra. lra. }
    unfold eps32 in *. lra.
Qed.

(** Less than a hop short of zero, the float32 quotient plus one lies
    between zero and one. *)
Lemma f32_below_one (a h : Z) :
  (0 < h < 8388608)%Z -> (- h < a < 0)%Z ->
  0 <= f32_add (f32_div (f32_of_int a) (f32_of_int h)) 1
  /\ f32_add (f32_div (f32_of_int a) (f32_of_int h)) 1 < 1.
Proof.
  intros [Hh Hmax] [Hlo Hhi].
  rewrite f32_quotient by lia.
  assert (HH : 0 < inject_Z h).
  { change 0 with (inject_Z 0). now rewrite <- Zlt_Qlt. }
  assert (Hd : 0 < / inject_Z h) by now apply Qinv_lt_0_compat.
  assert (Hdmin : 2 * eps32 < / inject_Z h).
  { assert (Hz : inject_Z h < 8388608).
    { change 8388608 with (inject_Z 8388608). now rewrite <- Zlt_Qlt. }
    assert (Hone : inject_Z h * / inject_Z h == 1) by (field; lra).
    assert (Hm : inject_Z h * / inject_Z h < 8388608 * / inject_Z h)
      by (apply Qmult_lt_compat_r; assumption).
    rewrite Hone in Hm. unfold eps32. lra. }
  assert (Hq : - 1 <= inject_Z a / inject_Z h
               /\ inject_Z a / inject_Z h <= - / inject_Z h).
  { assert (H1 : - inject_Z h <= inject_Z a).
    { rewrite <- inject_Z_opp, <- Zle_Qle. lia. }
    assert (H2 : inject_Z a <= - 1).
    { change (- 1) with (inject_Z (- 1)). rewrite <- Zle_Qle. lia. }
    unfold Qdiv. set (A := inject_Z a) in *. set (H := inject_Z h) in *.
    set (d := / H) in *.
    assert (Hone : H * d == 1) by (unfold d; field; lra).
    split.
    - assert (Hm : (- H) * d <= A * d)
        by (apply Qmult_le_compat_r; [exact H1 | lra]).
      setoid_replace (- H * d) with (- (H * d)) in Hm by ring.
      rewrite Hone in Hm. exact Hm.
    - assert (Hm : A * d <= (- 1) * d)
        by (apply Qmult_le_compat_r; [exact H2 | lra]).
      lra. }
  set (q := inject_Z a / inject_Z h) in *. set (d := / inject_Z h) in *.
  assert (Hx1lo : - 1 <= round_f32 q).
  { change (- 1) with (inject_Z (- 1)). apply round_f32_lower; [lia|].
    change (inject_Z (- 1)) with (- 1). lra. }
  assert (Hx1hi : round_f32 q <= q + 1 * eps32).
  { apply round_f32_above; [|lra]. apply Qabs_Qle_condition. lra. }
  unfold f32_add. set (x1 := round_f32 q) in *.
  assert (Hx2lo : 0 <= round_f32 (x1 + 1)).
  { change 0 with (inject_Z 0). apply round_f32_lower; [lia|].
    change (inject_Z 0) with 0. lra. }
  assert (Hx2hi : round_f32 (x1 + 1) <= x1 + 1 + 1 * eps32).
  { apply round_f32_above; [|lra]. apply Qabs_Qle_condition.
    unfold eps32 in *. lra. }
  split; [exact Hx2lo|]. unfold eps32 in *. lra.
Qed.

(** From the window length on, integer division gives the floor formula for
    every sample count, and float32 division for the sample counts of
    [float32_exact]. *)
Lemma compute_length_floor (div : tensor_division)
    (self : StandardAudioTransform) (n : Z) :
  (0 < hop_length (spec_transform self))%Z ->
  (win_length (spec_transform self) <= n)%Z ->
  float32_exact div self n ->
  compute_length div self n = floor_formula self n
  /\ floor_formula self n
     = ((n - win_length (spec_transform self))
        / hop_length (spec_transform self) + 1)%Z.
Proof.
  intros Hhop Hwin Hexact. unfold compute_length, floor_formula.
  set (a := (n - win_length (spec_transform self))%Z).
  set (h := hop_length (spec_transform self)).
  assert (Ha : (0 <= a)%Z) by (unfold a; lia).
  rewrite <- Zdiv_Qdiv. split; [|reflexivity].
  destruct div.
  - destruct (@f32_frames_sandwich a h Ha Hhop Hexact) as [Hlo Hhi].
    rewrite Qtruncate_nonneg.
    + now apply Qfloor_unique.
    + eapply Qle_trans; [|exact Hlo].
      change 0 with (inject_Z 0). rewrite <- Zle_Qle.
      assert (0 <= a / h)%Z by (apply Z.div_pos; lia). lia.
  - f_equal. apply Z.quot_div_nonneg; lia.
Qed.

(** ** Shapes through [forward] *)

Section ForwardFacts.

Variable mel_kernel : MelSpectrogram -> list Q -> list Q.
Variable ln : Q -> Q.
Variable delta_kernel : list Q -> list Q.

Lemma ComputeDeltas_shape (t : tensor Q) :
  shape (ComputeDeltas_forward delta_kernel t) = shape t.
Proof.
  unfold ComputeDeltas_forward. destruct (shape t) eqn:E; [exact E | reflexivity].
Qed.

Lemma MelSpectrogram_forward_shape (m : MelSpectrogram) (audio : tensor Q)
    (n frames : Z) :
  size_last audio = Ok n -> stft_frames m n = Ok frames ->
  exists mels,
    MelSpectrogram_forward mel_kernel m audio = Ok mels
    /\ shape mels
       = removelast (shape audio) ++ [Z.to_nat (n_mels m); Z.to_nat frames].
Proof.
  unfold size_last, MelSpectrogram_forward.
  destruct (shape audio) as [|d ds]; [discriminate|].
  intros H Hf; injection H as <-. rewrite Hf. simpl.
  eexists. split; reflexivity.
Qed.

Lemma last_frames (lead : list nat) (nm f d0 : nat) (s' : list nat) :
  d0 :: s' = lead ++ [nm; f] -> last (3%nat :: s') d0 = f.
Proof.
  intros H.
  assert (Hs : exists l, s' = l ++ [f]).
  { destruct lead as [|x lead]; simpl in H; injection H as _ ->.
    - now exists [].
    - exists (lead ++ [nm]). now rewrite <- app_assoc. }
  destruct Hs as [l ->].
  change (3%nat :: l ++ [f]) with ((3%nat :: l) ++ [f]).
  apply last_last.
Qed.

End ForwardFacts.

(** ** Channels of a stack *)

Lemma map_nth_seq {A} (l : list A) (d : A) :
  map (fun i => nth i l d) (seq 0 (length l)) = l.
Proof.
  induction l as [|x l IH]; simpl; [reflexivity|].
  f_equal. rewrite <- seq_shift, map_map. exact IH.
Qed.

Lemma nth_chunk_length {A} (n k i : nat) (l : list A) :
  (i < k)%nat -> (k * n <= length l)%nat ->
  length (nth i (chunks n k l) []) = n.
Proof.
  intros Hi Hl.
  assert (H := chunks_Forall_length n k l Hl).
  rewrite Forall_forall in H. apply H. apply nth_In.
  now rewrite chunks_length.
Qed.

Lemma pick_of_three {A} (n : nat) (b0 b1 b2 : list A) :
  length b0 = n -> length b1 = n -> length b2 = n ->
  firstn n (skipn (0 * n) (b0 ++ b1 ++ b2 ++ [])) = b0
  /\ firstn n (skipn (1 * n) (b0 ++ b1 ++ b2 ++ [])) = b1
  /\ firstn n (skipn (2 * n) (b0 ++ b1 ++ b2 ++ [])) = b2.
Proof.
  intros H0 H1 H2. rewrite app_nil_r. repeat split.
  - simpl. rewrite firstn_app, <- H0, firstn_all, Nat.sub_diag.
    simpl. apply app_nil_r.
  - rewrite skipn_app, skipn_all2 by lia.
    replace (1 * n - length b0)%nat with 0%nat by lia. simpl.
    rewrite firstn_app, <- H1, firstn_all, Nat.sub_diag.
    simpl. apply app_nil_r.
  - rewrite skipn_app, skipn_all2 by lia.
    replace (2 * n - length b0)%nat with n by lia. simpl.
    rewrite skipn_app, skipn_all2 by lia.
    replace (n - length b1)%nat with 0%nat by lia. simpl.
    rewrite <- H2. apply firstn_all.
Qed.

(** Stacking three tensors of one shape along a new second dimension gives
    a tensor with three channels, and each channel is the tensor that was
    stacked at its place. *)
Lemma channel_stack3 {A} (t0 t1 t2 : tensor A) (d0 : nat) (s' : list nat) :
  shape t0 = d0 :: s' -> shape t1 = d0 :: s' -> shape t2 = d0 :: s' ->
  exists out,
    stack_at_1 [t0; t1; t2] = Ok out
    /\ shape out = d0 :: 3%nat :: s'
    /\ (well_formed t0 -> well_formed t1 -> well_formed t2 ->
        channel out 0 = t0 /\ channel out 1 = t1 /\ channel out 2 = t2).
Proof.
  intros S0 S1 S2. unfold stack_at_1. rewrite S0. simpl forallb.
  rewrite S1, S2, shape_eqb_refl. simpl.
  eexists. split; [reflexivity|]. split; [reflexivity|].
  unfold well_formed, numel. rewrite S0, S1, S2. simpl prod_dims.
  set (inner := prod_dims s'). intros W0 W1 W2.
  set (B := fun u : tensor A => chunks inner d0 (values u)).
  set (groups := map (fun i => nth i (B t0) [] ++ nth i (B t1) []
                               ++ nth i (B t2) [] ++ []) (seq 0 d0)).
  assert (Hblock : forall u i, length (values u) = (d0 * inner)%nat ->
                     (i < d0)%nat -> length (nth i (B u) []) = inner).
  { intros u i Hu Hi. unfold B. apply nth_chunk_length; lia. }
  assert (Hgroups : chunks (3 * inner) d0 (concat groups) = groups).
  { replace d0 with (length groups) at 1
      by (unfold groups; now rewrite length_map, length_seq).
    apply chunks_concat. unfold groups. rewrite Forall_map.
    apply Forall_forall. intros i Hi. apply in_seq in Hi.
    rewrite !length_app, !Hblock by (assumption || lia). simpl. lia. }
  assert (Hpick : forall (c : nat) (u : tensor A),
             length (values u) = (d0 * inner)%nat ->
             (forall i, (i < d0)%nat ->
                firstn inner (skipn (c * inner)
                  (nth i (B t0) [] ++ nth i (B t1) [] ++ nth i (B t2) [] ++ []))
                = nth i (B u) []) ->
             shape u = d0 :: s' ->
             channel (mkTensor (d0 :: 3%nat :: s') (concat groups)) c = u).
  { intros c u Hu Hsel Su. unfold channel. cbn [shape values].
    fold inner. rewrite Hgroups.
    rewrite flat_map_concat_map. unfold groups at 1. rewrite map_map.
    rewrite (map_ext_in _ (fun i => nth i (B u) [])).
    - assert (Hm := map_nth_seq (chunks inner d0 (values u)) []).
      rewrite chunks_length in Hm. unfold B. rewrite Hm.
      rewrite concat_chunks by lia.
      destruct u as [su vu]. simpl in *. now rewrite Su.
    - intros i Hi. apply in_seq in Hi. apply Hsel. lia. }
  repeat split.
  - apply Hpick; [assumption | | assumption].
    intros i Hi. apply pick_of_three; apply Hblock; assumption.
  - apply Hpick; [assumption | | assumption].
    intros i Hi. apply pick_of_three; apply Hblock; assumption.
  - apply Hpick; [assumption | | assumption].
    intros i Hi. apply pick_of_three; apply Hblock; assumption.
Qed.

(** ** [StandardAudioTransform.forward] *)

Lemma forward_stacks (mel_kernel : MelSpectrogram -> list Q -> list Q)
    (ln : Q -> Q) (delta_kernel : list Q -> list Q)
    (self : StandardAudioTransform) (audio mels : tensor Q)
    (d0 : nat) (s' : list nat) :
  MelSpectrogram_forward mel_kernel (spec_transform self) audio = Ok mels ->
  shape mels = d0 :: s' ->
  exists out,
    forward mel_kernel ln delta_kernel self audio = Ok out
    /\ shape out = d0 :: 3%nat :: s'
    /\ (well_formed (add_log ln mels) ->
        well_formed (ComputeDeltas_forward delta_kernel (add_log ln mels)) ->
        well_formed (ComputeDeltas_forward delta_kernel
                       (ComputeDeltas_forward delta_kernel (add_log ln mels))) ->
        channel out 0 = add_log ln mels
        /\ channel out 1 = ComputeDeltas_forward delta_kernel (add_log ln mels)
        /\ channel out 2
           = ComputeDeltas_forward delta_kernel
               (ComputeDeltas_forward delta_kernel (add_log ln mels))).
Proof.
  intros Hmel Hshape. unfold forward. rewrite Hmel. unfold bind.
  apply channel_stack3.
  - exact Hshape.
  - now rewrite ComputeDeltas_shape.
  - now rewrite !ComputeDeltas_shape.
Qed.

(** The frames of the output of [forward] are the frames of the short-time
    Fourier transform of the waveform. *)
Lemma forward_frames (mel_kernel : MelSpectrogram -> list Q -> list Q)
    (ln : Q -> Q) (delta_kernel : list Q -> list Q)
    (self : StandardAudioTransform) (audio : tensor Q) (n frames : Z) :
  size_last audio = Ok n ->
  stft_frames (spec_transform self) n = Ok frames ->
  (0 <= frames)%Z ->
  exists out,
    forward mel_kernel ln delta_kernel self audio = Ok out
    /\ time_frames out = Ok frames
    /\ shape out
       = match removelast (shape audio)
                ++ [Z.to_nat (n_mels (spec_transform self)); Z.to_nat frames]
         with
         | [] => []
         | d0 :: s' => d0 :: 3%nat :: s'
         end.
Proof.
  intros Hn Hf Hpos.
  destruct (@MelSpectrogram_forward_shape mel_kernel _ _ _ _ Hn Hf)
    as [mels [Hmel Hshape]].
  destruct (shape mels) as [|d0 s'] eqn:Hs.
  { destruct (removelast (shape audio)); discriminate. }
  destruct (@forward_stacks mel_kernel ln delta_kernel self audio mels d0 s' Hmel Hs)
    as [out [Hout [Hso _]]].
  exists out. split; [exact Hout|]. split.
  - unfold time_frames, size_last. rewrite Hso.
    rewrite (@last_frames _ _ _ _ _ Hshape). f_equal. lia.
  - rewrite <- Hshape. exact Hso.
Qed.

Lemma stft_frames_uncentred (m : MelSpectrogram) (n : Z) :
  center m = false -> pad m = 0%Z -> n_fft m = win_length m ->
  (0 < win_length m)%Z -> (0 < hop_length m)%Z -> (win_length m <= n)%Z ->
  stft_frames m n = Ok ((n - win_length m) / hop_length m + 1)%Z.
Proof.
  intros Hc Hp Hf Hw Hh Hn. unfold stft_frames. rewrite Hc, Hp, Hf. cbn [andb orb].
  repeat match goal with
         | |- context [(?a <=? ?b)%Z] => destruct (Z.leb_spec a b); [lia|]
         | |- context [(?a <? ?b)%Z] => destruct (Z.ltb_spec a b); [lia|]
         end.
  cbn [andb orb]. f_equal.
  match goal with
  | |- (1 + ?x / _)%Z = _ => replace x with (n - win_length m)%Z by lia
  end.
  lia.
Qed.

Lemma stft_frames_centred (m : MelSpectrogram) (n : Z) :
  center m = true -> pad m = 0%Z -> (n_fft m mod 2 = 0)%Z ->
  (0 < win_length m <= n_fft m)%Z -> (0 < hop_length m)%Z ->
  (n_fft m / 2 < n)%Z ->
  stft_frames m n = Ok (n / hop_length m + 1)%Z.
Proof.
  intros Hc Hp Heven Hw Hh Hn. unfold stft_frames. rewrite Hc, Hp. cbn [andb orb].
  assert (Hhalf : (2 * (n_fft m / 2) = n_fft m)%Z).
  { rewrite (Z.div_mod (n_fft m) 2) at 2 by lia. lia. }
  repeat match goal with
         | |- context [(?a <=? ?b)%Z] => destruct (Z.leb_spec a b); [lia|]
         | |- context [(?a <? ?b)%Z] => destruct (Z.ltb_spec a b); [lia|]
         end.
  cbn [andb orb]. f_equal.
  match goal with
  | |- (1 + ?x / _)%Z = _ => replace x with n by lia
  end.
  lia.
Qed.

Lemma MelSpectrogram_forward_inv
    (mel_kernel : MelSpectrogram -> list Q -> list Q)
    (m : MelSpectrogram) (audio mels : tensor Q) :
  MelSpectrogram_forward mel_kernel m audio = Ok mels ->
  exists frames,
    stft_frames_of_shape m (shape audio) = Ok frames
    /\ shape mels
       = removelast (shape audio) ++ [Z.to_nat (n_mels m); Z.to_nat frames].
Proof.
  unfold MelSpectrogram_forward, stft_frames_of_shape.
  destruct (shape audio) as [|d ds]; [discriminate|].
  destruct (stft_frames m (Z.of_nat (last ds d))) as [f|e]; simpl; [|discriminate].
  intros H; injection H as <-. exists f. split; reflexivity.
Qed.

(** C6, as amended.  [forward] returns the stack of three tensors of one
    shape: the log-mel spectrogram (the logarithm of the mel spectrogram plus
    [1e-7], value by value), the delta of the log-mel spectrogram, and the
    delta of that delta.  They are stacked along a new second dimension: a
    batched waveform [[batch, time]] gives [[batch, 3, mel, frames]], and an
    unbatched waveform [[time]], whose spectrogram is [[mel, frames]], gives
    [[mel, 3, frames]]. *)
Theorem forward_stacks_channels
    (mel_kernel : MelSpectrogram -> list Q -> list Q)
    (ln : Q -> Q) (delta_kernel : list Q -> list Q)
    (self : StandardAudioTransform) (audio mels : tensor Q) :
  MelSpectrogram_forward mel_kernel (spec_transform self) audio = Ok mels ->
  let log_mels := add_log ln mels in
  let deltas := ComputeDeltas_forward delta_kernel log_mels in
  let accels := ComputeDeltas_forward delta_kernel deltas in
  well_formed log_mels -> well_formed deltas -> well_formed accels ->
  exists (out : tensor Q) (frames : nat),
    forward mel_kernel ln delta_kernel self audio = Ok out
    /\ values log_mels = map (fun x => ln (x + (1 # 10000000))) (values mels)
    /\ channel out 0 = log_mels
    /\ channel out 1 = deltas
    /\ channel out 2 = accels
    /\ time_frames out = Ok (Z.of_nat frames)
    /\ (forall batch k, shape audio = [batch; k] ->
          shape out
          = [batch; 3%nat; Z.to_nat (n_mels (spec_transform self)); frames])
    /\ (forall k, shape audio = [k] ->
          shape out
          = [Z.to_nat (n_mels (spec_transform self)); 3%nat; frames]).
Proof.
  intros Hmel log_mels deltas accels W0 W1 W2.
  destruct (MelSpectrogram_forward_inv _ _ _ Hmel) as [f [Hf Hshape]].
  destruct (shape mels) as [|d0 s'] eqn:Hs.
  { destruct (removelast (shape audio)); discriminate. }
  destruct (@forward_stacks mel_kernel ln delta_kernel self audio mels d0 s'
              Hmel Hs) as [out [Hout [Hso Hch]]].
  destruct (Hch W0 W1 W2) as [C0 [C1 C2]].
  exists out, (Z.to_nat f).
  split; [exact Hout|]. split; [reflexivity|].
  split; [exact C0|]. split; [exact C1|]. split; [exact C2|].
  split; [|split].
  - unfold time_frames, size_last. rewrite Hso.
    now rewrite (@last_frames _ _ _ _ _ Hshape).
  - intros batch k Ha. rewrite Ha in Hshape. simpl in Hshape.
    injection Hshape as -> ->. exact Hso.
  - intros k Ha. rewrite Ha in Hshape. simpl in Hshape.
    injection Hshape as -> ->. exact Hso.
Qed.

Lemma forward_stacks_channels_witness :
  MelSpectrogram_forward shape_only_mel (spec_transform default_transform)
    two_waveforms = Ok two_spectrograms
  /\ exists (out : tensor Q) (frames : nat),
       forward shape_only_mel shape_only_ln shape_only_delta
         default_transform two_waveforms = Ok out
       /\ channel out 0 = add_log shape_only_ln two_spectrograms
       /\ time_frames out = Ok (Z.of_nat frames)
       /\ shape out = [2%nat; 3%nat; 80%nat; frames].
Proof.
  assert (Hmel : MelSpectrogram_forward shape_only_mel
                   (spec_transform default_transform) two_waveforms
                 = Ok two_spectrograms) by (vm_compute; reflexivity).
  split; [exact Hmel|].
  destruct (@forward_stacks_channels shape_only_mel shape_only_ln
              shape_only_delta default_transform two_waveforms
              two_spectrograms Hmel eq_refl eq_refl eq_refl)
    as [out [frames [H1 [_ [H3 [_ [_ [H6 [H7 _]]]]]]]]].
  exists out, frames.
  exact (conj H1 (conj H3 (conj H6 (H7 2%nat 400%nat eq_refl)))).
Defined.

(** C6 as stated fails on an unbatched waveform: the three tensors are
    stacked at the second place, so a waveform of 400 samples gives
    [[80, 3, 3]] (mel, channel, frames) and not [[3, 80, 3]], whatever the
    numeric kernels are. *)
Lemma forward_unbatched_shape :
  (forall (mel_kernel : MelSpectrogram -> list Q -> list Q) (ln : Q -> Q)
          (delta_kernel : list Q -> list Q),
      exists out,
        forward mel_kernel ln delta_kernel default_transform one_waveform
        = Ok out
        /\ shape out = [80%nat; 3%nat; 3%nat])
  /\ exists out,
       forward shape_only_mel shape_only_ln shape_only_delta
         default_transform one_waveform = Ok out
       /\ shape out = [80%nat; 3%nat; 3%nat]
       /\ shape out <> [3%nat; 80%nat; 3%nat].
Proof.
  assert (Hall : forall mel_kernel ln delta_kernel,
             exists out,
               forward mel_kernel ln delta_kernel default_transform one_waveform
               = Ok out
               /\ shape out = [80%nat; 3%nat; 3%nat]).
  { intros mel_kernel ln delta_kernel.
    destruct (@forward_frames mel_kernel ln delta_kernel default_transform
                one_waveform 400 3 eq_refl eq_refl ltac:(lia))
      as [out [Hout [_ Hshape]]].
    exists out. split; [exact Hout | exact Hshape]. }
  split; [exact Hall|].
  destruct (Hall shape_only_mel shape_only_ln shape_only_delta)
    as [out [Hout Hshape]].
  exists out. split; [exact Hout|]. split; [exact Hshape|].
  rewrite Hshape. discriminate.
Qed.

(** C3, as amended.  For a sample count [n] of at least [win_length] (and a
    positive hop), [compute_lengths] returns
    [floor((n - win_length) / hop_length) + 1]: for every such [n] when the
    tensor division is the integer one, and for
    [2 * (n - win_length) + 4 * hop_length < 2 ^ 24] when it is the true
    division, whose quotient and sum are float32.  This is the number of
    frames that [forward] produces when the spectrogram is not centred
    ([n_fft = win_length], no padding).  With the centred spectrogram, which
    is the default, [forward] produces [floor(n / hop_length) + 1] frames. *)
Theorem compute_lengths_floor_frames (div : tensor_division)
    (self : StandardAudioTransform) (n : Z) :
  (0 < hop_length (spec_transform self))%Z ->
  (0 < win_length (spec_transform self) <= n)%Z ->
  float32_exact div self n ->
  compute_length div self n = floor_formula self n
  /\ (forall length : tensor Z,
        Forall (fun k => (win_length (spec_transform self) <= k)%Z
                         /\ float32_exact div self k)
               (values length) ->
        compute_lengths div self length
        = mkTensor (shape length) (map (floor_formula self) (values length)))
  /\ (forall (mel_kernel : MelSpectrogram -> list Q -> list Q) (ln : Q -> Q)
             (delta_kernel : list Q -> list Q) (audio : tensor Q),
        size_last audio = Ok n ->
        center (spec_transform self) = false ->
        pad (spec_transform self) = 0%Z ->
        n_fft (spec_transform self) = win_length (spec_transform self) ->
        exists out,
          forward mel_kernel ln delta_kernel self audio = Ok out
          /\ time_frames out = Ok (compute_length div self n))
  /\ (forall (mel_kernel : MelSpectrogram -> list Q -> list Q) (ln : Q -> Q)
             (delta_kernel : list Q -> list Q) (audio : tensor Q),
        size_last audio = Ok n ->
        center (spec_transform self) = true ->
        pad (spec_transform self) = 0%Z ->
        (n_fft (spec_transform self) mod 2 = 0)%Z ->
        (win_length (spec_transform self) <= n_fft (spec_transform self))%Z ->
        (n_fft (spec_transform self) / 2 < n)%Z ->
        exists out,
          forward mel_kernel ln delta_kernel self audio = Ok out
          /\ time_frames out
             = Ok (n / hop_length (spec_transform self) + 1)%Z).
Proof.
  intros Hhop [Hwin Hn] Hexact.
  destruct (compute_length_floor div self Hhop Hn Hexact) as [Hfloor Hdiv].
  split; [exact Hfloor|]. split; [|split].
  - intros length Hall. unfold compute_lengths. f_equal.
    apply map_ext_in. intros k Hk. rewrite Forall_forall in Hall.
    destruct (Hall k Hk) as [Hk1 Hk2].
    apply compute_length_floor; assumption.
  - intros mel_kernel ln delta_kernel audio Hsize Hc Hp Hf.
    assert (Hframes := stft_frames_uncentred _ Hc Hp Hf Hwin Hhop Hn).
    assert (Hpos : (0 <= (n - win_length (spec_transform self))
                         / hop_length (spec_transform self) + 1)%Z).
    { assert (0 <= (n - win_length (spec_transform self))
                   / hop_length (spec_transform self))%Z
        by (apply Z.div_pos; lia). lia. }
    destruct (@forward_frames mel_kernel ln delta_kernel self audio n _
                Hsize Hframes Hpos) as [out [Hout [Htime _]]].
    exists out. split; [exact Hout|]. now rewrite Hfloor, Hdiv.
  - intros mel_kernel ln delta_kernel audio Hsize Hc Hp Heven Hle Hhalf.
    assert (Hframes := stft_frames_centred _ Hc Hp Heven (conj Hwin Hle)
                         Hhop Hhalf).
    assert (Hpos : (0 <= n / hop_length (spec_transform self) + 1)%Z).
    { assert (0 <= n / hop_length (spec_transform self))%Z
        by (apply Z.div_pos; lia). lia. }
    destruct (@forward_frames mel_kernel ln delta_kernel self audio n _
                Hsize Hframes Hpos) as [out [Hout [Htime _]]].
    exists out. split; [exact Hout | exact Htime].
Qed.

Lemma compute_lengths_floor_frames_witness :
  (0 < hop_length (spec_transform uncentred_transform))%Z
  /\ (0 < win_length (spec_transform uncentred_transform) <= 16000)%Z
  /\ float32_exact TrueDivision uncentred_transform 16000
  /\ compute_length TrueDivision uncentred_transform 16000
     = floor_formula uncentred_transform 16000
  /\ exists out,
       forward shape_only_mel shape_only_ln shape_only_delta
         uncentred_transform one_second = Ok out
       /\ time_frames out
          = Ok (compute_length TrueDivision uncentred_transform 16000).
Proof.
  assert (Hhop : (0 < hop_length (spec_transform uncentred_transform))%Z)
    by reflexivity.
  assert (Hwin : (0 < win_length (spec_transform uncentred_transform)
                  <= 16000)%Z) by (split; [reflexivity | discriminate]).
  assert (Hexact : float32_exact TrueDivision uncentred_transform 16000)
    by reflexivity.
  split; [exact Hhop|]. split; [exact Hwin|]. split; [exact Hexact|].
  destruct (@compute_lengths_floor_frames TrueDivision uncentred_transform
              16000 Hhop Hwin Hexact) as [H1 [_ [H3 _]]].
  split; [exact H1|].
  exact (H3 shape_only_mel shape_only_ln shape_only_delta
            one_second
            eq_refl eq_refl eq_refl eq_refl).
Defined.

(** C3 as stated fails three times.  With every option at its default, a
    waveform of 16000 samples gives 81 frames, and [compute_lengths] returns
    79.  For 150 samples, fewer than a window, [compute_lengths] returns 0
    under either reading of the division, where the floor formula gives
    -1.  And for 13107599 samples the float32 quotient 65535.996 plus one
    rounds to 65537, where the floor formula gives 65536. *)
Lemma compute_lengths_not_frames :
  compute_length TrueDivision default_transform 16000 = 79%Z
  /\ compute_length TruncatingDivision default_transform 16000 = 79%Z
  /\ (forall (mel_kernel : MelSpectrogram -> list Q -> list Q) (ln : Q -> Q)
             (delta_kernel : list Q -> list Q),
        exists out,
          forward mel_kernel ln delta_kernel default_transform
            one_second_batch = Ok out
          /\ time_frames out = Ok 81%Z)
  /\ compute_length TrueDivision default_transform 150 = 0%Z
  /\ compute_length TruncatingDivision default_transform 150 = 0%Z
  /\ floor_formula default_transform 150 = (-1)%Z
  /\ compute_length TrueDivision default_transform 13107599 = 65537%Z
  /\ compute_length TruncatingDivision default_transform 13107599 = 65536%Z
  /\ floor_formula default_transform 13107599 = 65536%Z.
Proof.
  split; [vm_compute; reflexivity|]. split; [reflexivity|].
  split; [|repeat split; vm_compute; reflexivity].
  intros mel_kernel ln delta_kernel.
  destruct (@forward_frames mel_kernel ln delta_kernel default_transform
              one_second_batch 16000 81
              eq_refl eq_refl ltac:(lia))
    as [out [Hout [Htime _]]].
  exists out. split; [exact Hout | exact Htime].
Qed.

(** ** Laws of randomised computations *)

Lemma law_eq_refl {A} (m : rand A) : law_eq m m.
Proof.
  induction m as [|x m IH]; constructor; [split; reflexivity | exact IH].
Qed.

Lemma law_eq_sym {A} (m1 m2 : rand A) : law_eq m1 m2 -> law_eq m2 m1.
Proof.
  induction 1 as [|x y m1 m2 [Hp Hr] _ IH]; constructor; [|exact IH].
  split; [now symmetry | now symmetry].
Qed.

Lemma law_eq_trans {A} (m1 m2 m3 : rand A) :
  law_eq m1 m2 -> law_eq m2 m3 -> law_eq m1 m3.
Proof.
  intros H12; revert m3.
  induction H12 as [|x y m1 m2 [Hp Hr] _ IH]; intros m3 H23;
    inversion H23 as [|y' z m2' m3' [Hq Hs] Hrest]; subst; constructor.
  - split; [now rewrite Hp | congruence].
  - now apply IH.
Qed.

Lemma law_eq_app {A} (m1 m2 n1 n2 : rand A) :
  law_eq m1 m2 -> law_eq n1 n2 -> law_eq (m1 ++ n1) (m2 ++ n2).
Proof. apply Forall2_app. Qed.

Lemma scale_law_eq {B} (p q : Q) (m1 m2 : rand B) :
  p == q -> law_eq m1 m2 -> law_eq (scale p m1) (scale q m2).
Proof.
  intros Hpq. induction 1 as [|x y m1 m2 [Hw Hr] _ IH]; simpl; constructor.
  - simpl. split; [now rewrite Hpq, Hw | exact Hr].
  - exact IH.
Qed.

Lemma scale_scale {B} (p q : Q) (m : rand B) :
  law_eq (scale p (scale q m)) (scale (p * q) m).
Proof.
  induction m as [|x m IH]; simpl; constructor; [|exact IH].
  simpl. split; [ring | reflexivity].
Qed.

Lemma scale_one {B} (m : rand B) : law_eq (scale 1 m) m.
Proof.
  induction m as [|x m IH]; simpl; constructor; [|exact IH].
  simpl. split; [ring | reflexivity].
Qed.

Lemma scale_app {B} (p : Q) (m n : rand B) :
  scale p (m ++ n) = scale p m ++ scale p n.
Proof. apply map_app. Qed.

Lemma rbind_cons {A B} (p : Q) (r : result A) (m : rand A) (k : A -> rand B) :
  rbind ((p, r) :: m) k
  = match r with
    | Ok a => scale p (k a)
    | Err e => [(p, Err e)]
    end ++ rbind m k.
Proof. unfold rbind; simpl. destruct r; reflexivity. Qed.

Lemma rbind_app {A B} (m n : rand A) (k : A -> rand B) :
  rbind (m ++ n) k = rbind m k ++ rbind n k.
Proof. unfold rbind. apply flat_map_app. Qed.

Lemma rbind_scale {A B} (p : Q) (m : rand A) (k : A -> rand B) :
  law_eq (rbind (scale p m) k) (scale p (rbind m k)).
Proof.
  induction m as [|[q r] m IH]; [constructor|].
  change (scale p ((q, r) :: m)) with ((p * q, r) :: scale p m).
  rewrite !rbind_cons, scale_app. apply law_eq_app; [|exact IH].
  destruct r as [a|e]; simpl.
  - apply law_eq_sym, scale_scale.
  - constructor; [split; reflexivity | constructor].
Qed.

(** [rbind] respects the agreement of laws. *)
Lemma rbind_law_eq {A B} (m1 m2 : rand A) (k1 k2 : A -> rand B) :
  law_eq m1 m2 -> (forall a, law_eq (k1 a) (k2 a)) ->
  law_eq (rbind m1 k1) (rbind m2 k2).
Proof.
  intros Hm Hk.
  induction Hm as [|[p r] [q r'] m1 m2 [Hp Hr] _ IH]; [constructor|].
  simpl in Hp, Hr. subst r'. rewrite !rbind_cons.
  apply law_eq_app; [|exact IH].
  destruct r as [a|e].
  - now apply scale_law_eq.
  - constructor; [split; [exact Hp | reflexivity] | constructor].
Qed.

Lemma rbind_rret_l {A B} (a : A) (k : A -> rand B) :
  law_eq (rbind (rret a) k) (k a).
Proof.
  unfold rret. rewrite rbind_cons. unfold rbind; simpl. rewrite app_nil_r.
  apply scale_one.
Qed.

Lemma rbind_rret_r {A} (m : rand A) : law_eq (rbind m rret) m.
Proof.
  induction m as [|[p r] m IH]; [constructor|].
  rewrite rbind_cons.
  destruct r as [a|e]; simpl; constructor; try exact IH.
  - simpl. split; [ring | reflexivity].
  - split; reflexivity.
Qed.

Lemma rbind_assoc {A B C} (m : rand A) (f : A -> rand B) (g : B -> rand C) :
  law_eq (rbind (rbind m f) g) (rbind m (fun a => rbind (f a) g)).
Proof.
  induction m as [|[p r] m IH]; [constructor|].
  rewrite !rbind_cons, rbind_app. apply law_eq_app; [|exact IH].
  destruct r as [a|e].
  - apply rbind_scale.
  - rewrite rbind_cons. simpl. apply law_eq_refl.
Qed.

Lemma rbind_Err {A B} (p : Q) (e : error) (k : A -> rand B) :
  rbind [(p, Err e)] k = [(p, Err e)].
Proof. reflexivity. Qed.

(** ** Slices of the last dimension *)

Lemma last_cons (e d : nat) (ds : list nat) : last (e :: ds) d = last ds e.
Proof.
  revert e d; induction ds as [|x ds IH]; intros e d; [reflexivity|].
  change (last (e :: x :: ds) d) with (last (x :: ds) d).
  now rewrite !IH.
Qed.

Lemma removelast_last_shape (d : nat) (ds : list nat) :
  removelast (d :: ds) ++ [last ds d] = d :: ds.
Proof.
  revert d; induction ds as [|e ds IH]; intros d; [reflexivity|].
  change (removelast (d :: e :: ds)) with (d :: removelast (e :: ds)).
  rewrite last_cons. cbn [app]. f_equal. apply IH.
Qed.

Lemma prod_dims_last (d : nat) (ds : list nat) :
  prod_dims (d :: ds) = (prod_dims (removelast (d :: ds)) * last ds d)%nat.
Proof.
  revert d; induction ds as [|e ds IH]; intros d.
  - simpl. lia.
  - change (removelast (d :: e :: ds)) with (d :: removelast (e :: ds)).
    rewrite last_cons.
    change (prod_dims (d :: e :: ds)) with (d * prod_dims (e :: ds))%nat.
    rewrite IH.
    change (prod_dims (d :: removelast (e :: ds)))
      with (d * prod_dims (removelast (e :: ds)))%nat.
    lia.
Qed.

Lemma size_last_app {A} (t : tensor A) (lead : list nat) (w : nat) :
  shape t = lead ++ [w] -> size_last t = Ok (Z.of_nat w).
Proof.
  intros H. unfold size_last. rewrite H.
  destruct lead as [|d lead]; [reflexivity|].
  simpl. now rewrite last_last.
Qed.

Lemma clamp_index_inside (n i : Z) : (0 <= i <= n)%Z -> clamp_index n i = i.
Proof.
  intros H. unfold clamp_index.
  destruct (Z.ltb_spec i 0); lia.
Qed.

Lemma slice_list_window {A} (a w : Z) (l : list A) :
  (0 <= a)%Z -> (0 <= w)%Z -> (a + w <= Z.of_nat (length l))%Z ->
  slice_list a (a + w) l = firstn (Z.to_nat w) (skipn (Z.to_nat a) l).
Proof.
  intros Ha Hw Hl. unfold slice_list.
  rewrite !clamp_index_inside by lia. f_equal. lia.
Qed.

Lemma slice_list_full {A} (l : list A) :
  slice_list 0 (0 + Z.of_nat (length l)) l = l.
Proof.
  rewrite slice_list_window by lia. simpl skipn.
  rewrite Nat2Z.id. apply firstn_all.
Qed.

(** The slice of the whole last dimension is the tensor itself. *)
Lemma slice_last_full {A} (t : tensor A) (n : Z) :
  well_formed t -> size_last t = Ok n -> slice_last 0 (0 + n) t = Ok t.
Proof.
  unfold well_formed, numel, size_last, slice_last.
  destruct t as [s vals]; cbn [shape values].
  destruct s as [|d ds]; [discriminate|].
  intros Hwf H; injection H as <-.
  rewrite !clamp_index_inside by lia.
  replace (Z.to_nat (0 + Z.of_nat (last ds d) - 0)) with (last ds d) by lia.
  rewrite removelast_last_shape. f_equal. f_equal.
  rewrite prod_dims_last in Hwf.
  rewrite map_id_on.
  - now apply concat_chunks.
  - eapply Forall_impl; [|apply chunks_Forall_length; lia].
    intros c Hc. rewrite <- Hc. apply slice_list_full.
Qed.

(** A window of [w] samples that starts at [a] and fits in the clip. *)
Lemma slice_last_window {A} (t : tensor A) (n a w : Z) :
  size_last t = Ok n -> (0 <= a)%Z -> (0 <= w)%Z -> (a + w <= n)%Z ->
  exists sl,
    slice_last a (a + w) t = Ok sl
    /\ size_last sl = Ok w
    /\ shape sl = removelast (shape t) ++ [Z.to_nat w]
    /\ (prod_dims (removelast (shape t)) = 1%nat ->
        length (values t) = Z.to_nat n ->
        values sl = firstn (Z.to_nat w) (skipn (Z.to_nat a) (values t))).
Proof.
  intros H Ha Hw Hn. unfold size_last in H. unfold slice_last.
  destruct (shape t) as [|d ds] eqn:Hs; [discriminate|].
  injection H as <-.
  rewrite !clamp_index_inside by lia.
  replace (Z.to_nat (a + w - a)) with (Z.to_nat w) by lia.
  eexists. split; [reflexivity|]. split; [|split].
  - erewrite size_last_app by reflexivity. f_equal. lia.
  - reflexivity.
  - intros Hone Hlen. cbn [values]. rewrite Hone. simpl.
    rewrite app_nil_r. rewrite Nat2Z.id in Hlen.
    rewrite <- Hlen, firstn_all.
    apply slice_list_window; lia.
Qed.

Lemma zrange_In (lo hi a : Z) : In a (zrange lo hi) <-> (lo <= a <= hi)%Z.
Proof.
  unfold zrange. rewrite in_map_iff. split.
  - intros [i [<- Hi]]. apply in_seq in Hi. lia.
  - intros H. exists (Z.to_nat (a - lo)). split; [lia|].
    apply in_seq. lia.
Qed.

(** ** [random_slice] against the windowing law *)

Lemma randint_law (lo hi : Z) :
  (lo <= hi)%Z ->
  randint lo hi
  = map (fun a => (1 # Z.to_pos (hi - lo + 1), Ok a)) (zrange lo hi).
Proof.
  intros H. unfold randint. destruct (Z.ltb_spec hi lo); [lia | reflexivity].
Qed.

Lemma rbind_map {X A B} (w : Q) (r : X -> result A) (l : list X)
    (k : A -> rand B) :
  rbind (map (fun x => (w, r x)) l) k
  = flat_map (fun x => match r x with
                       | Ok a => scale w (k a)
                       | Err e => [(w, Err e)]
                       end) l.
Proof.
  induction l as [|x l IH]; [reflexivity|].
  cbn [map flat_map]. now rewrite rbind_cons, IH.
Qed.

Lemma law_eq_flat_map {X A} (f g : X -> rand A) (l : list X) :
  (forall x, In x l -> law_eq (f x) (g x)) ->
  law_eq (flat_map f l) (flat_map g l).
Proof.
  induction l as [|x l IH]; intros H; [constructor|].
  cbn [flat_map]. apply law_eq_app.
  - apply H. now left.
  - apply IH. intros y Hy. apply H. now right.
Qed.

Lemma emplaced_same (ex : WakeWordClipExample) :
  emplaced_audio_data ex (audio_data ex) = ex.
Proof. now destruct ex. Qed.

(** One turn of the loop of [random_slice] appends one draw from the law of
    one clip. *)
Lemma random_slice_step_spec (w : Z) (pre : list WakeWordClipExample)
    (ex : WakeWordClipExample) :
  (0 <= w)%Z -> well_formed (audio_data ex) ->
  law_eq (random_slice_step w pre ex)
         (rbind (window_one w ex) (fun ex' => rret (pre ++ [ex']))).
Proof.
  intros Hw Hwf. unfold random_slice_step, window_one.
  destruct (size_last (audio_data ex)) as [n|e] eqn:Hn;
    [|apply law_eq_refl].
  eapply law_eq_trans; [apply (rbind_rret_l n)|]. cbv beta.
  destruct (Z.ltb_spec n w) as [Hlt|Hge].
  - destruct (Z.leb_spec n w); [|lia].
    apply law_eq_sym. apply (rbind_rret_l ex).
  - destruct (Z.leb_spec n w) as [Hle|Hgt].
    + assert (n = w) by lia. subst w.
      replace (n - n)%Z with 0%Z by lia.
      eapply law_eq_trans; [apply (rbind_rret_l 0%Z)|]. cbv beta.
      rewrite (slice_last_full Hwf Hn).
      eapply law_eq_trans; [apply (rbind_rret_l (audio_data ex))|]. cbv beta.
      rewrite emplaced_same.
      apply law_eq_sym. apply (rbind_rret_l ex).
    + rewrite randint_law by lia.
      replace (n - w - 0 + 1)%Z with (n - w + 1)%Z by lia.
      rewrite !rbind_map. apply law_eq_flat_map.
      intros a Ha. apply zrange_In in Ha.
      destruct (@slice_last_window Q (audio_data ex) n a w Hn)
        as [sl [Hsl _]]; try lia.
      rewrite Hsl. apply scale_law_eq; [reflexivity|].
      apply (rbind_rret_l sl).
Qed.

Lemma random_slice_fold (w : Z) (exs : list WakeWordClipExample) :
  (0 <= w)%Z -> Forall (fun ex => well_formed (audio_data ex)) exs ->
  forall acc : rand (list WakeWordClipExample),
    law_eq (fold_left (fun acc ex =>
                         rbind acc (fun new_examples =>
                           random_slice_step w new_examples ex))
                      exs acc)
           (rbind acc (fun pre =>
              rbind (window_all w exs) (fun out => rret (pre ++ out)))).
Proof.
  intros Hw Hall. induction Hall as [|ex exs Hex _ IH]; intros acc.
  - cbn [fold_left window_all]. apply law_eq_sym.
    eapply law_eq_trans; [|apply rbind_rret_r].
    apply rbind_law_eq; [apply law_eq_refl|]. intros pre.
    eapply law_eq_trans; [apply (rbind_rret_l [])|]. cbv beta.
    rewrite app_nil_r. apply law_eq_refl.
  - cbn [fold_left].
    eapply law_eq_trans; [apply IH|].
    eapply law_eq_trans; [apply rbind_assoc|].
    apply rbind_law_eq; [apply law_eq_refl|]. intros pre.
    eapply law_eq_trans;
      [apply rbind_law_eq;
       [apply (random_slice_step_spec pre ex Hw Hex)
       |intros a; apply law_eq_refl]|].
    eapply law_eq_trans; [apply rbind_assoc|].
    cbn [window_all]. apply law_eq_sym.
    eapply law_eq_trans; [apply rbind_assoc|].
    apply rbind_law_eq; [apply law_eq_refl|]. intros ex'.
    eapply law_eq_trans; [apply rbind_assoc|].
    apply law_eq_sym.
    eapply law_eq_trans; [apply (rbind_rret_l (pre ++ [ex']))|]. cbv beta.
    apply rbind_law_eq; [apply law_eq_refl|]. intros rest'.
    apply law_eq_sym.
    eapply law_eq_trans; [apply (rbind_rret_l (ex' :: rest'))|]. cbv beta.
    rewrite <- app_assoc. apply law_eq_refl.
Qed.

(** [random_slice] draws from the windowing law. *)
Lemma random_slice_law (w : Z) (exs : list WakeWordClipExample) :
  (0 <= w)%Z -> Forall (fun ex => well_formed (audio_data ex)) exs ->
  law_eq (random_slice exs w) (window_all w exs).
Proof.
  intros Hw Hall. unfold random_slice.
  eapply law_eq_trans; [apply (random_slice_fold Hw Hall)|].
  eapply law_eq_trans; [apply (rbind_rret_l [])|]. cbv beta.
  apply rbind_rret_r.
Qed.

(** ** What a windowed clip is *)

Lemma waveform_slice (k : nat) (t sl : tensor Q) (a w : Z) :
  waveform k t -> (0 <= a)%Z -> (0 <= w)%Z -> (a + w <= Z.of_nat k)%Z ->
  slice_last a (a + w) t = Ok sl ->
  waveform (Z.to_nat w) sl
  /\ values sl = firstn (Z.to_nat w) (skipn (Z.to_nat a) (values t)).
Proof.
  intros [Hs Hlen] Ha Hw Hk Hsl.
  assert (Hn : size_last t = Ok (Z.of_nat k))
    by (unfold size_last; destruct Hs as [-> | ->]; reflexivity).
  destruct (slice_last_window t Hn Ha Hw Hk) as [sl' [Hsl' [_ [Hshape Hvals]]]].
  assert (sl' = sl) by congruence. subst sl'.
  assert (Hone : prod_dims (removelast (shape t)) = 1%nat)
    by (destruct Hs as [-> | ->]; reflexivity).
  rewrite Nat2Z.id in Hvals. specialize (Hvals Hone Hlen).
  split; [|exact Hvals].
  split.
  - rewrite Hshape. destruct Hs as [-> | ->]; [left | right]; reflexivity.
  - rewrite Hvals, length_firstn, length_skipn. lia.
Qed.

Lemma window_one_support (w n : Z) (ex : WakeWordClipExample) (p : Q)
    (r : result WakeWordClipExample) :
  (0 <= w)%Z -> sample_count ex = Ok n ->
  In (p, r) (window_one w ex) ->
  0 < p /\ exists ex', r = Ok ex' /\ windowed w ex ex'.
Proof.
  intros Hw Hn Hin. unfold window_one in Hin.
  assert (Hn' := Hn). unfold sample_count in Hn'. rewrite Hn' in Hin.
  destruct (Z.leb_spec n w) as [Hle|Hgt].
  - destruct Hin as [Heq|[]]. injection Heq as <- <-.
    split; [reflexivity|]. exists ex. split; [reflexivity|].
    split; [reflexivity|]. split; [reflexivity|].
    exists n. split; [exact Hn|]. split; [reflexivity | lia].
  - apply in_map_iff in Hin. destruct Hin as [a [Heq Ha]].
    apply zrange_In in Ha.
    destruct (@slice_last_window Q (audio_data ex) n a w Hn')
      as [sl [Hsl [Hsize _]]]; try lia.
    rewrite Hsl in Heq. injection Heq as <- <-.
    split; [reflexivity|].
    exists (emplaced_audio_data ex sl). split; [reflexivity|].
    split; [reflexivity|]. split; [reflexivity|].
    exists n. split; [exact Hn|]. split; [lia|]. intros _.
    exists a. split; [lia|]. split; [exact Hsl|]. split; [exact Hsize|].
    intros k Hk. simpl.
    assert (n = Z.of_nat k).
    { rewrite (waveform_count ex Hk) in Hn. now injection Hn. }
    apply (waveform_slice (k := k) (t := audio_data ex)); try assumption; lia.
Qed.

Lemma rbind_In {A B} (m : rand A) (k : A -> rand B) (p : Q) (r : result B) :
  In (p, r) (rbind m k) ->
  exists p1 r1,
    In (p1, r1) m
    /\ ((exists e, r1 = Err e /\ r = Err e /\ p = p1)
        \/ (exists a q, r1 = Ok a /\ In (q, r) (k a) /\ p = p1 * q)).
Proof.
  unfold rbind. rewrite in_flat_map. intros [[p1 r1] [Hin Hk]].
  exists p1, r1. split; [exact Hin|]. simpl in Hk.
  destruct r1 as [a|e].
  - right. apply in_map_iff in Hk. destruct Hk as [[q r'] [Heq Hq]].
    simpl in Heq. injection Heq as <- <-. exists a, q. auto.
  - left. destruct Hk as [Heq|[]]. injection Heq as <- <-. exists e. auto.
Qed.

Lemma window_all_support (w : Z) (exs : list WakeWordClipExample) :
  (0 <= w)%Z ->
  Forall (fun ex => exists n, sample_count ex = Ok n) exs ->
  forall p r, In (p, r) (window_all w exs) ->
    0 < p /\ exists out, r = Ok out /\ Forall2 (windowed w) exs out.
Proof.
  intros Hw Hall. induction Hall as [|ex exs [n Hn] _ IH]; intros p r Hin.
  - destruct Hin as [Heq|[]]. injection Heq as <- <-.
    split; [reflexivity|]. exists []. split; [reflexivity | constructor].
  - cbn [window_all] in Hin.
    apply rbind_In in Hin. destruct Hin as [p1 [r1 [Hin1 Hcase]]].
    destruct (@window_one_support w n ex p1 r1 Hw Hn Hin1) as [Hp1 [ex' [-> Hwin]]].
    destruct Hcase as [[e [He _]]|[a [q [Ha [Hin2 ->]]]]]; [discriminate|].
    injection Ha as <-.
    apply rbind_In in Hin2. destruct Hin2 as [p2 [r2 [Hin2 Hcase]]].
    destruct (IH _ _ Hin2) as [Hp2 [out [-> Hout]]].
    destruct Hcase as [[e [He _]]|[b [q' [Hb [Hin3 ->]]]]]; [discriminate|].
    injection Hb as <-.
    destruct Hin3 as [Heq|[]]. injection Heq as <- <-.
    split.
    + apply Qmult_lt_0_compat; [exact Hp1|].
      apply Qmult_lt_0_compat; [exact Hp2 | reflexivity].
    + exists (ex' :: out). split; [reflexivity|]. now constructor.
Qed.

Lemma law_eq_In {A} (m1 m2 : rand A) (p : Q) (r : result A) :
  law_eq m1 m2 -> In (p, r) m1 -> exists q, q == p /\ In (q, r) m2.
Proof.
  induction 1 as [|[p1 r1] [p2 r2] m1 m2 [Hp Hr] _ IH]; intros Hin.
  - destruct Hin.
  - simpl in Hp, Hr. destruct Hin as [Heq|Hin].
    + injection Heq as -> ->. exists p2. split; [now symmetry|].
      left. now subst.
    + destruct (IH Hin) as [q [Hq Hin2]]. exists q. split; [exact Hq|].
      now right.
Qed.

Lemma zrange_length (lo hi : Z) :
  length (zrange lo hi) = Z.to_nat (hi - lo + 1).
Proof. unfold zrange. now rewrite length_map, length_seq. Qed.




(** ** More on the pipeline composer *)

Section ComposerMore.

Variable V : Type.
Variable P : Type.

Lemma forward_pipeline (first : stage V P) (rest : list (stage V P))
    (args : list V) :
  Composition_forward (compose (first :: rest)) args = pipeline first rest args.
Proof.
  unfold Composition_forward, compose, Composition_init, pipeline; simpl.
  destruct (call_stage first args) as [v|e]; simpl.
  - rewrite forward_loop_thread. destruct (thread rest v); reflexivity.
  - now rewrite forward_loop_err.
Qed.

Lemma parameters_all (stages : list (stage V P)) :
  Composition_parameters (compose stages)
  = flat_map (@stage_parameters V P) stages.
Proof.
  unfold Composition_parameters, compose, Composition_init; simpl.
  apply flat_map_filter_modules.
Qed.

(** A failing stage fails the whole call with its own exception, whatever
    stages come after it: the first stage on the initial arguments, a later
    stage on the value the stages before it produced. *)
Theorem pipeline_error_propagates :
  (forall (first : stage V P) (rest : list (stage V P)) (args : list V)
          (e : error),
      call_stage first args = Err e ->
      Composition_forward (compose (first :: rest)) args = Err e)
  /\ (forall (first : stage V P) (front back : list (stage V P))
             (s : stage V P) (args : list V) (v : V) (e : error),
      Composition_forward (compose (first :: front)) args = Ok v ->
      call_stage s [v] = Err e ->
      Composition_forward (compose (first :: front ++ s :: back)) args = Err e).
Proof.
  split.
  - intros first rest args e He. rewrite forward_pipeline. unfold pipeline.
    now rewrite He.
  - intros first front back s args v e Hv He.
    rewrite forward_pipeline in *. unfold pipeline in *.
    destruct (call_stage first args) as [u|e']; simpl in *; [|discriminate].
    rewrite thread_app. rewrite Hv. simpl. now rewrite He.
Qed.

(** A composition used as a stage of another composition behaves as its own
    stages written in place, and brings the same parameters. *)
Theorem compose_nested (first : stage V P) (front rest : list (stage V P))
    (args : list V) :
  Composition_forward
    (compose (Composition_stage (compose (first :: front)) :: rest)) args
  = Composition_forward (compose (first :: front ++ rest)) args
  /\ Composition_parameters
       (compose (Composition_stage (compose (first :: front)) :: rest))
     = Composition_parameters (compose (first :: front ++ rest)).
Proof.
  split.
  - rewrite !forward_pipeline. unfold pipeline.
    change (call_stage (Composition_stage (compose (first :: front))) args)
      with (Composition_forward (compose (first :: front)) args).
    rewrite forward_pipeline. unfold pipeline.
    destruct (call_stage first args) as [v|e]; simpl; [|reflexivity].
    rewrite thread_app. destruct (thread front v); reflexivity.
  - rewrite !parameters_all.
    change (first :: front ++ rest) with ((first :: front) ++ rest).
    rewrite flat_map_app. cbn [flat_map]. f_equal.
    change (stage_parameters (Composition_stage (compose (first :: front))))
      with (Composition_parameters (compose (first :: front))).
    apply parameters_all.
Qed.

Lemma thread_identity (s : stage V P) (rest : list (stage V P)) (v : V) :
  call_stage s [v] = Ok v -> thread (s :: rest) v = thread rest v.
Proof. intros H. simpl. now rewrite H. Qed.

(** An identity stage, function or module, placed after any stage changes
    neither what the pipeline returns nor its parameters; placed first, it
    passes a single argument on. *)
Theorem identity_is_neutral (first : stage V P)
    (front back : list (stage V P)) (args : list V) (x : V) :
  Composition_forward
    (compose (first :: front ++ identity_stage V P :: back)) args
  = Composition_forward (compose (first :: front ++ back)) args
  /\ Composition_forward
       (compose (first :: front ++ IdentityTransform V P :: back)) args
     = Composition_forward (compose (first :: front ++ back)) args
  /\ Composition_parameters
       (compose (first :: front ++ identity_stage V P :: back))
     = Composition_parameters (compose (first :: front ++ back))
  /\ Composition_parameters
       (compose (first :: front ++ IdentityTransform V P :: back))
     = Composition_parameters (compose (first :: front ++ back))
  /\ Composition_forward (compose (identity_stage V P :: first :: back)) [x]
     = Composition_forward (compose (first :: back)) [x]
  /\ Composition_forward (compose (IdentityTransform V P :: first :: back)) [x]
     = Composition_forward (compose (first :: back)) [x].
Proof.
  assert (Hmid : forall s : stage V P,
             (forall v, call_stage s [v] = Ok v) ->
             Composition_forward (compose (first :: front ++ s :: back)) args
             = Composition_forward (compose (first :: front ++ back)) args).
  { intros s Hs. rewrite !forward_pipeline. unfold pipeline.
    destruct (call_stage first args) as [v|e]; simpl; [|reflexivity].
    rewrite !thread_app. destruct (thread front v) as [u|e]; simpl; [|reflexivity].
    now rewrite Hs. }
  assert (Hpar : forall s : stage V P,
             stage_parameters s = [] ->
             Composition_parameters (compose (first :: front ++ s :: back))
             = Composition_parameters (compose (first :: front ++ back))).
  { intros s Hs. rewrite !parameters_all.
    change (first :: front ++ s :: back) with ((first :: front) ++ s :: back).
    change (first :: front ++ back) with ((first :: front) ++ back).
    rewrite !flat_map_app. cbn [flat_map]. now rewrite Hs. }
  split; [apply Hmid; reflexivity|].
  split; [apply Hmid; reflexivity|].
  split; [apply Hpar; reflexivity|].
  split; [apply Hpar; reflexivity|].
  split; rewrite !forward_pipeline; reflexivity.
Qed.

End ComposerMore.

Lemma pipeline_error_propagates_witness :
  Composition_forward (compose [stage_double]) [3%Z] = Ok 6%Z
  /\ call_stage stage_failing [6%Z] = Err (StageError 7)
  /\ Composition_forward
       (compose (stage_double :: [] ++ stage_failing :: [stage_double])) [3%Z]
     = Err (StageError 7).
Proof.
  split; [reflexivity|]. split; [reflexivity|].
  exact (proj2 (pipeline_error_propagates Z nat)
           stage_double [] [stage_double] stage_failing [3%Z] 6%Z
           (StageError 7) eq_refl eq_refl).
Defined.

(** ** [initialize] and the running moments *)

Lemma initialize_Err (chunks : list (tensor Q)) (e : error) :
  fold_left (fun acc ex => s <- acc ;; update s ex None) chunks (Err e) = Err e.
Proof. induction chunks as [|c chunks IH]; simpl; auto. Qed.

Lemma initialize_cons (self : ZmuvTransform) (c : tensor Q)
    (chunks : list (tensor Q)) :
  initialize self (c :: chunks)
  = (s <- update self c None ;; initialize s chunks).
Proof.
  unfold initialize. cbn [fold_left].
  change (s <- Ok self ;; update s c None) with (update self c None).
  destruct (update self c None) as [s|e]; cbn [bind]; [reflexivity|].
  apply initialize_Err.
Qed.

Lemma update_unmasked (self : ZmuvTransform) (data : tensor Q) :
  update self data None
  = Ok (mkZmuv (total self + inject_Z (Z.of_nat (numel data)))
          (xdiv (xadd (Some (tsum data)) (xmul (mean self) (Some (total self))))
                (Some (total self + inject_Z (Z.of_nat (numel data)))))
          (xdiv (xadd (Some (tsum (tsquare data)))
                      (xmul (mean2 self) (Some (total self))))
                (Some (total self + inject_Z (Z.of_nat (numel data)))))).
Proof. reflexivity. Qed.

Lemma count_nonneg (n : nat) : 0 <= inject_Z (Z.of_nat n).
Proof. change 0 with (inject_Z 0). rewrite <- Zle_Qle. lia. Qed.

Lemma initialize_total_exact (chunks : list (tensor Q))
    (self : ZmuvTransform) :
  exists s,
    initialize self chunks = Ok s
    /\ total s == total self + total_count chunks
    /\ (0 <= total self -> 0 <= total s).
Proof.
  revert self. induction chunks as [|c chunks IH]; intros self.
  - exists self. split; [reflexivity|]. split; [simpl; ring | auto].
  - rewrite initialize_cons, update_unmasked. unfold bind.
    destruct (IH (mkZmuv (total self + inject_Z (Z.of_nat (numel c)))
        (xdiv (xadd (Some (tsum c)) (xmul (mean self) (Some (total self))))
              (Some (total self + inject_Z (Z.of_nat (numel c)))))
        (xdiv (xadd (Some (tsum (tsquare c)))
                    (xmul (mean2 self) (Some (total self))))
              (Some (total self + inject_Z (Z.of_nat (numel c)))))))
      as [s [Hs [Ht Hpos]]].
    exists s. split; [exact Hs|]. cbn [total] in *. split.
    + rewrite Ht. simpl. ring.
    + intros H0. apply Hpos. assert (Hc := count_nonneg (numel c)). lra.
Qed.

Lemma total_count_nonneg (chunks : list (tensor Q)) : 0 <= total_count chunks.
Proof.
  induction chunks as [|c chunks IH]; simpl; [apply Qle_refl|].
  assert (Hc := count_nonneg (numel c)). lra.
Qed.

Lemma initialize_rounded_cons (rnd : Q -> Q) (sum_of : list Q -> Q)
    (self : ZmuvTransform) (c : tensor Q) (chunks : list (tensor Q)) :
  exists s,
    update_rounded rnd sum_of self c None = Ok s
    /\ total s = rnd (total self + rnd (inject_Z (Z.of_nat (numel c))))
    /\ initialize_rounded rnd sum_of self (c :: chunks)
       = initialize_rounded rnd sum_of s chunks.
Proof.
  eexists. split; [reflexivity|]. split; reflexivity.
Qed.

(** In float32 the total still counts the elements exactly as long as the
    count stays below [2 ^ 24]. *)
Lemma initialize_total_float32 (sum_of : list Q -> Q)
    (chunks : list (tensor Q)) :
  forall (self : ZmuvTransform) (T : Z),
    (0 <= T)%Z -> total self == inject_Z T ->
    total self + total_count chunks < 16777216 ->
    exists s,
      initialize_rounded round_f32 sum_of self chunks = Ok s
      /\ total s == total self + total_count chunks.
Proof.
  induction chunks as [|c chunks IH]; intros self T HT Hself Hb.
  - exists self. split; [reflexivity | simpl; ring].
  - destruct (initialize_rounded_cons round_f32 sum_of self c chunks)
      as [s1 [_ [Ht1 ->]]].
    cbn [total_count fold_right] in Hb. fold (total_count chunks) in Hb.
    assert (Hrest := total_count_nonneg chunks).
    set (n := Z.of_nat (numel c)) in *.
    assert (Hn : (0 <= n)%Z) by (unfold n; lia).
    assert (Hsmall : (T + n < 16777216)%Z).
    { rewrite Zlt_Qlt, inject_Z_plus.
      change (inject_Z 16777216) with 16777216. rewrite <- Hself. lra. }
    assert (Hconv : round_f32 (inject_Z n) == inject_Z n)
      by (apply round_f32_exact; lia).
    assert (Hsum : total s1 == inject_Z (T + n)).
    { rewrite Ht1.
      rewrite (@round_f32_eq (total self + round_f32 (inject_Z n))
                 (inject_Z (T + n)))
        by (rewrite Hconv, Hself, inject_Z_plus; reflexivity).
      apply round_f32_exact. lia. }
    destruct (IH s1 (T + n)%Z ltac:(lia) Hsum) as [s [Hs Ht]].
    { rewrite Hsum, inject_Z_plus, <- Hself. lra. }
    exists s. split; [exact Hs|].
    rewrite Ht, Hsum, inject_Z_plus, <- Hself.
    cbn [total_count fold_right]. fold (total_count chunks). fold n. ring.
Qed.

(** [initialize] never raises.  In exact arithmetic the total it leaves is
    the total it found plus the number of elements of all the chunks, and a
    total that was not negative stays so.  In the float32 of the buffers the
    same count is left, exactly, from a whole total and as long as the count
    stays below [2 ^ 24]. *)
Theorem initialize_total (chunks : list (tensor Q)) (self : ZmuvTransform) :
  (exists s,
      initialize self chunks = Ok s
      /\ total s == total self + total_count chunks
      /\ (0 <= total self -> 0 <= total s))
  /\ (forall (sum_of : list Q -> Q) (T : Z),
        (0 <= T)%Z -> total self == inject_Z T ->
        total self + total_count chunks < 16777216 ->
        exists s,
          initialize_rounded round_f32 sum_of self chunks = Ok s
          /\ total s == total self + total_count chunks).
Proof.
  split.
  - apply initialize_total_exact.
  - intros sum_of T. apply initialize_total_float32.
Qed.

Lemma initialize_total_witness :
  (exists s,
      initialize ZmuvTransform_init [data_row; data_row] = Ok s
      /\ total s == 6)
  /\ exists s,
       initialize_rounded round_f32 sum_exact ZmuvTransform_init
         [data_row; data_row] = Ok s
       /\ total s == 6.
Proof.
  destruct (initialize_total [data_row; data_row] ZmuvTransform_init)
    as [[s [Hs [Ht _]]] Hf].
  split; [exists s; split; [exact Hs | rewrite Ht; reflexivity]|].
  destruct (Hf sum_exact 0%Z (Z.le_refl 0) (Qeq_refl _) eq_refl)
    as [s' [Hs' Ht']].
  exists s'. split; [exact Hs' | rewrite Ht'; reflexivity].
Defined.

Lemma update_keeps_nonfinite (self s' : ZmuvTransform) (data : tensor Q)
    (mask : option (tensor Q)) :
  update self data mask = Ok s' ->
  (mean self = None -> mean s' = None)
  /\ (mean2 self = None -> mean2 s' = None).
Proof.
  unfold update.
  destruct (match mask with
            | Some m => d <- tmul data m ;; Ok (d, tsum m)
            | None => Ok (data, inject_Z (Z.of_nat (numel data)))
            end) as [dm|e]; simpl; [|discriminate].
  intros H; injection H as <-. simpl.
  split; intros ->; reflexivity.
Qed.

Lemma initialize_keeps_nonfinite (chunks : list (tensor Q))
    (self : ZmuvTransform) :
  exists s,
    initialize self chunks = Ok s
    /\ (mean self = None -> mean s = None)
    /\ (mean2 self = None -> mean2 s = None).
Proof.
  revert self. induction chunks as [|c chunks IH]; intros self.
  - exists self. split; [reflexivity | auto].
  - rewrite initialize_cons.
    destruct (update self c None) as [s1|e] eqn:H1; [|discriminate].
    destruct (@update_keeps_nonfinite self s1 c None H1) as [Hm Hm2].
    destruct (IH s1) as [s [Hs [Km Km2]]].
    exists s. split; [exact Hs|]. split; auto.
Qed.

(** A moment that is not finite stays so: through any [update], masked or
    not, and through any [initialize].  In particular [initialize] from the
    zero state on a stream whose first chunk is empty leaves a mean and a
    mean of squares that are not finite, whatever chunks follow. *)
Theorem nonfinite_moments_persist :
  (forall (self s' : ZmuvTransform) (data : tensor Q)
          (mask : option (tensor Q)),
      update self data mask = Ok s' ->
      (mean self = None -> mean s' = None)
      /\ (mean2 self = None -> mean2 s' = None))
  /\ (forall (chunks : list (tensor Q)) (self : ZmuvTransform),
      exists s,
        initialize self chunks = Ok s
        /\ (mean self = None -> mean s = None)
        /\ (mean2 self = None -> mean2 s = None))
  /\ (forall (c : tensor Q) (rest : list (tensor Q)),
      values c = [] -> numel c = 0%nat ->
      exists s,
        initialize ZmuvTransform_init (c :: rest) = Ok s
        /\ mean s = None /\ mean2 s = None).
Proof.
  split; [exact update_keeps_nonfinite|].
  split; [exact initialize_keeps_nonfinite|].
  intros c rest Hv Hn. rewrite initialize_cons, update_unmasked. unfold bind.
  unfold tsum, tsquare. cbn [values]. rewrite Hv, Hn.
  match goal with
  | |- exists s, initialize ?s0 rest = _ /\ _ =>
      destruct (initialize_keeps_nonfinite rest s0) as [s [Hs [Hm Hm2]]]
  end.
  exists s. split; [exact Hs|]. split; [apply Hm | apply Hm2]; reflexivity.
Qed.

Lemma nonfinite_moments_persist_witness :
  values chunk_empty = [] /\ numel chunk_empty = 0%nat
  /\ exists s,
       initialize ZmuvTransform_init [chunk_empty; chunk_a; chunk_b] = Ok s
       /\ mean s = None /\ mean2 s = None.
Proof.
  split; [reflexivity|]. split; [reflexivity|].
  exact (proj2 (proj2 nonfinite_moments_persist) chunk_empty
           [chunk_a; chunk_b] eq_refl eq_refl).
Defined.

(** ** Moments of a stream of chunks *)

Lemma sum_list_app (l1 l2 : list Q) :
  sum_list (l1 ++ l2) == sum_list l1 + sum_list l2.
Proof. apply fold_sum_app. Qed.

Lemma squares_app (l1 l2 : list Q) :
  squares (l1 ++ l2) = squares l1 ++ squares l2.
Proof. apply map_app. Qed.

Lemma count_of_app (l1 l2 : list Q) :
  count_of (l1 ++ l2) == count_of l1 + count_of l2.
Proof.
  unfold count_of. rewrite length_app, Nat2Z.inj_add, inject_Z_plus.
  reflexivity.
Qed.

Lemma count_of_cons (x : Q) (l : list Q) : count_of (x :: l) == 1 + count_of l.
Proof.
  unfold count_of. cbn [length]. rewrite Nat2Z.inj_succ.
  unfold Z.succ. rewrite inject_Z_plus. change (inject_Z 1) with 1. ring.
Qed.

Lemma count_of_nonneg (l : list Q) : 0 <= count_of l.
Proof. apply count_nonneg. Qed.

(** The invariant of [initialize]: the mean times the total is the sum of
    the values seen, and likewise for the squares. *)
Lemma initialize_invariant (chunks : list (tensor Q)) :
  Forall usable_chunk chunks ->
  forall (self : ZmuvTransform) (mu mu2 s1 s2 : Q),
    mean self = Some mu -> mean2 self = Some mu2 ->
    0 <= total self ->
    mu * total self == s1 -> mu2 * total self == s2 ->
    exists s mu' mu2',
      initialize self chunks = Ok s
      /\ mean s = Some mu' /\ mean2 s = Some mu2'
      /\ total s == total self + count_of (all_values chunks)
      /\ mu' * total s == s1 + sum_list (all_values chunks)
      /\ mu2' * total s == s2 + sum_list (squares (all_values chunks)).
Proof.
  induction 1 as [|c chunks [Hwf Hne] _ IH];
    intros self mu mu2 s1 s2 Hmu Hmu2 Hpos H1 H2.
  - exists self, mu, mu2. split; [reflexivity|].
    split; [exact Hmu|]. split; [exact Hmu2|].
    unfold all_values, count_of; simpl. repeat split.
    + ring.
    + rewrite H1. ring.
    + rewrite H2. ring.
  - assert (Hc := count_positive Hne).
    assert (Hnz : ~ total self + inject_Z (Z.of_nat (numel c)) == 0) by lra.
    rewrite initialize_cons, (update_finite self c Hmu Hmu2 Hnz). unfold bind.
    assert (Hlen : inject_Z (Z.of_nat (numel c)) == count_of (values c)).
    { unfold count_of. now rewrite Hwf. }
    match goal with
    | |- context [initialize ?st chunks] =>
        pose proof (IH st _ _ (s1 + tsum c) (s2 + tsum (tsquare c))
                      eq_refl eq_refl) as IH'
    end.
    destruct IH' as [s [mu' [mu2' [Hs [Km [Km2 [Kt [K1 K2]]]]]]]].
    + cbn [total]. lra.
    + cbn [total]. rewrite <- H1. field. exact Hnz.
    + cbn [total]. rewrite <- H2. field. exact Hnz.
    + exists s, mu', mu2'. split; [exact Hs|].
      split; [exact Km|]. split; [exact Km2|].
      cbn [total] in Kt.
      unfold all_values in *. cbn [flat_map].
      rewrite count_of_app, sum_list_app, squares_app, sum_list_app.
      repeat split.
      * rewrite Kt, Hlen. ring.
      * rewrite K1. unfold tsum, sum_list. ring.
      * rewrite K2. unfold tsum, tsquare, squares, sum_list. cbn [values]. ring.
Qed.

Lemma usable_count_positive (chunks : list (tensor Q)) :
  chunks <> [] -> Forall usable_chunk chunks ->
  0 < count_of (all_values chunks).
Proof.
  intros Hne Hall. destruct chunks as [|c chunks]; [congruence|].
  inversion Hall as [|? ? [Hwf Hn] _]; subst.
  unfold all_values. cbn [flat_map]. rewrite count_of_app.
  assert (H1 : 0 < count_of (values c)).
  { unfold count_of. rewrite Hwf. now apply count_positive. }
  assert (H2 := count_of_nonneg (flat_map (@values Q) chunks)). lra.
Qed.

(** The moments that [initialize] leaves from the zero state, for a stream
    of usable chunks: finite, with the invariant of the sums. *)
Lemma initialize_sums (chunks : list (tensor Q)) :
  chunks <> [] -> Forall usable_chunk chunks ->
  exists s mu mu2,
    initialize ZmuvTransform_init chunks = Ok s
    /\ mean s = Some mu /\ mean2 s = Some mu2
    /\ total s == count_of (all_values chunks)
    /\ mu * count_of (all_values chunks) == sum_list (all_values chunks)
    /\ mu2 * count_of (all_values chunks)
       == sum_list (squares (all_values chunks)).
Proof.
  intros Hne Hall.
  destruct (@initialize_invariant chunks Hall ZmuvTransform_init 0 0 0 0
              eq_refl eq_refl)
    as [s [mu [mu2 [Hs [Hm [Hm2 [Ht [H1 H2]]]]]]]];
    try (simpl; lra).
  exists s, mu, mu2. split; [exact Hs|]. split; [exact Hm|].
  split; [exact Hm2|].
  assert (Ht' : total s == count_of (all_values chunks))
    by (rewrite Ht; simpl; ring).
  split; [exact Ht'|]. split.
  - rewrite <- Ht', H1. ring.
  - rewrite <- Ht', H2. ring.
Qed.

(** For a stream of chunks none of which is empty, [initialize] from the
    zero state leaves the moments of the whole data, as one [update] on all
    of it would: the total is the number of values, the mean is their sum
    over their number, the mean of squares is the sum of their squares over
    their number. *)
Theorem initialize_moments (chunks : list (tensor Q)) :
  chunks <> [] -> Forall usable_chunk chunks ->
  exists s mu mu2,
    initialize ZmuvTransform_init chunks = Ok s
    /\ total s == count_of (all_values chunks)
    /\ mean s = Some mu
    /\ mu == sum_list (all_values chunks) / count_of (all_values chunks)
    /\ mean2 s = Some mu2
    /\ mu2 == sum_list (squares (all_values chunks))
              / count_of (all_values chunks).
Proof.
  intros Hne Hall.
  destruct (initialize_sums Hne Hall)
    as [s [mu [mu2 [Hs [Hm [Hm2 [Ht [H1 H2]]]]]]]].
  assert (Hn := usable_count_positive Hne Hall).
  exists s, mu, mu2. split; [exact Hs|]. split; [exact Ht|].
  split; [exact Hm|]. split; [|split; [exact Hm2|]].
  - rewrite <- H1. field. lra.
  - rewrite <- H2. field. lra.
Qed.

Lemma initialize_moments_witness :
  [chunk_a; chunk_b] <> [] /\ Forall usable_chunk [chunk_a; chunk_b]
  /\ exists s mu mu2,
       initialize ZmuvTransform_init [chunk_a; chunk_b] = Ok s
       /\ total s == 3
       /\ mean s = Some mu /\ mu == 3
       /\ mean2 s = Some mu2 /\ mu2 == 41 # 3.
Proof.
  assert (Hne : [chunk_a; chunk_b] <> []) by discriminate.
  assert (Hall : Forall usable_chunk [chunk_a; chunk_b]).
  { repeat constructor; discriminate. }
  split; [exact Hne|]. split; [exact Hall|].
  destruct (initialize_moments Hne Hall)
    as [s [mu [mu2 [Hs [Ht [Hm [Hmu [Hm2 Hmu2]]]]]]]].
  exists s, mu, mu2.
  split; [exact Hs|]. split; [exact Ht|]. split; [exact Hm|].
  split; [rewrite Hmu; reflexivity|]. split; [exact Hm2|].
  rewrite Hmu2. reflexivity.
Defined.

(** ** The variance is not negative *)

Lemma sum_squares_nonneg (l : list Q) : 0 <= sum_list (squares l).
Proof.
  unfold sum_list, squares.
  induction l as [|x l IH]; simpl; [lra|].
  assert (0 <= x * x) by nra. lra.
Qed.

Lemma deviation_sum (x : Q) (l : list Q) :
  sum_list (squares (map (fun y => y - x) l))
  == sum_list (squares l) - 2 * x * sum_list l + count_of l * (x * x).
Proof.
  induction l as [|y l IH].
  - unfold count_of; simpl. ring.
  - rewrite count_of_cons. unfold sum_list, squares in *. simpl.
    rewrite IH. ring.
Qed.

(** The square of a sum is at most the number of terms times the sum of
    the squares. *)
Lemma square_of_sum (l : list Q) :
  sum_list l * sum_list l <= count_of l * sum_list (squares l).
Proof.
  induction l as [|x l IH].
  - unfold count_of; simpl. lra.
  - assert (Hd := sum_squares_nonneg (map (fun y => y - x) l)).
    rewrite deviation_sum in Hd.
    rewrite count_of_cons. unfold sum_list, squares in *. simpl.
    set (s := fold_right Qplus 0 l) in *.
    set (q := fold_right Qplus 0 (map (fun z => z * z) l)) in *.
    set (n := count_of l) in *.
    nra.
Qed.

(** After [initialize] from the zero state on a stream of chunks none of
    which is empty, the radicand of [std], [mean2 - mean ** 2], is a number
    and is not negative: in exact arithmetic the square root is defined. *)
Theorem initialize_variance_nonneg (chunks : list (tensor Q)) :
  chunks <> [] -> Forall usable_chunk chunks ->
  exists s v,
    initialize ZmuvTransform_init chunks = Ok s
    /\ variance s = Some v
    /\ 0 <= v.
Proof.
  intros Hne Hall.
  destruct (initialize_sums Hne Hall)
    as [s [mu [mu2 [Hs [Hm [Hm2 [Ht [H1 H2]]]]]]]].
  assert (Hn := usable_count_positive Hne Hall).
  assert (Hcs := square_of_sum (all_values chunks)).
  exists s, (mu2 - mu * mu). split; [exact Hs|]. split.
  - unfold variance. now rewrite Hm, Hm2.
  - rewrite <- H1, <- H2 in Hcs.
    set (n := count_of (all_values chunks)) in *.
    apply (Qmult_lt_0_le_reg_r _ _ (n * n)); [nra|].
    nra.
Qed.

Lemma initialize_variance_nonneg_witness :
  [chunk_a; chunk_b] <> [] /\ Forall usable_chunk [chunk_a; chunk_b]
  /\ exists s v,
       initialize ZmuvTransform_init [chunk_a; chunk_b] = Ok s
       /\ variance s = Some v /\ 0 <= v.
Proof.
  assert (Hne : [chunk_a; chunk_b] <> []) by discriminate.
  assert (Hall : Forall usable_chunk [chunk_a; chunk_b]).
  { repeat constructor; discriminate. }
  split; [exact Hne|]. split; [exact Hall|].
  exact (initialize_variance_nonneg Hne Hall).
Defined.

(** ** Masks of zeros and ones *)









(** ** Normalising: [std] and [forward] *)

Lemma constant_sums (c : Q) (l : list Q) :
  Forall (fun x => x == c) l ->
  sum_list l == count_of l * c
  /\ sum_list (squares l) == count_of l * (c * c).
Proof.
  induction 1 as [|x l Hx _ [I1 I2]].
  - unfold count_of; simpl. split; ring.
  - rewrite count_of_cons. unfold sum_list, squares in *. simpl.
    rewrite I1, I2, Hx. split; ring.
Qed.

Lemma forward_zero_std (sqrt : Q -> Q) (s : ZmuvTransform) (mu v : Q)
    (x : tensor Q) :
  mean s = Some mu -> variance s = Some v -> sqrt v == 0 ->
  values (Zmuv_forward sqrt s x) = map (fun _ => None) (values x).
Proof.
  intros Hm Hv Hs. unfold Zmuv_forward, std. cbn [values].
  rewrite Hm, Hv. apply map_ext. intros a. simpl.
  apply Qeq_bool_iff in Hs. now rewrite Hs.
Qed.

(** After one [update] from the zero state on data that all have one value
    [c], the mean is [c] and the variance is zero, so [std] is zero and
    [forward] divides by zero: no normalised element is finite. *)
Theorem constant_data_zero_variance (c : Q) (data : tensor Q) :
  well_formed data -> numel data <> 0%nat ->
  Forall (fun x => x == c) (values data) ->
  exists s mu mu2 v,
    update ZmuvTransform_init data None = Ok s
    /\ mean s = Some mu /\ mu == c
    /\ mean2 s = Some mu2 /\ mu2 == c * c
    /\ variance s = Some v /\ v == 0
    /\ (forall sqrt : Q -> Q,
          (forall a b, a == b -> sqrt a == sqrt b) -> sqrt 0 == 0 ->
          forall x : tensor Q,
            values (Zmuv_forward sqrt s x) = map (fun _ => None) (values x)).
Proof.
  intros Hwf Hne Hall.
  destruct (constant_sums Hall) as [S1 S2].
  assert (Hn := count_positive Hne).
  assert (Hc : inject_Z (Z.of_nat (numel data)) == count_of (values data)).
  { unfold count_of. now rewrite Hwf. }
  fold (tsum data) in S1.
  assert (S2' : tsum (tsquare data) == count_of (values data) * (c * c))
    by exact S2.
  rewrite <- Hc in S1, S2'.
  set (n := inject_Z (Z.of_nat (numel data))) in *.
  assert (Hmu : (tsum data + 0 * 0) / (0 + n) == c)
    by (rewrite S1; field; lra).
  assert (Hmu2 : (tsum (tsquare data) + 0 * 0) / (0 + n) == c * c)
    by (rewrite S2'; field; lra).
  do 4 eexists.
  split; [apply (update_once data Hne)|].
  split; [reflexivity|]. split; [exact Hmu|].
  split; [reflexivity|]. split; [exact Hmu2|].
  split; [reflexivity|].
  assert (Hv : (tsum (tsquare data) + 0 * 0) / (0 + n)
               - (tsum data + 0 * 0) / (0 + n) * ((tsum data + 0 * 0) / (0 + n))
               == 0) by (rewrite Hmu, Hmu2; ring).
  split; [exact Hv|].
  intros sqrt Hsqrt H0 x.
  eapply forward_zero_std; [reflexivity | reflexivity |].
  transitivity (sqrt 0); [apply Hsqrt; exact Hv | exact H0].
Qed.

Lemma sqrt_floor_proper (a b : Q) : a == b -> sqrt_floor a == sqrt_floor b.
Proof.
  intros H. unfold sqrt_floor. rewrite (Qred_complete _ _ H). reflexivity.
Qed.

Lemma constant_data_zero_variance_witness :
  well_formed constant_row /\ numel constant_row <> 0%nat
  /\ Forall (fun x => x == 3) (values constant_row)
  /\ exists s mu mu2 v,
       update ZmuvTransform_init constant_row None = Ok s
       /\ mean s = Some mu /\ mu == 3
       /\ mean2 s = Some mu2 /\ mu2 == 3 * 3
       /\ variance s = Some v /\ v == 0
       /\ values (Zmuv_forward sqrt_floor s data_row) = [None; None; None].
Proof.
  assert (Hne : numel constant_row <> 0%nat) by discriminate.
  assert (Hall : Forall (fun x => x == 3) (values constant_row))
    by (repeat constructor).
  split; [reflexivity|]. split; [exact Hne|]. split; [exact Hall|].
  destruct (@constant_data_zero_variance 3 constant_row eq_refl Hne Hall)
    as [s [mu [mu2 [v [H1 [H2 [H3 [H4 [H5 [H6 [H7 H8]]]]]]]]]]].
  exists s, mu, mu2, v.
  split; [exact H1|]. split; [exact H2|]. split; [exact H3|].
  split; [exact H4|]. split; [exact H5|]. split; [exact H6|].
  split; [exact H7|].
  exact (H8 sqrt_floor sqrt_floor_proper eq_refl data_row).
Defined.

Lemma broadcast_buffer_spec (s : list nat) :
  broadcast_buffer s = match s with [] => [1%nat] | _ :: _ => s end.
Proof.
  unfold broadcast_buffer, broadcast_shapes.
  destruct s as [|d0 s']; [reflexivity|].
  set (s := d0 :: s').
  destruct (rev s) as [|d r] eqn:E.
  { apply (f_equal (@rev nat)) in E. rewrite rev_involutive in E.
    discriminate. }
  assert (Hs : rev (d :: r) = s) by (rewrite <- E; apply rev_involutive).
  cbn [rev app broadcast_dims_rev].
  assert (Hr : broadcast_dims_rev r [] = Some r) by (destruct r; reflexivity).
  rewrite Hr.
  destruct (d =? 1)%nat eqn:E1; cbn [option_map].
  - apply Nat.eqb_eq in E1. subst d. exact Hs.
  - exact Hs.
Qed.

(** Before any [update], [forward] divides by a zero [std]: no normalised
    element is finite.  The output has the shape of the input, and shape
    [[1]] for an input without a dimension, which is broadcast against the
    buffers. *)
Theorem forward_before_update (sqrt : Q -> Q) (x : tensor Q) :
  sqrt 0 == 0 ->
  std sqrt ZmuvTransform_init = Some (sqrt 0)
  /\ shape (Zmuv_forward sqrt ZmuvTransform_init x)
     = match shape x with [] => [1%nat] | _ :: _ => shape x end
  /\ values (Zmuv_forward sqrt ZmuvTransform_init x)
     = map (fun _ => None) (values x).
Proof.
  intros H0. split; [reflexivity|].
  split; [apply broadcast_buffer_spec|].
  apply (@forward_zero_std sqrt ZmuvTransform_init 0 0 x);
    [reflexivity | reflexivity | exact H0].
Qed.

Lemma forward_before_update_witness :
  sqrt_floor 0 == 0
  /\ shape (Zmuv_forward sqrt_floor ZmuvTransform_init data_row) = [3%nat]
  /\ shape (Zmuv_forward sqrt_floor ZmuvTransform_init
              (mkTensor [] [1])) = [1%nat]
  /\ values (Zmuv_forward sqrt_floor ZmuvTransform_init data_row)
     = [None; None; None].
Proof.
  split; [reflexivity|].
  split; [exact (proj1 (proj2 (@forward_before_update sqrt_floor data_row
                                 (Qeq_refl _))))|].
  split; [exact (proj1 (proj2 (@forward_before_update sqrt_floor
                                 (mkTensor [] [1]) (Qeq_refl _))))|].
  exact (proj2 (proj2 (@forward_before_update sqrt_floor data_row
                         (Qeq_refl _)))).
Defined.



(** ** More on [batchify] *)

Lemma mapM_Ok_In {A B} (f : A -> result B) (l : list A) (ys : list B) :
  mapM f l = Ok ys ->
  (forall x, In x l -> exists y, f x = Ok y /\ In y ys)
  /\ (forall y, In y ys -> exists x, In x l /\ f x = Ok y).
Proof.
  intros H. apply mapM_Ok_Forall2 in H.
  induction H as [|x y l ys Hxy _ [IH1 IH2]]; split.
  - intros x [].
  - intros y [].
  - intros z [<-|Hz]; [exists y; split; [exact Hxy | now left]|].
    destruct (IH1 z Hz) as [w [Hw Hin]]. exists w. split; [exact Hw | now right].
  - intros z [<-|Hz]; [exists x; split; [now left | exact Hxy]|].
    destruct (IH2 z Hz) as [w [Hin Hw]]. exists w. split; [now right | exact Hw].
Qed.

Lemma mapM_total {A B} (f : A -> result B) (l : list A) :
  (forall x, In x l -> exists y, f x = Ok y) -> exists ys, mapM f l = Ok ys.
Proof.
  induction l as [|x l IH]; intros H; [exists []; reflexivity|].
  destruct (H x (or_introl eq_refl)) as [y Hy].
  destruct IH as [ys Hys]; [intros z Hz; apply H; now right|].
  exists (y :: ys). simpl. now rewrite Hy, Hys.
Qed.

(** A clip without a dimension makes [batchify] raise [IndexError] at the
    sort key, before any tensor is built and wherever the clip stands. *)
Theorem batchify_no_dimension_raises (exs : list WakeWordClipExample) :
  Exists (fun ex => shape (audio_data ex) = []) exs ->
  batchify exs = Err IndexError_no_dimension.
Proof.
  intros Hex. unfold batchify, sorted_reverse.
  rewrite (@mapM_one_Err _ _ sample_count exs IndexError_no_dimension);
    [reflexivity | |].
  - apply Forall_forall. intros ex _. unfold sample_count, size_last.
    destruct (shape (audio_data ex)); [right; reflexivity | left; eauto].
  - eapply Exists_impl; [|exact Hex]. intros ex H.
    unfold sample_count, size_last. now rewrite H.
Qed.

Lemma batchify_no_dimension_raises_witness :
  Exists (fun ex => shape (audio_data ex) = []) [clip_three; clip_scalar]
  /\ batchify [clip_three; clip_scalar] = Err IndexError_no_dimension.
Proof.
  assert (H : Exists (fun ex => shape (audio_data ex) = [])
                     [clip_three; clip_scalar])
    by (right; left; reflexivity).
  split; [exact H | exact (batchify_no_dimension_raises H)].
Defined.

Lemma stack_Ok_inv {A} (ts : list (tensor A)) (t : tensor A) :
  stack ts = Ok t ->
  exists t0 rest,
    ts = t0 :: rest
    /\ Forall (fun u => shape u = shape t0) ts
    /\ shape t = length ts :: shape t0.
Proof.
  unfold stack. destruct ts as [|t0 rest]; [discriminate|].
  destruct (forallb _ rest) eqn:E; [|discriminate].
  intros H; injection H as <-. exists t0, rest.
  split; [reflexivity|]. split; [|reflexivity].
  constructor; [reflexivity|].
  apply Forall_forall. intros u Hu.
  rewrite forallb_forall in E. apply shape_eqb_eq. now apply E.
Qed.

Lemma stack_same_shape {A} (ts : list (tensor A)) (s : list nat) :
  ts <> [] -> Forall (fun u => shape u = s) ts ->
  exists t, stack ts = Ok t /\ shape t = length ts :: s.
Proof.
  intros Hne Hall. destruct ts as [|t0 rest]; [congruence|].
  inversion Hall as [|? ? H0 Hrest]; subst.
  unfold stack.
  replace (forallb (fun u => shape_eqb (shape u) (shape t0)) rest) with true.
  - eexists. split; reflexivity.
  - symmetry. apply forallb_forall. intros u Hu. apply shape_eqb_eq.
    rewrite Forall_forall in Hrest. now apply Hrest.
Qed.

(** The three tensors of a batch are aligned: there is one ordering [s] of
    the input such that, at every index, the length and the label are those
    of the same example of [s]; each tensor has one entry per input example,
    and every label is 0 or 1. *)
Theorem batchify_aligned (exs : list WakeWordClipExample)
    (b : ClassificationBatch) :
  batchify exs = Ok b ->
  exists s,
    Permutation exs s
    /\ shape (lengths_tensor b) = [length exs]
    /\ shape (labels_tensor b) = [length exs]
    /\ (exists row_shape, shape (audio_tensor b) = length exs :: row_shape)
    /\ (forall i ex, nth_error s i = Some ex ->
          (exists n, sample_count ex = Ok n
                     /\ nth_error (values (lengths_tensor b)) i = Some n)
          /\ nth_error (values (labels_tensor b)) i
             = Some (Z.b2z (contains_wake_word ex)))
    /\ Forall (fun l => l = 0%Z \/ l = 1%Z) (values (labels_tensor b)).
Proof.
  intros Hb.
  destruct (batchify_Ok_inv _ Hb)
    as [s [lens [m [padded [Hs [Hl [Hm [Hp [Ha [Hlab Hlen]]]]]]]]]].
  destruct (sorted_reverse_spec _ _ Hs) as [Hperm _].
  assert (Hn := Permutation_length Hperm).
  exists s. split; [exact Hperm|].
  rewrite Hlen, Hlab. unfold tensor_of_list. cbn [shape values].
  split; [now rewrite (mapM_length _ _ Hl), Hn|].
  split; [now rewrite length_map, Hn|].
  split.
  - destruct (stack_Ok_inv _ Ha) as [t0 [rest [_ [_ Hshape]]]].
    exists (shape t0). now rewrite Hshape, (mapM_length _ _ Hp), Hn.
  - split.
    + intros i ex Hi. split.
      * apply mapM_Ok_Forall2 in Hl.
        destruct (Forall2_nth_error_left Hl i Hi) as [n [Hn1 Hn2]].
        exists n. split; assumption.
      * rewrite nth_error_map, Hi. reflexivity.
    + rewrite Forall_map. apply Forall_forall. intros ex _.
      destruct (contains_wake_word ex); [right | left]; reflexivity.
Qed.

Lemma batchify_aligned_witness :
  batchify [clip_three; clip_five; clip_three_b] = Ok batch_of_three
  /\ exists s,
       Permutation [clip_three; clip_five; clip_three_b] s
       /\ shape (lengths_tensor batch_of_three) = [3%nat]
       /\ shape (labels_tensor batch_of_three) = [3%nat].
Proof.
  split; [reflexivity|].
  destruct (@batchify_aligned [clip_three; clip_five; clip_three_b]
              batch_of_three eq_refl) as [s [H1 [H2 [H3 _]]]].
  exists s. exact (conj H1 (conj H2 H3)).
Defined.

Lemma sorted_desc_unique (l1 l2 : list Z) :
  StronglySorted (fun a c => (c <= a)%Z) l1 ->
  StronglySorted (fun a c => (c <= a)%Z) l2 ->
  Permutation l1 l2 -> l1 = l2.
Proof.
  intros H1. revert l2.
  induction H1 as [|a t1 Ht1 IH Ha]; intros l2 H2 Hperm.
  - apply Permutation_nil in Hperm. now subst.
  - destruct H2 as [|b t2 Ht2 Hb].
    + apply Permutation_sym, Permutation_nil in Hperm. discriminate.
    + assert (Hab : a = b).
      { assert (In b (a :: t1))
          by (eapply Permutation_in; [apply Permutation_sym, Hperm | now left]).
        assert (In a (b :: t2))
          by (eapply Permutation_in; [exact Hperm | now left]).
        rewrite Forall_forall in Ha, Hb.
        destruct H as [->|Hin1]; [reflexivity|].
        destruct H0 as [->|Hin2]; [reflexivity|].
        specialize (Ha b Hin1). specialize (Hb a Hin2). lia. }
      subst b. f_equal. apply IH; [exact Ht2|].
      eapply Permutation_cons_inv; exact Hperm.
Qed.

Lemma counts_map (s : list WakeWordClipExample) (lens : list Z) :
  mapM sample_count s = Ok lens -> lens = map count_or_zero s.
Proof.
  intros H. apply mapM_Ok_Forall2 in H.
  induction H as [|x k s lens Hx _ IH]; [reflexivity|].
  simpl. unfold count_or_zero at 1. rewrite Hx. now rewrite IH.
Qed.

(** Whether [batchify] returns, the lengths it records and the shape of the
    audio tensor do not depend on the order of the input: the input only
    decides the order of clips of equal sample count. *)
Theorem batchify_order_independent (exs exs' : list WakeWordClipExample)
    (b : ClassificationBatch) :
  Permutation exs exs' -> batchify exs = Ok b ->
  exists b',
    batchify exs' = Ok b'
    /\ lengths_tensor b' = lengths_tensor b
    /\ shape (audio_tensor b') = shape (audio_tensor b).
Proof.
  intros Hperm Hb.
  destruct (batchify_Ok_inv _ Hb)
    as [s [lens [m [padded [Hs [Hl [Hm [Hp [Ha [Hlab Hlen]]]]]]]]]].
  destruct (sorted_reverse_spec _ _ Hs) as [Hps [[ks [Hks Hsorted]] _]].
  assert (ks = lens) by congruence. subst ks.
  destruct (mapM_Ok_In _ _ Hl) as [Hkey _].
  destruct (mapM_Ok_In _ _ Hp) as [Hpad1 Hpad2].
  assert (Hin_s : forall x, In x exs' -> In x s).
  { intros x Hx. eapply Permutation_in; [exact Hps|].
    eapply Permutation_in; [apply Permutation_sym; exact Hperm | exact Hx]. }
  destruct (@mapM_total _ _ sample_count exs') as [ks' Hks'].
  { intros x Hx. destruct (Hkey x (Hin_s x Hx)) as [k [Hk _]]. eauto. }
  destruct (sorted_reverse_total _ _ Hks') as [s' Hs'].
  destruct (sorted_reverse_spec _ _ Hs') as [Hps' [[lens' [Hl' Hsorted']] _]].
  assert (Hss' : Permutation s s').
  { eapply perm_trans; [apply Permutation_sym; exact Hps|].
    eapply perm_trans; [exact Hperm | exact Hps']. }
  assert (Hlens : lens' = lens).
  { apply sorted_desc_unique; try assumption.
    rewrite (counts_map _ Hl), (counts_map _ Hl').
    apply Permutation_map, Permutation_sym, Hss'. }
  subst lens'.
  destruct (@mapM_total _ _ (pad_example m) s') as [padded' Hp'].
  { intros x Hx.
    destruct (Hpad1 x (Permutation_in _ (Permutation_sym Hss') Hx))
      as [y [Hy _]]. eauto. }
  destruct (stack_Ok_inv _ Ha) as [t0 [rest [Hpadded [Hshapes Hshape]]]].
  destruct (mapM_Ok_In _ _ Hp') as [_ Hpad2'].
  assert (Hshapes' : Forall (fun u => shape u = shape t0) padded').
  { apply Forall_forall. intros y' Hy'.
    destruct (Hpad2' y' Hy') as [x [Hx Hxy]].
    destruct (Hpad1 x (Permutation_in _ (Permutation_sym Hss') Hx))
      as [y [Hy Hin]].
    assert (y' = y) by congruence. subst y'.
    rewrite Forall_forall in Hshapes. now apply Hshapes. }
  assert (Hcount : length padded' = length padded).
  { rewrite (mapM_length _ _ Hp'), (mapM_length _ _ Hp).
    symmetry. apply Permutation_length, Hss'. }
  assert (Hne : padded' <> []).
  { intros ->. rewrite Hpadded in Hcount. discriminate. }
  destruct (stack_same_shape Hne Hshapes') as [t' [Ht' Hst']].
  eexists. split; [eapply batchify_steps; eassumption|].
  cbn [lengths_tensor audio_tensor].
  split; [now rewrite Hlen|].
  now rewrite Hst', Hshape, Hcount.
Qed.

Lemma batchify_order_independent_witness :
  Permutation [clip_three; clip_five; clip_three_b]
              [clip_five; clip_three_b; clip_three]
  /\ batchify [clip_three; clip_five; clip_three_b] = Ok batch_of_three
  /\ exists b',
       batchify [clip_five; clip_three_b; clip_three] = Ok b'
       /\ lengths_tensor b' = lengths_tensor batch_of_three
       /\ shape (audio_tensor b') = shape (audio_tensor batch_of_three).
Proof.
  assert (Hperm : Permutation [clip_three; clip_five; clip_three_b]
                              [clip_five; clip_three_b; clip_three]).
  { eapply perm_trans; [apply perm_swap|].
    apply perm_skip. apply perm_swap. }
  split; [exact Hperm|]. split; [reflexivity|].
  exact (@batchify_order_independent _ _ batch_of_three Hperm eq_refl).
Defined.

Lemma all_keys_filter (n : Z) (l : list WakeWordClipExample) :
  Forall (fun ex => sample_count ex = Ok n) l ->
  filter (has_key sample_count n) l = l.
Proof.
  induction 1 as [|x l Hx _ IH]; [reflexivity|].
  simpl. unfold has_key at 1. rewrite Hx, Z.eqb_refl. now rewrite IH.
Qed.

(** [sorted] leaves a sequence of clips of one sample count as it is. *)
Lemma sorted_reverse_equal_counts (n : Z) (exs : list WakeWordClipExample) :
  Forall (fun ex => sample_count ex = Ok n) exs ->
  sorted_reverse sample_count exs = Ok exs.
Proof.
  intros Hall.
  destruct (@mapM_total _ _ sample_count exs) as [ks Hks].
  { intros x Hx. rewrite Forall_forall in Hall. eauto. }
  destruct (sorted_reverse_total _ _ Hks) as [s Hs].
  destruct (sorted_reverse_spec _ _ Hs) as [Hperm [_ Hstable]].
  specialize (Hstable n).
  rewrite (all_keys_filter Hall) in Hstable.
  rewrite all_keys_filter in Hstable
    by (eapply Permutation_Forall; eassumption).
  now rewrite Hs, Hstable.
Qed.

(** On clips that all have the same number [k >= 2] of samples, [batchify]
    pads nothing and reorders nothing: the batch is the flattened waveforms
    stacked in input order, with the labels in input order and every length
    equal to [k]. *)
Theorem batchify_equal_lengths (k : nat) (exs : list WakeWordClipExample) :
  exs <> [] -> (2 <= k)%nat ->
  Forall (fun ex => waveform k (audio_data ex)) exs ->
  batchify exs
  = Ok (mkBatch
          (mkTensor [length exs; k]
             (flat_map (fun ex => values (audio_data ex)) exs))
          (tensor_of_list (map (fun ex => Z.b2z (contains_wake_word ex)) exs))
          (tensor_of_list (map (fun _ => Z.of_nat k) exs))).
Proof.
  intros Hne Hk Hall.
  assert (Hcount : Forall (fun ex => sample_count ex = Ok (Z.of_nat k)) exs).
  { eapply Forall_impl; [|exact Hall]. intros ex. apply waveform_count. }
  assert (Hl : mapM sample_count exs = Ok (map (fun _ => Z.of_nat k) exs))
    by (now apply mapM_all_Ok).
  assert (Hm : py_max (map (fun _ => Z.of_nat k) exs) = Ok (Z.of_nat k)).
  { destruct (@py_max_total (map (fun _ => Z.of_nat k) exs)) as [m Hm].
    - destruct exs; [congruence | discriminate].
    - destruct (py_max_spec _ Hm) as [_ Hin].
      apply in_map_iff in Hin. destruct Hin as [x [<- _]]. exact Hm. }
  assert (Hp : mapM (pad_example (Z.of_nat k)) exs
               = Ok (map (fun ex => mkTensor [k] (values (audio_data ex))) exs)).
  { apply mapM_all_Ok. eapply Forall_impl; [|exact Hall].
    intros ex Hw. rewrite (pad_example_flat (m := Z.of_nat k) ex Hw) by lia.
    rewrite Nat2Z.id, Nat.sub_diag. simpl.
    now rewrite app_nil_r. }
  assert (Ha := @stack_rows Q k
                  (map (fun ex => mkTensor [k] (values (audio_data ex))) exs)).
  rewrite length_map, map_map in Ha. cbn [values] in Ha.
  rewrite <- flat_map_concat_map in Ha.
  assert (Hstack := Ha ltac:(destruct exs; [congruence | discriminate])
                       ltac:(rewrite Forall_map; apply Forall_forall; reflexivity)).
  exact (@batchify_steps exs exs _ _ _ _
           (sorted_reverse_equal_counts Hcount) Hl Hm Hp Hstack).
Qed.

Lemma batchify_equal_lengths_witness :
  [clip_three; clip_three_b] <> [] /\ (2 <= 3)%nat
  /\ Forall (fun ex => waveform 3 (audio_data ex)) [clip_three; clip_three_b]
  /\ batchify [clip_three; clip_three_b]
     = Ok (mkBatch (mkTensor [2%nat; 3%nat] [1; 2; 3; 4; 5; 6])
             (mkTensor [2%nat] [0; 1]%Z) (mkTensor [2%nat] [3; 3]%Z)).
Proof.
  assert (Hne : [clip_three; clip_three_b] <> []) by discriminate.
  assert (Hk : (2 <= 3)%nat) by lia.
  assert (Hall : Forall (fun ex => waveform 3 (audio_data ex))
                        [clip_three; clip_three_b]).
  { constructor; [split; [right; reflexivity | reflexivity]|].
    constructor; [split; [left; reflexivity | reflexivity]|].
    constructor. }
  split; [exact Hne|]. split; [exact Hk|]. split; [exact Hall|].
  exact (batchify_equal_lengths Hne Hk Hall).
Defined.

(** ** [random_slice] returns a probability law *)

Lemma mass_app {A} (m n : rand A) : mass (m ++ n) == mass m + mass n.
Proof. unfold mass. rewrite map_app. apply sum_list_app. Qed.

Lemma mass_scale {A} (p : Q) (m : rand A) : mass (scale p m) == p * mass m.
Proof.
  unfold mass, sum_list. induction m as [|x m IH]; simpl; [ring|].
  rewrite IH. ring.
Qed.

Lemma mass_rbind {A B} (m : rand A) (k : A -> rand B) :
  (forall a, mass (k a) == 1) -> mass (rbind m k) == mass m.
Proof.
  intros Hk. induction m as [|[p r] m IH]; [reflexivity|].
  rewrite rbind_cons, mass_app, IH.
  change (mass ((p, r) :: m)) with (p + mass m).
  destruct r as [a|e].
  - rewrite mass_scale, Hk. ring.
  - unfold mass, sum_list. simpl. ring.
Qed.

Lemma mass_constant {X A} (w : Q) (r : X -> result A) (l : list X) :
  mass (map (fun x => (w, r x)) l) == inject_Z (Z.of_nat (length l)) * w.
Proof.
  unfold mass, sum_list. induction l as [|x l IH].
  - simpl. ring.
  - cbn [map fold_right fst length]. rewrite IH, Nat2Z.inj_succ.
    unfold Z.succ. rewrite inject_Z_plus. change (inject_Z 1) with 1. ring.
Qed.

Lemma mass_randint (lo hi : Z) : mass (randint lo hi) == 1.
Proof.
  unfold randint. destruct (Z.ltb_spec hi lo) as [Hlt|Hge].
  - reflexivity.
  - rewrite mass_constant, zrange_length.
    rewrite Z2Nat.id by lia.
    unfold Qeq, inject_Z. simpl. rewrite Z2Pos.id by lia. lia.
Qed.

Lemma mass_rret {A} (a : A) : mass (rret a) == 1.
Proof. reflexivity. Qed.

Lemma mass_rlift {A} (r : result A) : mass (rlift r) == 1.
Proof. reflexivity. Qed.

Lemma mass_step (w : Z) (pre : list WakeWordClipExample)
    (ex : WakeWordClipExample) :
  mass (random_slice_step w pre ex) == 1.
Proof.
  unfold random_slice_step. rewrite mass_rbind; [apply mass_rlift|].
  intros n. destruct (n <? w)%Z; [apply mass_rret|].
  rewrite mass_rbind; [apply mass_randint|].
  intros a. rewrite mass_rbind; [apply mass_rlift|].
  intros sl. apply mass_rret.
Qed.

Lemma positive_scale {A} (p : Q) (m : rand A) :
  0 < p -> positive_law m -> positive_law (scale p m).
Proof.
  intros Hp Hm. unfold positive_law, scale. rewrite Forall_map.
  eapply Forall_impl; [|exact Hm]. intros [q r] Hq. simpl in *.
  now apply Qmult_lt_0_compat.
Qed.

Lemma positive_rbind {A B} (m : rand A) (k : A -> rand B) :
  positive_law m -> (forall a, positive_law (k a)) ->
  positive_law (rbind m k).
Proof.
  intros Hm Hk. induction Hm as [|[p r] m Hp _ IH]; [constructor|].
  rewrite rbind_cons. apply Forall_app. split; [|exact IH].
  destruct r as [a|e].
  - now apply positive_scale.
  - constructor; [exact Hp | constructor].
Qed.

Lemma positive_randint (lo hi : Z) : positive_law (randint lo hi).
Proof.
  unfold randint. destruct (hi <? lo)%Z.
  - constructor; [reflexivity | constructor].
  - unfold positive_law. rewrite Forall_map. apply Forall_forall.
    intros a _. reflexivity.
Qed.

Lemma positive_unit {A} (r : result A) : positive_law (rlift r).
Proof. constructor; [reflexivity | constructor]. Qed.

Lemma positive_step (w : Z) (pre : list WakeWordClipExample)
    (ex : WakeWordClipExample) :
  positive_law (random_slice_step w pre ex).
Proof.
  unfold random_slice_step. apply positive_rbind; [apply positive_unit|].
  intros n. destruct (n <? w)%Z; [apply positive_unit|].
  apply positive_rbind; [apply positive_randint|].
  intros a. apply positive_rbind; [apply positive_unit|].
  intros sl. apply positive_unit.
Qed.

(** Whatever the clips and the window size, the outcomes of [random_slice]
    (batches and raised exceptions together) have positive probabilities
    that add up to one. *)
Theorem random_slice_is_a_law (exs : list WakeWordClipExample) (w : Z) :
  mass (random_slice exs w) == 1 /\ positive_law (random_slice exs w).
Proof.
  unfold random_slice.
  assert (H : forall acc : rand (list WakeWordClipExample),
             mass acc == 1 -> positive_law acc ->
             mass (fold_left (fun acc ex =>
                      rbind acc (fun new_examples =>
                        random_slice_step w new_examples ex)) exs acc) == 1
             /\ positive_law
                  (fold_left (fun acc ex =>
                      rbind acc (fun new_examples =>
                        random_slice_step w new_examples ex)) exs acc)).
  { induction exs as [|ex exs IH]; intros acc Hm Hp; [now split|].
    cbn [fold_left]. apply IH.
    - rewrite mass_rbind; [exact Hm|]. intros pre. apply mass_step.
    - apply positive_rbind; [exact Hp|]. intros pre. apply positive_step. }
  apply H; [apply mass_rret | apply positive_unit].
Qed.

(** ** Windowed clips: sizes, well-formedness, a second pass, batching *)

Lemma prod_dims_app (s1 s2 : list nat) :
  prod_dims (s1 ++ s2) = (prod_dims s1 * prod_dims s2)%nat.
Proof.
  unfold prod_dims. induction s1 as [|d s1 IH]; simpl; [lia|].
  rewrite IH. lia.
Qed.

Lemma length_concat_rows {A} (w : nat) (rows : list (list A)) :
  Forall (fun r => length r = w) rows ->
  length (concat rows) = (length rows * w)%nat.
Proof.
  induction 1 as [|r rows Hr _ IH]; simpl; [reflexivity|].
  rewrite length_app, IH, Hr. reflexivity.
Qed.

(** A window cut from a well-formed tensor is well formed. *)
Lemma slice_last_well_formed {A} (t sl : tensor A) (n a w : Z) :
  well_formed t -> size_last t = Ok n ->
  (0 <= a)%Z -> (0 <= w)%Z -> (a + w <= n)%Z ->
  slice_last a (a + w) t = Ok sl -> well_formed sl.
Proof.
  unfold well_formed, numel. intros Hwf Hn Ha Hw Hle.
  unfold size_last in Hn. unfold slice_last.
  destruct (shape t) as [|d ds] eqn:Hs; [discriminate|].
  injection Hn as <-. rewrite !clamp_index_inside by lia.
  replace (Z.to_nat (a + w - a)) with (Z.to_nat w) by lia.
  intros H; injection H as <-. cbn [shape values].
  rewrite prod_dims_last in Hwf.
  rewrite prod_dims_app. cbn [prod_dims fold_right].
  rewrite (@length_concat_rows A (Z.to_nat w)).
  - rewrite length_map, chunks_length. now rewrite Nat.mul_1_r.
  - rewrite Forall_map.
    eapply Forall_impl;
      [|apply chunks_Forall_length; apply Nat.eq_le_incl; symmetry; exact Hwf].
    intros c Hc. cbv beta in Hc. rewrite slice_list_window by lia.
    rewrite length_firstn, length_skipn. lia.
Qed.

Lemma windowed_count (w : Z) (ex ex' : WakeWordClipExample) :
  windowed w ex ex' ->
  exists n, sample_count ex = Ok n /\ sample_count ex' = Ok (Z.min n w).
Proof.
  intros [_ [_ [n [Hn [Hle Hgt]]]]]. exists n. split; [exact Hn|].
  destruct (Z.le_gt_cases n w) as [H|H].
  - rewrite (Hle H), Z.min_l by lia. exact Hn.
  - destruct (Hgt H) as [a [_ [_ [Hc _]]]]. now rewrite Z.min_r by lia.
Qed.

Lemma windowed_well_formed (w : Z) (ex ex' : WakeWordClipExample) :
  (0 <= w)%Z -> well_formed (audio_data ex) -> windowed w ex ex' ->
  well_formed (audio_data ex').
Proof.
  intros Hw Hwf [_ [_ [n [Hn [Hle Hgt]]]]].
  destruct (Z.le_gt_cases n w) as [H|H].
  - now rewrite (Hle H).
  - destruct (Hgt H) as [a [Ha [Hsl _]]].
    apply (@slice_last_well_formed Q (audio_data ex) _ n a w); try assumption;
      lia.
Qed.

(** The outcomes of [random_slice] on clips that have a sample count. *)
Lemma random_slice_support (exs : list WakeWordClipExample) (w : Z) (p : Q)
    (r : result (list WakeWordClipExample)) :
  (0 <= w)%Z ->
  Forall (fun ex => well_formed (audio_data ex)) exs ->
  Forall (fun ex => exists n, sample_count ex = Ok n) exs ->
  In (p, r) (random_slice exs w) ->
  exists out, r = Ok out /\ Forall2 (windowed w) exs out.
Proof.
  intros Hw Hwf Hdims Hin.
  destruct (@law_eq_In _ _ _ p r (random_slice_law Hw Hwf) Hin)
    as [q [_ Hin']].
  destruct (@window_all_support w exs Hw Hdims q r Hin') as [_ H]. exact H.
Qed.

(** No clip that [random_slice] returns is longer than the window: a clip
    of [n] samples comes out with [min(n, w)] samples, and it stays a
    well-formed tensor. *)
Theorem random_slice_counts (exs : list WakeWordClipExample) (w : Z) (p : Q)
    (r : result (list WakeWordClipExample)) :
  (0 <= w)%Z ->
  Forall (fun ex => well_formed (audio_data ex)) exs ->
  Forall (fun ex => exists n, sample_count ex = Ok n) exs ->
  In (p, r) (random_slice exs w) ->
  exists out,
    r = Ok out
    /\ Forall2 (fun ex ex' =>
                  exists n, sample_count ex = Ok n
                            /\ sample_count ex' = Ok (Z.min n w)
                            /\ well_formed (audio_data ex'))
               exs out.
Proof.
  intros Hw Hwf Hdims Hin.
  destruct (@random_slice_support exs w p r Hw Hwf Hdims Hin) as [out [-> Hout]].
  exists out. split; [reflexivity|].
  clear Hin Hdims. revert Hwf.
  induction Hout as [|ex ex' exs out Hx _ IH]; intros Hwf; constructor.
  - destruct (windowed_count Hx) as [n [H1 H2]]. exists n.
    split; [exact H1|]. split; [exact H2|].
    inversion Hwf; subst.
    eapply windowed_well_formed; eassumption.
  - inversion Hwf; subst. now apply IH.
Qed.

Lemma random_slice_counts_witness :
  (0 <= 3)%Z
  /\ Forall (fun ex => well_formed (audio_data ex)) [clip_three; clip_five]
  /\ Forall (fun ex => exists n, sample_count ex = Ok n) [clip_three; clip_five]
  /\ In (1 # 3,
         Ok [clip_three;
             emplaced_audio_data clip_five
               (mkTensor [1%nat; 3%nat] [8; 9; 10])])
        (random_slice [clip_three; clip_five] 3)
  /\ exists out,
       Ok [clip_three;
           emplaced_audio_data clip_five (mkTensor [1%nat; 3%nat] [8; 9; 10])]
       = Ok out
       /\ Forall2 (fun ex ex' =>
                     exists n, sample_count ex = Ok n
                               /\ sample_count ex' = Ok (Z.min n 3)
                               /\ well_formed (audio_data ex'))
                  [clip_three; clip_five] out.
Proof.
  assert (Hw : (0 <= 3)%Z) by discriminate.
  assert (Hwf : Forall (fun ex => well_formed (audio_data ex))
                       [clip_three; clip_five]) by (repeat constructor).
  assert (Hd : Forall (fun ex => exists n, sample_count ex = Ok n)
                      [clip_three; clip_five]).
  { constructor; [exists 3%Z; reflexivity|].
    constructor; [exists 5%Z; reflexivity | constructor]. }
  assert (Hin : In (1 # 3,
                    Ok [clip_three;
                        emplaced_audio_data clip_five
                          (mkTensor [1%nat; 3%nat] [8; 9; 10])])
                   (random_slice [clip_three; clip_five] 3))
    by (right; left; reflexivity).
  split; [exact Hw|]. split; [exact Hwf|]. split; [exact Hd|].
  split; [exact Hin|].
  exact (@random_slice_counts _ _ _ _ Hw Hwf Hd Hin).
Defined.

Lemma window_all_short (w : Z) (exs : list WakeWordClipExample) :
  Forall (fun ex => exists n, sample_count ex = Ok n /\ (n <= w)%Z) exs ->
  law_eq (window_all w exs) (rret exs).
Proof.
  induction 1 as [|ex exs [n [Hn Hle]] _ IH]; [apply law_eq_refl|].
  cbn [window_all].
  assert (H1 : window_one w ex = rret ex).
  { unfold window_one. unfold sample_count in Hn. rewrite Hn.
    destruct (Z.leb_spec n w); [reflexivity | lia]. }
  rewrite H1.
  eapply law_eq_trans; [apply (rbind_rret_l ex)|]. cbv beta.
  eapply law_eq_trans;
    [apply rbind_law_eq; [exact IH | intros a; apply law_eq_refl]|].
  apply (rbind_rret_l exs).
Qed.

Lemma random_slice_short_law (w : Z) (exs : list WakeWordClipExample) :
  (0 <= w)%Z ->
  Forall (fun ex => well_formed (audio_data ex)) exs ->
  Forall (fun ex => exists n, sample_count ex = Ok n /\ (n <= w)%Z) exs ->
  law_eq (random_slice exs w) (rret exs).
Proof.
  intros Hw Hwf Hshort.
  eapply law_eq_trans; [apply (random_slice_law Hw Hwf)|].
  now apply window_all_short.
Qed.

(** A second pass of [random_slice] with the same window changes nothing:
    on any sequence that a first pass returned, it returns that sequence
    with probability one. *)
Theorem random_slice_idempotent (exs out : list WakeWordClipExample) (w : Z)
    (p : Q) :
  (0 <= w)%Z ->
  Forall (fun ex => well_formed (audio_data ex)) exs ->
  Forall (fun ex => exists n, sample_count ex = Ok n) exs ->
  In (p, Ok out) (random_slice exs w) ->
  law_eq (random_slice out w) (rret out).
Proof.
  intros Hw Hwf Hdims Hin.
  destruct (@random_slice_support exs w p (Ok out) Hw Hwf Hdims Hin)
    as [out' [Heq Hout]].
  injection Heq as <-.
  assert (H : Forall (fun ex => well_formed (audio_data ex)) out
              /\ Forall (fun ex => exists n, sample_count ex = Ok n
                                             /\ (n <= w)%Z) out).
  { clear Hin Hdims. revert Hwf.
    induction Hout as [|ex ex' exs out Hx _ IH]; intros Hwf;
      [split; constructor|].
    inversion Hwf; subst. destruct (IH H2) as [I1 I2].
    split; constructor; try assumption.
    - eapply windowed_well_formed; eassumption.
    - destruct (windowed_count Hx) as [n [_ Hc]].
      exists (Z.min n w). split; [exact Hc | lia]. }
  apply random_slice_short_law; [exact Hw | apply H | apply H].
Qed.

Lemma random_slice_idempotent_witness :
  (0 <= 3)%Z
  /\ In (1 # 3,
         Ok [clip_three;
             emplaced_audio_data clip_five
               (mkTensor [1%nat; 3%nat] [8; 9; 10])])
        (random_slice [clip_three; clip_five] 3)
  /\ law_eq
       (random_slice
          [clip_three;
           emplaced_audio_data clip_five (mkTensor [1%nat; 3%nat] [8; 9; 10])]
          3)
       (rret [clip_three;
              emplaced_audio_data clip_five
                (mkTensor [1%nat; 3%nat] [8; 9; 10])]).
Proof.
  assert (Hw : (0 <= 3)%Z) by discriminate.
  assert (Hwf : Forall (fun ex => well_formed (audio_data ex))
                       [clip_three; clip_five]) by (repeat constructor).
  assert (Hd : Forall (fun ex => exists n, sample_count ex = Ok n)
                      [clip_three; clip_five]).
  { constructor; [exists 3%Z; reflexivity|].
    constructor; [exists 5%Z; reflexivity | constructor]. }
  assert (Hin : In (1 # 3,
                    Ok [clip_three;
                        emplaced_audio_data clip_five
                          (mkTensor [1%nat; 3%nat] [8; 9; 10])])
                   (random_slice [clip_three; clip_five] 3))
    by (right; left; reflexivity).
  split; [exact Hw|]. split; [exact Hin|].
  exact (@random_slice_idempotent _ _ _ _ Hw Hwf Hd Hin).
Defined.

Lemma flattens_well_formed (ex : WakeWordClipExample) :
  flattens ex ->
  well_formed (audio_data ex) /\ exists n, sample_count ex = Ok n.
Proof.
  intros [n [_ Hw]]. split.
  - destruct Hw as [[Hs|Hs] Hlen]; unfold well_formed, numel; rewrite Hs;
      simpl; lia.
  - exists (Z.of_nat n). now apply waveform_count.
Qed.

Lemma windowed_flattens (w : Z) (ex ex' : WakeWordClipExample) :
  (2 <= w)%Z -> flattens ex -> windowed w ex ex' -> flattens ex'.
Proof.
  intros Hw [k [Hk Hwave]] [_ [_ [n [Hn [Hle Hgt]]]]].
  destruct (Z.le_gt_cases n w) as [H|H].
  - rewrite (Hle H). now exists k.
  - destruct (Hgt H) as [a [_ [_ [_ Hwin]]]].
    exists (Z.to_nat w). split; [lia|]. apply (Hwin k Hwave).
Qed.

(** Windowing, then batching: for a window of at least two samples and a
    non-empty batch of clips of at least two samples, [batchify] returns a
    batch on every sequence that [random_slice] can return, with one row per
    clip and rows no longer than the window. *)
Theorem random_slice_then_batchify (exs : list WakeWordClipExample) (w : Z)
    (p : Q) (r : result (list WakeWordClipExample)) :
  (2 <= w)%Z -> exs <> [] -> Forall flattens exs ->
  In (p, r) (random_slice exs w) ->
  exists out b cols,
    r = Ok out
    /\ batchify out = Ok b
    /\ shape (audio_tensor b) = [length exs; cols]
    /\ (Z.of_nat cols <= w)%Z
    /\ shape (lengths_tensor b) = [length exs].
Proof.
  intros Hw Hne Hflat Hin.
  assert (Hwf : Forall (fun ex => well_formed (audio_data ex)) exs).
  { eapply Forall_impl; [|exact Hflat]. intros ex H.
    apply (flattens_well_formed H). }
  assert (Hdims : Forall (fun ex => exists n, sample_count ex = Ok n) exs).
  { eapply Forall_impl; [|exact Hflat]. intros ex H.
    apply (flattens_well_formed H). }
  destruct (@random_slice_support exs w p r ltac:(lia) Hwf Hdims Hin)
    as [out [-> Hout]].
  assert (Hlen : length out = length exs)
    by (symmetry; exact (Forall2_length Hout)).
  assert (Hflat' : Forall flattens out
                   /\ Forall (fun ex' => exists n, sample_count ex' = Ok n
                                                   /\ (n <= w)%Z) out).
  { clear Hin Hwf Hdims Hlen Hne. revert Hflat.
    induction Hout as [|ex ex' exs out Hx _ IH]; intros Hflat;
      [split; constructor|].
    inversion Hflat; subst. destruct (IH H2) as [I1 I2].
    split; constructor; try assumption.
    - eapply windowed_flattens; eassumption.
    - destruct (windowed_count Hx) as [n [_ Hc]].
      exists (Z.min n w). split; [exact Hc | lia]. }
  destruct Hflat' as [Hflat' Hshort].
  assert (Hne' : out <> []).
  { destruct out; [|discriminate]. destruct exs; [congruence | discriminate]. }
  destruct (batchify_pads Hne' Hflat')
    as [b [s [lens [m [Hb [Hs [Hl [Hm [Hshape [Hlens _]]]]]]]]]].
  exists out, b, (Z.to_nat m).
  split; [reflexivity|]. split; [exact Hb|].
  split; [now rewrite Hshape, Hlen|]. split.
  - destruct (py_max_spec _ Hm) as [_ Hin_m].
    destruct (mapM_Ok_In _ _ Hl) as [_ Hback].
    destruct (Hback m Hin_m) as [x [Hx Hcx]].
    destruct (sorted_reverse_spec _ _ Hs) as [Hperm _].
    assert (Hx' : In x out)
      by (eapply Permutation_in; [apply Permutation_sym; exact Hperm | exact Hx]).
    rewrite Forall_forall in Hshort.
    destruct (Hshort x Hx') as [n [Hn Hle]].
    assert (m = n) by congruence. subst n. lia.
  - rewrite Hlens. unfold tensor_of_list. cbn [shape].
    rewrite (mapM_length _ _ Hl).
    destruct (sorted_reverse_spec _ _ Hs) as [Hperm _].
    now rewrite <- (Permutation_length Hperm), Hlen.
Qed.

Lemma random_slice_then_batchify_witness :
  (2 <= 3)%Z /\ [clip_three; clip_five] <> []
  /\ Forall flattens [clip_three; clip_five]
  /\ In (1 # 3,
         Ok [clip_three;
             emplaced_audio_data clip_five
               (mkTensor [1%nat; 3%nat] [8; 9; 10])])
        (random_slice [clip_three; clip_five] 3)
  /\ exists out b cols,
       Ok [clip_three;
           emplaced_audio_data clip_five (mkTensor [1%nat; 3%nat] [8; 9; 10])]
       = Ok out
       /\ batchify out = Ok b
       /\ shape (audio_tensor b) = [2%nat; cols]
       /\ (Z.of_nat cols <= 3)%Z
       /\ shape (lengths_tensor b) = [2%nat].
Proof.
  assert (Hw : (2 <= 3)%Z) by discriminate.
  assert (Hne : [clip_three; clip_five] <> []) by discriminate.
  assert (Hflat : Forall flattens [clip_three; clip_five]).
  { constructor.
    - exists 3%nat. split; [lia|]. split; [right; reflexivity | reflexivity].
    - constructor; [|constructor].
      exists 5%nat. split; [lia|]. split; [right; reflexivity | reflexivity]. }
  assert (Hin : In (1 # 3,
                    Ok [clip_three;
                        emplaced_audio_data clip_five
                          (mkTensor [1%nat; 3%nat] [8; 9; 10])])
                   (random_slice [clip_three; clip_five] 3))
    by (right; left; reflexivity).
  split; [exact Hw|]. split; [exact Hne|]. split; [exact Hflat|].
  split; [exact Hin|].
  exact (@random_slice_then_batchify _ _ _ _ Hw Hne Hflat Hin).
Defined.

Lemma slice_last_Err {A} (a b : Z) (t : tensor A) (e : error) :
  slice_last a b t = Err e -> e = IndexError_no_dimension.
Proof.
  unfold slice_last. destruct (shape t); [|discriminate].
  intros H; now injection H.
Qed.

Lemma window_one_Err (w : Z) (ex : WakeWordClipExample) (p : Q) (e : error) :
  In (p, Err e) (window_one w ex) -> e = IndexError_no_dimension.
Proof.
  unfold window_one.
  destruct (size_last (audio_data ex)) as [n|e'] eqn:Hn.
  - destruct (n <=? w)%Z.
    + intros [H|[]]. discriminate.
    + rewrite in_map_iff. intros [a [H _]].
      destruct (slice_last a (a + w) (audio_data ex)) eqn:Hsl; [discriminate|].
      injection H as _ <-. now apply slice_last_Err in Hsl.
  - intros [H|[]]. injection H as _ <-. now apply size_last_Err in Hn.
Qed.

Lemma window_all_no_dimension (w : Z) (exs : list WakeWordClipExample) :
  Exists (fun ex => shape (audio_data ex) = []) exs ->
  forall p r, In (p, r) (window_all w exs) ->
    r = Err IndexError_no_dimension.
Proof.
  induction exs as [|ex exs IH]; intros Hex p r Hin; [inversion Hex|].
  cbn [window_all] in Hin.
  apply rbind_In in Hin. destruct Hin as [p1 [r1 [Hin1 Hcase]]].
  destruct Hcase as [[e [-> [-> _]]]|[ex' [q [-> [Hin2 _]]]]].
  - now rewrite (@window_one_Err _ _ _ _ Hin1).
  - inversion Hex as [? ? Hhere|? ? Hrest]; subst.
    + exfalso. unfold window_one, size_last in Hin1. rewrite Hhere in Hin1.
      destruct Hin1 as [H|[]]. discriminate.
    + apply rbind_In in Hin2. destruct Hin2 as [p2 [r2 [Hin2 Hcase]]].
      rewrite (IH Hrest _ _ Hin2) in Hcase.
      destruct Hcase as [[e [He [-> _]]]|[b [q' [Hb _]]]];
        [now injection He as <- | discriminate].
Qed.

(** A clip without a dimension makes [random_slice] raise [IndexError],
    wherever it stands and whatever is drawn for the clips before it. *)
Theorem random_slice_no_dimension_raises (exs : list WakeWordClipExample)
    (w : Z) (p : Q) (r : result (list WakeWordClipExample)) :
  (0 <= w)%Z ->
  Forall (fun ex => well_formed (audio_data ex)) exs ->
  Exists (fun ex => shape (audio_data ex) = []) exs ->
  In (p, r) (random_slice exs w) ->
  r = Err IndexError_no_dimension.
Proof.
  intros Hw Hwf Hex Hin.
  destruct (@law_eq_In _ _ _ p r (random_slice_law Hw Hwf) Hin)
    as [q [_ Hin']].
  exact (@window_all_no_dimension w exs Hex q r Hin').
Qed.

Lemma random_slice_no_dimension_raises_witness :
  (0 <= 3)%Z
  /\ Forall (fun ex => well_formed (audio_data ex)) [clip_five; clip_scalar]
  /\ Exists (fun ex => shape (audio_data ex) = []) [clip_five; clip_scalar]
  /\ In (1 # 3, Err IndexError_no_dimension)
        (random_slice [clip_five; clip_scalar] 3)
  /\ @Err (list WakeWordClipExample) IndexError_no_dimension
     = Err IndexError_no_dimension.
Proof.
  assert (Hw : (0 <= 3)%Z) by discriminate.
  assert (Hwf : Forall (fun ex => well_formed (audio_data ex))
                       [clip_five; clip_scalar]) by (repeat constructor).
  assert (Hex : Exists (fun ex => shape (audio_data ex) = [])
                       [clip_five; clip_scalar]) by (right; left; reflexivity).
  assert (Hin : In (1 # 3, Err IndexError_no_dimension)
                   (random_slice [clip_five; clip_scalar] 3))
    by (left; reflexivity).
  split; [exact Hw|]. split; [exact Hwf|]. split; [exact Hex|].
  split; [exact Hin|].
  exact (@random_slice_no_dimension_raises _ _ _ _ Hw Hwf Hex Hin).
Defined.

(** ** [StandardAudioTransform]: frames and length masks *)

Lemma stft_frames_positive (m : MelSpectrogram) (n f : Z) :
  stft_frames m n = Ok f -> (1 <= f)%Z.
Proof.
  unfold stft_frames. cbv zeta.
  set (padded := if center m then _ else _).
  match goal with
  | |- (if ?c then _ else _) = _ -> _ => destruct c eqn:E; [discriminate|]
  end.
  apply orb_false_iff in E. destruct E as [E Hpad].
  apply orb_false_iff in E. destruct E as [E _].
  apply orb_false_iff in E. destruct E as [E _].
  apply orb_false_iff in E. destruct E as [E _].
  apply orb_false_iff in E. destruct E as [_ Hhop].
  apply Z.leb_gt in Hhop. apply Z.ltb_ge in Hpad.
  intros Hf.
  assert (Hf' : (1 + (padded - n_fft m) / hop_length m)%Z = f) by congruence.
  assert (0 <= (padded - n_fft m) / hop_length m)%Z
    by (apply Z.div_pos; lia).
  lia.
Qed.

(** With a centred spectrogram, which is the default, the lengths of
    [compute_lengths] stay inside the time axis of [forward]: for a waveform
    of at least a window of samples (and, under float32 division, of a
    sample count of [float32_exact]) the length is at least one and at most
    the number of frames. *)
Theorem compute_lengths_within_frames
    (mel_kernel : MelSpectrogram -> list Q -> list Q)
    (ln : Q -> Q) (delta_kernel : list Q -> list Q)
    (div : tensor_division) (self : StandardAudioTransform)
    (audio : tensor Q) (n : Z) :
  center (spec_transform self) = true ->
  (0 <= pad (spec_transform self))%Z ->
  (0 < hop_length (spec_transform self))%Z ->
  (0 < win_length (spec_transform self) <= n_fft (spec_transform self))%Z ->
  (win_length (spec_transform self) <= n)%Z ->
  (n_fft (spec_transform self) / 2 < n + 2 * pad (spec_transform self))%Z ->
  float32_exact div self n ->
  size_last audio = Ok n ->
  exists out frames,
    forward mel_kernel ln delta_kernel self audio = Ok out
    /\ time_frames out = Ok frames
    /\ (1 <= compute_length div self n <= frames)%Z.
Proof.
  intros Hc Hp Hh [Hw Hle] Hn Hhalf Hexact Hsize.
  destruct (compute_length_floor div self Hh Hn Hexact) as [Hcl Hfl].
  rewrite Hcl, Hfl. clear Hcl Hfl Hexact.
  set (m := spec_transform self) in *.
  assert (Hodd : (n_fft m - 1 <= 2 * (n_fft m / 2) <= n_fft m)%Z).
  { assert (H := Z.div_mod (n_fft m) 2 ltac:(lia)).
    assert (H' := Z.mod_pos_bound (n_fft m) 2 ltac:(lia)). lia. }
  assert (Hf : stft_frames m n
               = Ok (1 + (n + 2 * pad m + 2 * (n_fft m / 2) - n_fft m)
                         / hop_length m)%Z).
  { unfold stft_frames. rewrite Hc. cbn [andb orb].
    repeat match goal with
           | |- context [(?a <=? ?b)%Z] => destruct (Z.leb_spec a b); [lia|]
           | |- context [(?a <? ?b)%Z] => destruct (Z.ltb_spec a b); [lia|]
           end.
    reflexivity. }
  assert (Hpos := stft_frames_positive _ _ Hf).
  destruct (@forward_frames mel_kernel ln delta_kernel self audio _ _
              Hsize Hf ltac:(lia)) as [out [Hout [Ht _]]].
  exists out. eexists. split; [exact Hout|]. split; [exact Ht|].
  assert (H0 : (0 <= (n - win_length m) / hop_length m)%Z)
    by (apply Z.div_pos; lia).
  assert (H1 : ((n - win_length m) / hop_length m
                <= (n + 2 * pad m + 2 * (n_fft m / 2) - n_fft m)
                   / hop_length m)%Z)
    by (apply Z.div_le_mono; lia).
  lia.
Qed.

Lemma compute_lengths_within_frames_witness :
  center (spec_transform default_transform) = true
  /\ (0 <= pad (spec_transform default_transform))%Z
  /\ (0 < hop_length (spec_transform default_transform))%Z
  /\ (0 < win_length (spec_transform default_transform)
      <= n_fft (spec_transform default_transform))%Z
  /\ (win_length (spec_transform default_transform) <= 16000)%Z
  /\ (n_fft (spec_transform default_transform) / 2
      < 16000 + 2 * pad (spec_transform default_transform))%Z
  /\ float32_exact TrueDivision default_transform 16000
  /\ size_last one_second_batch = Ok 16000%Z
  /\ exists out frames,
       forward shape_only_mel shape_only_ln shape_only_delta
         default_transform one_second_batch = Ok out
       /\ time_frames out = Ok frames
       /\ (1 <= compute_length TrueDivision default_transform 16000
           <= frames)%Z.
Proof.
  assert (Hc : center (spec_transform default_transform) = true)
    by reflexivity.
  assert (Hp : (0 <= pad (spec_transform default_transform))%Z)
    by discriminate.
  assert (Hh : (0 < hop_length (spec_transform default_transform))%Z)
    by reflexivity.
  assert (Hw : (0 < win_length (spec_transform default_transform)
                <= n_fft (spec_transform default_transform))%Z)
    by (split; [reflexivity | discriminate]).
  assert (Hn : (win_length (spec_transform default_transform) <= 16000)%Z)
    by discriminate.
  assert (Hhalf : (n_fft (spec_transform default_transform) / 2
                   < 16000 + 2 * pad (spec_transform default_transform))%Z)
    by reflexivity.
  assert (Hexact : float32_exact TrueDivision default_transform 16000)
    by reflexivity.
  assert (Hs : size_last one_second_batch = Ok 16000%Z) by reflexivity.
  split; [exact Hc|]. split; [exact Hp|]. split; [exact Hh|].
  split; [exact Hw|]. split; [exact Hn|]. split; [exact Hhalf|].
  split; [exact Hexact|]. split; [exact Hs|].
  exact (@compute_lengths_within_frames shape_only_mel shape_only_ln
           shape_only_delta TrueDivision default_transform one_second_batch
           16000 Hc Hp Hh Hw Hn Hhalf Hexact Hs).
Defined.

(** [compute_lengths] counts hops: [win_length] samples give one frame, and
    every further [hop_length] samples give one more; samples short of a
    hop are dropped.  Under float32 division this holds for the sample
    counts of [float32_exact]. *)
Theorem compute_length_counts_hops (div : tensor_division)
    (self : StandardAudioTransform) (k r : Z) :
  (0 < hop_length (spec_transform self))%Z ->
  (0 <= k)%Z -> (0 <= r < hop_length (spec_transform self))%Z ->
  float32_exact div self
    (win_length (spec_transform self)
     + k * hop_length (spec_transform self) + r) ->
  compute_length div self
    (win_length (spec_transform self)
     + k * hop_length (spec_transform self) + r)
  = (k + 1)%Z.
Proof.
  intros Hh Hk Hr Hexact.
  set (h := hop_length (spec_transform self)) in *.
  set (w := win_length (spec_transform self)) in *.
  assert (Hn : (w <= w + k * h + r)%Z) by nia.
  destruct (compute_length_floor div self Hh Hn Hexact) as [-> ->].
  fold w h. f_equal.
  replace (w + k * h + r - w)%Z with (k * h + r)%Z by lia.
  rewrite Z.div_add_l by lia. rewrite (Z.div_small r h) by lia. lia.
Qed.

Lemma compute_length_counts_hops_witness :
  (0 < hop_length (spec_transform default_transform))%Z
  /\ (0 <= 78)%Z /\ (0 <= 0 < hop_length (spec_transform default_transform))%Z
  /\ float32_exact TrueDivision default_transform
       (win_length (spec_transform default_transform)
        + 78 * hop_length (spec_transform default_transform) + 0)
  /\ compute_length TrueDivision default_transform
       (win_length (spec_transform default_transform)
        + 78 * hop_length (spec_transform default_transform) + 0)
     = (78 + 1)%Z.
Proof.
  assert (Hh : (0 < hop_length (spec_transform default_transform))%Z)
    by reflexivity.
  assert (Hk : (0 <= 78)%Z) by discriminate.
  assert (Hr : (0 <= 0 < hop_length (spec_transform default_transform))%Z)
    by (split; [discriminate | reflexivity]).
  assert (Hexact : float32_exact TrueDivision default_transform
                     (win_length (spec_transform default_transform)
                      + 78 * hop_length (spec_transform default_transform) + 0))
    by reflexivity.
  split; [exact Hh|]. split; [exact Hk|]. split; [exact Hr|].
  split; [exact Hexact|].
  exact (@compute_length_counts_hops TrueDivision default_transform 78 0
           Hh Hk Hr Hexact).
Defined.

(** Less than a hop short of a window, the two readings of the tensor
    division part: float32 division followed by [.long()] gives no frame
    (for a hop below [2 ^ 23]), truncating integer division gives one. *)
Theorem compute_length_below_window (self : StandardAudioTransform) (n : Z) :
  (0 < hop_length (spec_transform self) < 8388608)%Z ->
  (win_length (spec_transform self) - hop_length (spec_transform self) < n
   < win_length (spec_transform self))%Z ->
  compute_length TrueDivision self n = 0%Z
  /\ compute_length TruncatingDivision self n = 1%Z.
Proof.
  intros Hh [Hlo Hhi]. unfold compute_length.
  set (h := hop_length (spec_transform self)) in *.
  set (w := win_length (spec_transform self)) in *.
  split.
  - destruct (@f32_below_one (n - w) h Hh ltac:(lia)) as [H0 H1].
    rewrite Qtruncate_nonneg by exact H0.
    apply Qfloor_unique; [exact H0 | exact H1].
  - replace (n - w)%Z with (- (w - n))%Z by lia.
    rewrite Z.quot_opp_l by lia. rewrite Z.quot_small by lia. reflexivity.
Qed.

Lemma compute_length_below_window_witness :
  (0 < hop_length (spec_transform default_transform) < 8388608)%Z
  /\ (win_length (spec_transform default_transform)
      - hop_length (spec_transform default_transform) < 300
      < win_length (spec_transform default_transform))%Z
  /\ compute_length TrueDivision default_transform 300 = 0%Z
  /\ compute_length TruncatingDivision default_transform 300 = 1%Z.
Proof.
  assert (Hh : (0 < hop_length (spec_transform default_transform)
                < 8388608)%Z) by (split; reflexivity).
  assert (Hn : (win_length (spec_transform default_transform)
                - hop_length (spec_transform default_transform) < 300
                < win_length (spec_transform default_transform))%Z)
    by (split; reflexivity).
  split; [exact Hh|]. split; [exact Hn|].
  exact (@compute_length_below_window default_transform 300 Hh Hn).
Defined.

(** ** Sizes through [forward] *)

Lemma add_log_well_formed (ln : Q -> Q) (t : tensor Q) :
  well_formed t -> well_formed (add_log ln t).
Proof.
  unfold well_formed, numel, add_log. cbn [shape values].
  now rewrite length_map.
Qed.

Lemma kernel_rows_length {A} (kernel : list A -> list A) (n w k : nat)
    (l : list A) :
  length l = (k * n)%nat ->
  (forall c, length c = n -> length (kernel c) = w) ->
  length (concat (map kernel (chunks n k l))) = (k * w)%nat.
Proof.
  intros Hl Hk.
  rewrite (@length_concat_rows _ w).
  - now rewrite length_map, chunks_length.
  - rewrite Forall_map.
    eapply Forall_impl; [|apply chunks_Forall_length; lia].
    intros c Hc. now apply Hk.
Qed.

Lemma ComputeDeltas_well_formed (delta_kernel : list Q -> list Q)
    (t : tensor Q) :
  (forall r, length (delta_kernel r) = length r) ->
  well_formed t -> well_formed (ComputeDeltas_forward delta_kernel t).
Proof.
  intros Hd Hwf. unfold ComputeDeltas_forward.
  destruct (shape t) as [|d ds] eqn:Hs; [exact Hwf|].
  unfold well_formed, numel in *. cbn [shape values]. rewrite Hs in Hwf.
  rewrite prod_dims_last in *.
  apply kernel_rows_length; [exact Hwf|].
  intros c Hc. now rewrite Hd.
Qed.

Lemma MelSpectrogram_forward_well_formed
    (mel_kernel : MelSpectrogram -> list Q -> list Q) (m : MelSpectrogram)
    (audio mels : tensor Q) :
  well_formed audio ->
  (forall w f, stft_frames m (Z.of_nat (length w)) = Ok f ->
     length (mel_kernel m w) = (Z.to_nat (n_mels m) * Z.to_nat f)%nat) ->
  MelSpectrogram_forward mel_kernel m audio = Ok mels ->
  well_formed mels.
Proof.
  intros Hwf Hk. unfold MelSpectrogram_forward.
  destruct (shape audio) as [|d ds] eqn:Hs; [discriminate|].
  destruct (stft_frames m (Z.of_nat (last ds d))) as [f|e] eqn:Hf;
    [|discriminate].
  unfold bind. intros H; injection H as <-.
  unfold well_formed, numel in *. cbn [shape values]. rewrite Hs in Hwf.
  rewrite prod_dims_last in Hwf. rewrite prod_dims_app.
  replace (prod_dims [Z.to_nat (n_mels m); Z.to_nat f])
    with (Z.to_nat (n_mels m) * Z.to_nat f)%nat by (simpl; lia).
  apply kernel_rows_length; [exact Hwf|].
  intros c Hc. apply Hk. now rewrite Hc.
Qed.

Lemma stack3_well_formed {A} (t0 t1 t2 out : tensor A) :
  well_formed t0 -> well_formed t1 -> well_formed t2 ->
  stack_at_1 [t0; t1; t2] = Ok out -> well_formed out.
Proof.
  intros W0 W1 W2. unfold stack_at_1.
  destruct (shape t0) as [|d0 s'] eqn:S0; [discriminate|].
  cbn [forallb].
  destruct (shape_eqb (shape t1) (d0 :: s')) eqn:E1; [|discriminate].
  destruct (shape_eqb (shape t2) (d0 :: s')) eqn:E2; [|discriminate].
  apply shape_eqb_eq in E1. apply shape_eqb_eq in E2.
  cbn [andb]. intros H; injection H as <-.
  unfold well_formed, numel in *. rewrite S0 in W0. rewrite E1 in W1.
  rewrite E2 in W2. cbn [shape values].
  change (prod_dims (d0 :: s')) with (d0 * prod_dims s')%nat in *.
  change (prod_dims (d0 :: length [t0; t1; t2] :: s'))
    with (d0 * (3 * prod_dims s'))%nat.
  set (inner := prod_dims s') in *.
  rewrite (@length_concat_rows _ (3 * inner)).
  - now rewrite length_map, length_seq.
  - rewrite Forall_map. apply Forall_forall. intros i Hi. apply in_seq in Hi.
    cbn [flat_map]. rewrite !length_app.
    rewrite !nth_chunk_length by lia. simpl. lia.
Qed.

(** With kernels of the right sizes (the spectrogram of one waveform has
    [n_mels] rows of frames, the delta filter keeps the length of a row),
    [forward] turns a well-formed waveform into a well-formed tensor whose
    channels 0, 1 and 2 are the log-mel spectrogram, its delta and the delta
    of the delta. *)
Theorem forward_well_formed
    (mel_kernel : MelSpectrogram -> list Q -> list Q)
    (ln : Q -> Q) (delta_kernel : list Q -> list Q)
    (self : StandardAudioTransform) (audio out : tensor Q) :
  well_formed audio ->
  (forall w f,
      stft_frames (spec_transform self) (Z.of_nat (length w)) = Ok f ->
      length (mel_kernel (spec_transform self) w)
      = (Z.to_nat (n_mels (spec_transform self)) * Z.to_nat f)%nat) ->
  (forall r, length (delta_kernel r) = length r) ->
  forward mel_kernel ln delta_kernel self audio = Ok out ->
  well_formed out
  /\ exists mels,
       MelSpectrogram_forward mel_kernel (spec_transform self) audio = Ok mels
       /\ well_formed mels
       /\ channel out 0 = add_log ln mels
       /\ channel out 1 = ComputeDeltas_forward delta_kernel (add_log ln mels)
       /\ channel out 2
          = ComputeDeltas_forward delta_kernel
              (ComputeDeltas_forward delta_kernel (add_log ln mels)).
Proof.
  intros Hwf Hmk Hdk Hout.
  destruct (MelSpectrogram_forward mel_kernel (spec_transform self) audio)
    as [mels|e] eqn:Hmel;
    [|unfold forward in Hout; rewrite Hmel in Hout; discriminate].
  assert (Wm := MelSpectrogram_forward_well_formed _ _ Hwf Hmk Hmel).
  assert (W0 := add_log_well_formed ln Wm).
  assert (W1 := ComputeDeltas_well_formed _ Hdk W0).
  assert (W2 := ComputeDeltas_well_formed _ Hdk W1).
  destruct (MelSpectrogram_forward_inv _ _ _ Hmel) as [f [_ Hshape]].
  destruct (shape mels) as [|d0 s'] eqn:Hs.
  { destruct (removelast (shape audio)); discriminate. }
  destruct (@forward_stacks mel_kernel ln delta_kernel self audio mels d0 s'
              Hmel Hs) as [out' [Hout' [_ Hch]]].
  rewrite Hout in Hout'. injection Hout' as <-.
  split.
  - unfold forward in Hout. rewrite Hmel in Hout. unfold bind in Hout.
    exact (stack3_well_formed W0 W1 W2 Hout).
  - exists mels. split; [reflexivity|]. split; [exact Wm|].
    exact (Hch W0 W1 W2).
Qed.

Lemma shape_only_mel_length (m : MelSpectrogram) (w : list Q) (f : Z) :
  stft_frames m (Z.of_nat (length w)) = Ok f ->
  length (shape_only_mel m w) = (Z.to_nat (n_mels m) * Z.to_nat f)%nat.
Proof.
  intros H. unfold shape_only_mel. rewrite H. apply repeat_length.
Qed.

Lemma forward_well_formed_witness :
  well_formed two_waveforms
  /\ (forall r, length (shape_only_delta r) = length r)
  /\ exists out,
       forward shape_only_mel shape_only_ln shape_only_delta
         default_transform two_waveforms = Ok out
       /\ well_formed out
       /\ shape out = [2%nat; 3%nat; 80%nat; 3%nat].
Proof.
  assert (Hwf : well_formed two_waveforms) by reflexivity.
  assert (Hdk : forall r, length (shape_only_delta r) = length r)
    by reflexivity.
  split; [exact Hwf|]. split; [exact Hdk|].
  assert (Hpos : (0 <= 3)%Z) by discriminate.
  destruct (@forward_frames shape_only_mel shape_only_ln shape_only_delta
              default_transform two_waveforms 400 3 eq_refl eq_refl
              Hpos) as [out [Hout [_ Hshape]]].
  exists out. split; [exact Hout|]. split; [|exact Hshape].
  exact (proj1 (@forward_well_formed shape_only_mel shape_only_ln
                  shape_only_delta default_transform two_waveforms out Hwf
                  (shape_only_mel_length (spec_transform default_transform))
                  Hdk Hout)).
Defined.

(** ** The exceptions of [random_slice] *)

Lemma random_slice_step_Err (w : Z) (acc : list WakeWordClipExample)
    (ex : WakeWordClipExample) (p : Q) (e : error) :
  In (p, Err e) (random_slice_step w acc ex) -> e = IndexError_no_dimension.
Proof.
  unfold random_slice_step. intros Hin.
  apply rbind_In in Hin. destruct Hin as [p1 [r1 [[H1|[]] Hcase]]].
  injection H1 as _ <-.
  destruct Hcase as [[e' [Hs [He _]]]|[n [q [Hs [Hin _]]]]].
  - injection He as <-. now apply size_last_Err in Hs.
  - destruct (Z.ltb_spec n w) as [Hlt|Hge]; [destruct Hin as [H|[]]; discriminate|].
    apply rbind_In in Hin. destruct Hin as [p2 [r2 [Hin2 Hcase]]].
    unfold randint in Hin2.
    destruct (Z.ltb_spec (n - w) 0) as [Hneg|_]; [lia|].
    apply in_map_iff in Hin2. destruct Hin2 as [a [Ha _]].
    injection Ha as _ <-.
    destruct Hcase as [[e' [H _]]|[a' [q' [_ [Hin3 _]]]]]; [discriminate|].
    apply rbind_In in Hin3. destruct Hin3 as [p3 [r3 [[H3|[]] Hcase]]].
    injection H3 as _ <-.
    destruct Hcase as [[e' [Hsl [He _]]]|[sl [q'' [_ [[H|[]] _]]]]];
      [|discriminate].
    injection He as <-. now apply slice_last_Err in Hsl.
Qed.

Lemma random_slice_fold_Err (w : Z) (exs : list WakeWordClipExample) :
  forall acc : rand (list WakeWordClipExample),
    (forall p e, In (p, Err e) acc -> e = IndexError_no_dimension) ->
    forall p e,
      In (p, Err e)
         (fold_left (fun acc ex =>
                       rbind acc (fun new_examples =>
                         random_slice_step w new_examples ex))
                    exs acc) ->
      e = IndexError_no_dimension.
Proof.
  induction exs as [|ex exs IH]; intros acc Hacc p e Hin;
    [exact (Hacc p e Hin)|].
  cbn [fold_left] in Hin. revert Hin. apply IH. clear p e.
  intros p e Hin. apply rbind_In in Hin.
  destruct Hin as [p1 [r1 [Hin1 Hcase]]].
  destruct Hcase as [[e' [-> [He _]]]|[pre [q [_ [Hin2 _]]]]].
  - injection He as <-. exact (Hacc p1 e Hin1).
  - exact (@random_slice_step_Err w pre ex q e Hin2).
Qed.

(** Whatever the clips and the window size, the only exception that
    [random_slice] raises is the [IndexError] of a clip without a dimension:
    [random.randint] is never given an empty range, and the slice never
    fails on a clip that has a last dimension. *)
Theorem random_slice_raises_only_index_error
    (exs : list WakeWordClipExample) (w : Z) (p : Q) (e : error) :
  In (p, Err e) (random_slice exs w) -> e = IndexError_no_dimension.
Proof.
  unfold random_slice. apply random_slice_fold_Err.
  intros q e' [H|[]]. discriminate.
Qed.

Lemma random_slice_raises_only_index_error_witness :
  In (1 # 3, Err IndexError_no_dimension)
     (random_slice [clip_five; clip_scalar] 3)
  /\ IndexError_no_dimension = IndexError_no_dimension.
Proof.
  assert (Hin : In (1 # 3, Err IndexError_no_dimension)
                   (random_slice [clip_five; clip_scalar] 3))
    by (left; reflexivity).
  split; [exact Hin|].
  exact (@random_slice_raises_only_index_error _ _ _ _ Hin).
Defined.
